(** * The coolq gateway client of haruno: plugin dispatch and echo tracking

    A shallow embedding of [coolq.cqclient] (plugin registration, the two
    connection callbacks, the echo sweep and [SendGroupMsg]), of the logger
    package and of the console set-up of [main], together with the
    properties of the dispatch table, of the pending-echo queue and of the
    log service.  The client is given twice: on its own, with the calls it
    makes out of the package recorded as effects, and linked with the code
    of the logger and with plugin functions that can fail. *)

From stdpp Require Import base gmap strings list fin_maps pretty.

Open Scope Z_scope.

(** ** Collaborators outside the package *)

(** [clients.WSClient]: the fields and the predicate used by [cqclient]. *)
Module clients.
Record WSClient := { Name : string; connected : bool }.

Definition IsConnected (conn : WSClient) : bool := connected conn.

Definition setName (n : string) (conn : WSClient) : WSClient :=
  {| Name := n; connected := connected conn |}.

Definition setConnected (b : bool) (conn : WSClient) : WSClient :=
  {| Name := Name conn; connected := b |}.
End clients.

(** [logger]: the kinds of log entry accepted by [logger.Service.AddLog]. *)
Module logger.
Inductive LogType := LogTypeInfo | LogTypeError | LogTypeSuccess.

Definition code (t : LogType) : Z :=
  match t with LogTypeInfo => 0 | LogTypeError => 1 | LogTypeSuccess => 2 end.

Definition is_error (t : LogType) : bool :=
  match t with LogTypeError => true | _ => false end.

#[global] Instance LogType_eq_dec : EqDecision LogType.
Proof. solve_decision. Defined.
End logger.

(** ** Machine integers and Go maps *)

(** [int64] values are integers taken modulo [2^64] into the signed range. *)
Definition wrap64 (z : Z) : Z := (z + 2 ^ 63) `mod` 2 ^ 64 - 2 ^ 63.

Definition sub64 (a b : Z) : Z := wrap64 (a - b).

(** A Go map is a reference, and the zero value of a map type is [nil].
    Reading, deleting from and ranging over a [nil] map behave as on an empty
    map; only a store into it panics. *)
Definition gomap (K : Type) `{Countable K} (V : Type) : Type := option (gmap K V).

Definition gomap_load `{Countable K} {V} (zero : V) (m : gomap K V) (k : K) : V :=
  match m with
  | Some m => default zero (m !! k)
  | None => zero
  end.

Definition gomap_delete `{Countable K} {V} (k : K) (m : gomap K V) : gomap K V :=
  match m with
  | Some m => Some (delete k m)
  | None => None
  end.

(** The order in which [range] visits a map is not specified by Go.  The
    model takes it from an arbitrary enumeration of the bindings; every
    property below holds for every such enumeration, and none of them
    compares two iterations over the same map. *)
Record RangeOrder := {
  range : ∀ K `{Countable K} V, gmap K V → list (K * V);
  range_perm : ∀ K `{Countable K} V (m : gmap K V), range K V m ≡ₚ map_to_list m
}.
Arguments range _ {K _ _ V} _.

Definition gomap_range (R : RangeOrder) `{Countable K} {V} (m : gomap K V) : list (K * V) :=
  match m with
  | Some m => range R m
  | None => []
  end.

(** The enumeration in key order, used to run the model on examples. *)
Definition keyOrder : RangeOrder :=
  {| range := λ K _ _ V, map_to_list; range_perm := λ K _ _ V m, reflexivity _ |}.

(** ** Constants *)

Definition timeForWait : Z := 30.

Definition noFilterKey : string := "__NEVER_SET_UNUSED_KEY__".

(** Modelled from the spec: the constant [ActionSendGroupMsg] is declared
    outside the given sources; section 6 gives its wire value. *)
Definition ActionSendGroupMsg : string := "send_group_msg".

(** ** Wire messages *)

Record CQTypeSendGroupMsg := { GroupID : Z; Message : string }.

Record CQWSMessage := { Action : string; Params : CQTypeSendGroupMsg; Echo : Z }.

(** [CQWSResponse]: only the [Echo] field is read. *)
Record CQWSResponse := { RespEcho : Z }.

Definition bytes : Type := list Byte.byte.

(** gorilla/websocket's frame type for text messages. *)
Definition TextMessage : Z := 1.

(** The text of the run-time panic raised by a call through a [nil]
    function value or a [nil] pointer. *)
Definition nilDereference : string :=
  "runtime error: invalid memory address or nil pointer dereference".

Definition newline : string := String (Ascii.ascii_of_nat 10) EmptyString.

(** ** Control: a call returns, panics, or ends the process *)

Inductive outcome (A : Type) :=
| Returned (a : A)
| Panicked (v : string)
| Exited (code : Z).
Arguments Returned {A} a.
Arguments Panicked {A} v.
Arguments Exited {A} code.

(** ** The client *)

Section Coolq.
(** [CQEvent] is the decoded event; [Func] names the handler functions that
    plugins supply.  In this section a call of a plugin function and a call
    of [logger.Service.AddLog] are recorded as effects, and the code goes on
    as it does when the call returns; functions are not [nil].  What the
    client does when such a call fails is in [Linked] below, where the calls
    are made. *)
Context {CQEvent Func : Type}.

(** The iteration order of [range], [json.Unmarshal] at the two message
    types, and [json.Marshal] at the outgoing message type. *)
Context (R : RangeOrder).
Context (unmarshalResponse : bytes → CQWSResponse + string).
Context (unmarshalEvent : bytes → CQEvent + string).
Context (marshal : CQWSMessage → bytes).

Definition Filter : Type := CQEvent → bool.

(** Go gives one type, [Handler], to the functions of a plugin and to the
    closure built at registration; the two are kept apart as constructors,
    the closure carrying the slice it captured. *)
Inductive Handler :=
| PluginFunc (fn : Func)
| NoFilterFunc (noFilterHanlers : list Func).

Record pluginEntry := {
  fitlers : gmap string Filter;
  handlers : gmap string Handler
}.

(** The plugin interface, as [registerAllPlugins] uses it: [Load] is the
    error returned by the load hook ([None] for [nil]). *)
Record Plugin := {
  Name : string;
  Load : option string;
  Filters : gmap string Filter;
  Handlers : gmap string Func
}.

(** The mutex [mu] is represented by its [MuLock]/[MuUnlock] events. *)
Record cqclient := {
  apiConn : clients.WSClient;
  eventConn : clients.WSClient;
  pluginEntries : gmap string pluginEntry;
  echoqueue : gomap Z bool
}.

(** What a run of the client does to the outside world and to the shared
    queue, in program order.  A call of a plugin function is labelled with
    the keys of [pluginEntries] and of [handlers] (or [fitlers]) under which
    the router found the function it called. *)
Inductive effect :=
| MuLock
| MuUnlock
| QueueLoad (echo : Z)
| QueueRange
| QueueDelete (echo : Z)
| AddLog (ltype : logger.LogType) (text : string)
| Println (text : string)
| Printf (text : string)
| GoLoaded (pluginName : string)
| Dial (conn url authorization : string)
| ApiSend (messageType : Z) (msg : bytes)
| CallFilter (pluginName key : string) (event : CQEvent) (ok : bool)
| CallHandler (pluginName key : string) (fn : Func) (event : CQEvent)
| CallNoFilter (pluginName : string) (event : CQEvent).

Record process := { Client : cqclient; trace : list effect }.

(** *** The monad of client code *)

Definition Go (A : Type) : Type := process → outcome A * process.

#[global] Instance Go_ret : MRet Go := λ A a p, (Returned a, p).

#[global] Instance Go_bind : MBind Go := λ A B f m p,
  match m p with
  | (Returned a, p') => f a p'
  | (Panicked v, p') => (Panicked v, p')
  | (Exited code, p') => (Exited code, p')
  end.

Definition emit (e : effect) : Go unit :=
  λ p, (Returned (), {| Client := Client p; trace := trace p ++ [e] |}).

Definition getClient : Go cqclient := λ p, (Returned (Client p), p).

Definition modifyClient (f : cqclient → cqclient) : Go unit :=
  λ p, (Returned (), {| Client := f (Client p); trace := trace p |}).

Definition panic (v : string) : Go unit := λ p, (Panicked v, p).

Definition exit (code : Z) : Go unit := λ p, (Exited code, p).

Fixpoint forEach {A} (l : list A) (body : A → Go unit) : Go unit :=
  match l with
  | [] => mret ()
  | x :: l => body x ;; forEach l body
  end.

Fixpoint foldGo {A B} (body : B → A → Go B) (acc : B) (l : list A) : Go B :=
  match l with
  | [] => mret acc
  | x :: l => acc ← body acc x; foldGo body acc l
  end.

(** [log.Panicln] prints and panics with what it printed, the text
    followed by a line feed; [log.Fatalln] prints and exits with 1. *)
Definition Panicln (text : string) : Go unit :=
  emit (Println text) ;; panic (text +:+ newline).

Definition Fatalln (text : string) : Go unit := emit (Println text) ;; exit 1.

(** *** Field updates *)

Definition setApiConn (f : clients.WSClient → clients.WSClient) (c : cqclient) : cqclient :=
  {| apiConn := f (apiConn c); eventConn := eventConn c;
     pluginEntries := pluginEntries c; echoqueue := echoqueue c |}.

Definition setEventConn (f : clients.WSClient → clients.WSClient) (c : cqclient) : cqclient :=
  {| apiConn := apiConn c; eventConn := f (eventConn c);
     pluginEntries := pluginEntries c; echoqueue := echoqueue c |}.

Definition setPluginEntries (f : gmap string pluginEntry → gmap string pluginEntry)
    (c : cqclient) : cqclient :=
  {| apiConn := apiConn c; eventConn := eventConn c;
     pluginEntries := f (pluginEntries c); echoqueue := echoqueue c |}.

Definition setEchoqueue (f : gomap Z bool → gomap Z bool) (c : cqclient) : cqclient :=
  {| apiConn := apiConn c; eventConn := eventConn c;
     pluginEntries := pluginEntries c; echoqueue := f (echoqueue c) |}.

(** *** Accesses to the echo queue *)

Definition queueLoad (echo : Z) : Go bool :=
  emit (QueueLoad echo) ;; c ← getClient; mret (gomap_load false (echoqueue c) echo).

Definition queueRange : Go (list (Z * bool)) :=
  emit QueueRange ;; c ← getClient; mret (gomap_range R (echoqueue c)).

Definition queueDelete (echo : Z) : Go unit :=
  emit (QueueDelete echo) ;; modifyClient (setEchoqueue (gomap_delete echo)).

(** *** Connection callbacks: connect and error *)

Definition handleConnect (conn : clients.WSClient) : Go unit :=
  if clients.IsConnected conn then
    let msgText := clients.Name conn +:+ "服务已成功连接！" in
    emit (Println msgText) ;;
    emit (AddLog logger.LogTypeInfo msgText)
  else mret ().

Definition handleError (err : string) : Go unit :=
  let msgText := err in
  emit (AddLog logger.LogTypeError msgText).
(** *** Plugin registration *)

Definition unusedKeyWarning (pluginName key : string) : string :=
  "[WARN] 插件 " +:+ pluginName +:+ " 中存在没有使用的key: " +:+ key +:+ newline.

Definition emptyEntry : pluginEntry := {| fitlers := ∅; handlers := ∅ |}.

(** The load pass: every load hook runs, and the first error ends the process. *)
Definition loadPlugins (entries : list Plugin) : Go unit :=
  forEach entries (λ plug,
    match Load plug with
    | Some err => Fatalln err
    | None => mret ()
    end).

(** One turn of the loop over [pluginFilters]: a key without a handler
    (the lookup yields [nil]) is reported and skipped, any other key is marked
    in [hasFilter] and bound in [entry]. *)
Definition bindFilter (pluginName : string) (pluginHandlers : gmap string Func)
    (acc : gmap string bool * pluginEntry) (kf : string * Filter) :
    Go (gmap string bool * pluginEntry) :=
  let '(hasFilter, entry) := acc in
  let '(key, filter) := kf in
  match pluginHandlers !! key with
  | None =>
      emit (Printf (unusedKeyWarning pluginName key)) ;;
      mret (hasFilter, entry)
  | Some handler =>
      mret (<[key := true]> hasFilter,
            {| fitlers := <[key := filter]> (fitlers entry);
               handlers := <[key := PluginFunc handler]> (handlers entry) |})
  end.

Definition bindFilters (pluginName : string) (pluginFilters : gmap string Filter)
    (pluginHandlers : gmap string Func) : Go (gmap string bool * pluginEntry) :=
  foldGo (bindFilter pluginName pluginHandlers) (∅, emptyEntry) (range R pluginFilters).

(** One turn of the loop over [pluginHandlers]: a handler whose key is not
    marked is appended to [noFilterHanlers]. *)
Definition keepNoFilter (hasFilter : gmap string bool) (noFilterHanlers : list Func)
    (kh : string * Func) : list Func :=
  let '(key, handler) := kh in
  if negb (default false (hasFilter !! key))
  then noFilterHanlers ++ [handler]
  else noFilterHanlers.

Definition collectNoFilter (hasFilter : gmap string bool)
    (pluginHandlers : gmap string Func) : list Func :=
  foldl (keepNoFilter hasFilter) [] (range R pluginHandlers).

(** One turn of the wiring loop. *)
Definition wirePlugin (plug : Plugin) : Go unit :=
  let pluginName := Name plug in
  let pluginFilters := Filters plug in
  let pluginHandlers := Handlers plug in
  '(hasFilter, entry) ← bindFilters pluginName pluginFilters pluginHandlers;
  let noFilterHanlers := collectNoFilter hasFilter pluginHandlers in
  let entry :=
    {| fitlers := fitlers entry;
       handlers := <[noFilterKey := NoFilterFunc noFilterHanlers]> (handlers entry) |} in
  modifyClient (setPluginEntries (<[pluginName := entry]>)).

Definition registerAllPlugins (entries : list Plugin) : Go unit :=
  loadPlugins entries ;;
  forEach entries wirePlugin ;;
  forEach entries (λ plug, emit (GoLoaded (Name plug))).

(** *** The event router *)

(** The call [entry.handlers[key](event)]: a missing map entry yields [nil],
    and calling [nil] panics; the closure calls the captured handlers in
    slice order. *)
Definition invoke (pluginName key : string) (handleFunc : option Handler)
    (event : CQEvent) : Go unit :=
  match handleFunc with
  | None => panic nilDereference
  | Some (PluginFunc fn) => emit (CallHandler pluginName key fn event)
  | Some (NoFilterFunc noFilterHanlers) =>
      emit (CallNoFilter pluginName event) ;;
      forEach noFilterHanlers (λ hanldeFunc,
        emit (CallHandler pluginName key hanldeFunc event))
  end.

Definition callFilter (pluginName key : string) (filterFunc : Filter)
    (event : CQEvent) : Go bool :=
  let ok := filterFunc event in
  emit (CallFilter pluginName key event ok) ;; mret ok.

(** One turn of the inner loop of the event callback. *)
Definition routeFilter (pluginName : string) (entry : pluginEntry) (event : CQEvent)
    (key : string) (filterFunc : Filter) : Go unit :=
  let handleFunc := handlers entry !! key in
  ok ← callFilter pluginName key filterFunc event;
  if ok : bool then invoke pluginName key handleFunc event else mret ().

(** One turn of the outer loop of the event callback. *)
Definition routeEntry (event : CQEvent) (pluginName : string) (entry : pluginEntry) : Go unit :=
  invoke pluginName noFilterKey (handlers entry !! noFilterKey) event ;;
  forEach (range R (fitlers entry)) (λ '(key, filterFunc),
    routeFilter pluginName entry event key filterFunc).

(** [c.eventConn.OnMessage] *)
Definition eventOnMessage (raw : bytes) : Go unit :=
  match unmarshalEvent raw with
  | inr errMsg =>
      Panicln errMsg ;;
      emit (AddLog logger.LogTypeError errMsg) ;;
      mret ()
  | inl event =>
      c ← getClient;
      forEach (range R (pluginEntries c)) (λ '(pluginName, entry),
        routeEntry event pluginName entry)
  end.

(** *** Acknowledgements and the sweep *)

(** [c.apiConn.OnMessage] *)
Definition apiOnMessage (raw : bytes) : Go unit :=
  match unmarshalResponse raw with
  | inr err => emit (AddLog logger.LogTypeError err)
  | inl msg =>
      let echo := RespEcho msg in
      present ← queueLoad echo;
      if present : bool then
        emit MuLock ;; queueDelete echo ;; emit MuUnlock
      else mret ()
  end.

Definition timeoutText (echo : Z) : string :=
  "Echo = " +:+ pretty echo +:+ " 响应超时(30s).".

(** The body run at each tick of the ticker; [now] is [time.Now().Unix()]. *)
Definition sweep (now : Z) : Go unit :=
  queue ← queueRange;
  forEach queue (λ '(echo, state),
    if (state : bool) && bool_decide (sub64 now echo > timeForWait) then
      emit (AddLog logger.LogTypeError (timeoutText echo)) ;;
      emit MuLock ;; queueDelete echo ;; emit MuUnlock
    else mret ()).

(** *** The facade *)

(** [Initialize] names the connections and registers the plugins.  The
    callbacks that it installs and the sweep goroutine that it starts are the
    actions [ApiConnected] to [Tick] below. *)
Definition Initialize (entries : list Plugin) : Go unit :=
  modifyClient (setApiConn (clients.setName "酷Q机器人Api")) ;;
  modifyClient (setEventConn (clients.setName "酷Q机器人Event")) ;;
  registerAllPlugins entries.

Definition Connect (url token : string) : Go unit :=
  let authorization := "Token " +:+ token in
  c ← getClient;
  emit (Dial (clients.Name (apiConn c)) (url +:+ "/api") authorization) ;;
  emit (Dial (clients.Name (eventConn c)) (url +:+ "/event") authorization).

Definition IsAPIOk (c : cqclient) : bool := clients.IsConnected (apiConn c).

Definition IsEventOk (c : cqclient) : bool := clients.IsConnected (eventConn c).

(** [now] is [time.Now().Unix()] at the call. *)
Definition SendGroupMsg (now : Z) (groupID : Z) (message : string) : Go unit :=
  c ← getClient;
  if negb (IsAPIOk c) then mret ()
  else
    let payload :=
      {| Action := ActionSendGroupMsg;
         Params := {| GroupID := groupID; Message := message |};
         Echo := now |} in
    let msg := marshal payload in
    emit (ApiSend TextMessage msg).

(** [Client], the only instance of [cqclient]: [echoqueue] is left [nil]. *)
Definition initialClient : cqclient :=
  {| apiConn := {| clients.Name := ""; clients.connected := false |};
     eventConn := {| clients.Name := ""; clients.connected := false |};
     pluginEntries := ∅;
     echoqueue := None |}.

Definition start : process := {| Client := initialClient; trace := [] |}.

(** *** The client in its environment *)

(** What can happen to the client: the calls of its exported methods, the
    callbacks fired by the two connections (a change of the connected flag
    followed by [OnConnect], an error, a message) and the ticks of the sweep
    ticker. *)
Inductive action :=
| DoInitialize (entries : list Plugin)
| DoConnect (url token : string)
| DoSendGroupMsg (now groupID : Z) (message : string)
| ApiConnected (up : bool)
| EventConnected (up : bool)
| ConnError (err : string)
| ApiMessage (raw : bytes)
| EventMessage (raw : bytes)
| Tick (now : Z).

Definition perform (a : action) : Go unit :=
  match a with
  | DoInitialize entries => Initialize entries
  | DoConnect url token => Connect url token
  | DoSendGroupMsg now groupID message => SendGroupMsg now groupID message
  | ApiConnected up =>
      modifyClient (setApiConn (clients.setConnected up)) ;;
      c ← getClient; handleConnect (apiConn c)
  | EventConnected up =>
      modifyClient (setEventConn (clients.setConnected up)) ;;
      c ← getClient; handleConnect (eventConn c)
  | ConnError err => handleError err
  | ApiMessage raw => apiOnMessage raw
  | EventMessage raw => eventOnMessage raw
  | Tick now => sweep now
  end.

(** The process after a sequence of actions.  A panic or an exit leaves
    the process as it was at that point; the run goes on from there, which
    covers a transport that recovers as well as one that does not. *)
Definition runAll (actions : list action) (p : process) : process :=
  foldl (λ p a, (perform a p).2) p actions.

(** *** Reading traces *)

(** The process [p] after the effects [t]. *)
Definition extend (p : process) (t : list effect) : process :=
  {| Client := Client p; trace := trace p ++ t |}.

(** The effects that [m] adds when run from [p]. *)
Definition effectsOf {A} (m : Go A) (p : process) : list effect :=
  drop (length (trace p)) (trace (m p).2).

(** The plugin functions called through [handlers[key]] of the entry
    stored under [pluginName], with the event each was given. *)
Definition handlerCalls (pluginName key : string) (t : list effect) : list (Func * CQEvent) :=
  omap (λ e,
    match e with
    | CallHandler n k fn event =>
        if decide (n = pluginName ∧ k = key) then Some (fn, event) else None
    | _ => None
    end) t.

(** The calls of the closure of the entry stored under [pluginName]. *)
Definition noFilterCalls (pluginName : string) (t : list effect) : list CQEvent :=
  omap (λ e,
    match e with
    | CallNoFilter n event => if decide (n = pluginName) then Some event else None
    | _ => None
    end) t.

(** The calls of the filter found under [key], with their results. *)
Definition filterCalls (pluginName key : string) (t : list effect) : list (CQEvent * bool) :=
  omap (λ e,
    match e with
    | CallFilter n k event ok =>
        if decide (n = pluginName ∧ k = key) then Some (event, ok) else None
    | _ => None
    end) t.

(** The entries that [logger.Service] received, and the frames sent. *)
Definition addedLogs (t : list effect) : list (logger.LogType * string) :=
  omap (λ e, match e with AddLog ltype text => Some (ltype, text) | _ => None end) t.

Definition sentFrames (t : list effect) : list (Z * bytes) :=
  omap (λ e, match e with ApiSend ty msg => Some (ty, msg) | _ => None end) t.

Definition isPluginCall (e : effect) : bool :=
  match e with
  | CallFilter _ _ _ _ | CallHandler _ _ _ _ | CallNoFilter _ _ => true
  | _ => false
  end.

(** Whether an effect touches [echoqueue]. *)
Definition isQueueAccess (e : effect) : bool :=
  match e with
  | QueueLoad _ | QueueRange | QueueDelete _ => true
  | _ => false
  end.

(** The accesses to [echoqueue] made in [t] while [mu] is not held, given
    whether it is held when [t] starts. *)
Fixpoint unguarded (held : bool) (t : list effect) : list effect :=
  match t with
  | [] => []
  | MuLock :: t => unguarded true t
  | MuUnlock :: t => unguarded false t
  | e :: t =>
      if isQueueAccess e && negb held then e :: unguarded held t
      else unguarded held t
  end.

(** *** Reading the echo queue *)

(** Whether [echo] is recorded as outstanding. *)
Definition tracked (echo : Z) (p : process) : bool :=
  gomap_load false (echoqueue (Client p)) echo.

(** Whether the sweep at [now] removes the binding [es] of the queue. *)
Definition expired (now : Z) (es : Z * bool) : bool :=
  es.2 && bool_decide (sub64 now es.1 > timeForWait).

(** The effects of the sweep at [now] over the bindings [l], after the
    [range] itself, and the queue it leaves. *)
Definition sweepTrace (now : Z) (l : list (Z * bool)) : list effect :=
  l ≫= λ es,
    if expired now es
    then [AddLog logger.LogTypeError (timeoutText es.1); MuLock; QueueDelete es.1; MuUnlock]
    else [].

Definition sweepQueue (now : Z) (l : list (Z * bool)) (queue : gomap Z bool) : gomap Z bool :=
  foldl (λ queue es, if expired now es then gomap_delete es.1 queue else queue) queue l.


(** The queue was never allocated and nothing was ever deleted from it. *)
Definition neverTracked (p : process) : Prop :=
  echoqueue (Client p) = None ∧
  Forall (λ e, ∀ echo, e ≠ QueueDelete echo) (trace p).

(** Code that keeps the queue unallocated, whatever its outcome. *)
Definition keepsUntracked {A} (m : Go A) : Prop :=
  ∀ p, neverTracked p → neverTracked (m p).2.

(** *** Reading plugin descriptors *)

(** A key is claimed when the plugin binds it in both mappings. *)
Definition claimed (plug : Plugin) (key : string) : Prop :=
  is_Some (Filters plug !! key) ∧ is_Some (Handlers plug !! key).

(** The handlers of a plugin whose key has no filter. *)
Definition unfiltered (plug : Plugin) : gmap string Func :=
  filter (λ kh, Filters plug !! kh.1 = None) (Handlers plug).

(** In the effects [t] of routing [event], the closure of [plug] ran once
    and called every handler of [plug] that has no filter once. *)
Definition calledOnce (plug : Plugin) (event : CQEvent) (t : list effect) : Prop :=
  noFilterCalls (Name plug) t = [event] ∧
  handlerCalls (Name plug) noFilterKey t
    ≡ₚ (λ fn, (fn, event)) <$> (map_to_list (unfiltered plug)).*2.

(** In the effects [t] of routing [event], the handler [handler] that [plug]
    binds under [key] was called exactly when the filter of that key holds. *)
Definition calledIff (plug : Plugin) (key : string) (filter : Filter) (handler : Func)
    (event : CQEvent) (t : list effect) : Prop :=
  (handler, event) ∈ handlerCalls (Name plug) key t ↔ filter event = true.

(** [plug] is the last descriptor of [entries] that carries its name. *)
Definition lastNamed (entries : list Plugin) (plug : Plugin) : Prop :=
  ∃ before after,
    entries = before ++ plug :: after ∧ Name plug ∉ Name <$> after.

(** The entry that the wiring loop builds for [plug]: the filters that have a
    handler, the handlers that have a filter, and the closure over the
    handlers that have none, in the order in which [range] yields them. *)
Definition noFilterHandlers (plug : Plugin) : list Func :=
  (filter (λ kh, Filters plug !! kh.1 = None) (range R (Handlers plug))).*2.

Definition entryOf (plug : Plugin) : pluginEntry :=
  {| fitlers := filter (λ kf, is_Some (Handlers plug !! kf.1)) (Filters plug);
     handlers :=
       <[noFilterKey := NoFilterFunc (noFilterHandlers plug)]>
         (PluginFunc <$> filter (λ kh, is_Some (Filters plug !! kh.1)) (Handlers plug)) |}.

(** The warnings printed for the filters of [plug] that have no handler. *)
Definition warnings (plug : Plugin) : list effect :=
  (λ kf, Printf (unusedKeyWarning (Name plug) kf.1)) <$>
    filter (λ kf, Handlers plug !! kf.1 = None) (range R (Filters plug)).

(** The dispatch table after the wiring of [entries] on top of [table]. *)
Definition wired (entries : list Plugin) (table : gmap string pluginEntry) :
    gmap string pluginEntry :=
  foldl (λ table plug, <[Name plug := entryOf plug]> table) table entries.

(** An entry is complete when the router finds a function under every key
    it looks up. *)
Definition complete (entry : pluginEntry) : Prop :=
  is_Some (handlers entry !! noFilterKey) ∧
  ∀ key, is_Some (fitlers entry !! key) → is_Some (handlers entry !! key).

(** The effects of the calls made by the router on a complete entry. *)
Definition invokeTrace (pluginName key : string) (handleFunc : option Handler)
    (event : CQEvent) : list effect :=
  match handleFunc with
  | None => []
  | Some (PluginFunc fn) => [CallHandler pluginName key fn event]
  | Some (NoFilterFunc noFilterHanlers) =>
      CallNoFilter pluginName event ::
        ((λ fn, CallHandler pluginName key fn event) <$> noFilterHanlers)
  end.

Definition filterTrace (pluginName : string) (entry : pluginEntry) (event : CQEvent)
    (kf : string * Filter) : list effect :=
  CallFilter pluginName kf.1 event (kf.2 event) ::
    (if kf.2 event then invokeTrace pluginName kf.1 (handlers entry !! kf.1) event else []).

Definition entryTrace (event : CQEvent) (ne : string * pluginEntry) : list effect :=
  invokeTrace ne.1 noFilterKey (handlers ne.2 !! noFilterKey) event
    ++ (range R (fitlers ne.2) ≫= filterTrace ne.1 ne.2 event).

(** The key of [handlers] or [fitlers] that an effect was made for. *)
Definition keyOf (e : effect) : option string :=
  match e with
  | CallFilter _ k _ _ | CallHandler _ k _ _ => Some k
  | _ => None
  end.

(** The entry of [pluginEntries] that an effect was made for. *)
Definition pluginOf (e : effect) : option string :=
  match e with
  | CallFilter n _ _ _ | CallHandler n _ _ _ | CallNoFilter n _ => Some n
  | _ => None
  end.

(** Folding conditional insertions over the bindings of a map. *)
Definition insertWhen {V W} (g : string * V → option W)
    (m : gmap string W) (kv : string * V) : gmap string W :=
  if g kv is Some w then <[kv.1 := w]> m else m.

End Coolq.

Arguments Filter : clear implicits.
Arguments Handler : clear implicits.
Arguments pluginEntry : clear implicits.
Arguments Plugin : clear implicits.
Arguments cqclient : clear implicits.
Arguments effect : clear implicits.
Arguments process : clear implicits.
Arguments Go : clear implicits.
Arguments action : clear implicits.
Arguments timeoutText : simpl never.

(** ** A small instance, to run the model

    Events are their post type, handler functions are named by strings, and
    the decoders reject exactly the empty message. *)
Module Sample.
Definition decodeEvent (raw : bytes) : string + string :=
  match raw with
  | [] => inr "unexpected end of JSON input"
  | _ => inl (String.string_of_list_byte raw)
  end.

Definition decodeResponse (raw : bytes) : CQWSResponse + string :=
  match raw with
  | [] => inr "unexpected end of JSON input"
  | b :: _ => inl {| RespEcho := Z.of_N (Byte.to_N b) |}
  end.

Definition encode (m : CQWSMessage) : bytes :=
  String.list_byte_of_string (Action m +:+ ":" +:+ pretty (GroupID (Params m)) +:+ ":"
                       +:+ Message (Params m) +:+ ":" +:+ pretty (Echo m)).

Definition isJoinEvent : Filter string := λ event, bool_decide (event = "join").

(** Plugin A of the scenario: one filter, [join], paired with one handler. *)
Definition pluginA : Plugin string string :=
  {| Name := "A"; Load := None;
     Filters := {[ "join" := isJoinEvent ]};
     Handlers := {[ "join" := "welcomeUser" ]} |}.

(** Plugin B of the scenario: one handler, no filter. *)
Definition pluginB : Plugin string string :=
  {| Name := "B"; Load := None;
     Filters := ∅;
     Handlers := {[ "any" := "logEvent" ]} |}.

(** A plugin that binds the reserved key in both of its mappings. *)
Definition pluginReserved : Plugin string string :=
  {| Name := "R"; Load := None;
     Filters := {[ noFilterKey := isJoinEvent ]};
     Handlers := {[ noFilterKey := "welcomeUser"; "any" := "logEvent" ]} |}.

(** A second descriptor with the name of plugin A. *)
Definition pluginA' : Plugin string string :=
  {| Name := "A"; Load := None;
     Filters := ∅;
     Handlers := {[ "any" := "countEvent" ]} |}.

Definition joinMessage : bytes := String.list_byte_of_string "join".

Definition chatMessage : bytes := String.list_byte_of_string "chat".

(** A process whose queue holds the echo [100]. *)
Definition tracking : process string string :=
  {| Client := setEchoqueue (λ _, Some {[ 100 := true ]}) initialClient; trace := [] |}.

(** The client after the API connection came up. *)
Definition online : process string string :=
  runAll keyOrder decodeResponse decodeEvent encode [ApiConnected true] start.

(** The effects of routing [raw] after the registration of [entries]. *)
Definition routed (entries : list (Plugin string string)) (raw : bytes) :
    list (effect string string) :=
  effectsOf (eventOnMessage keyOrder decodeEvent raw)
    (registerAllPlugins keyOrder entries start).2.
End Sample.

(** ** Further readings of traces and of code *)

Section Readings.
Context {CQEvent Func : Type}.

(** The plugins whose [Loaded] hook was started, in order. *)
Definition loadedSpawns (t : list (effect CQEvent Func)) : list string :=
  omap (λ e, match e with GoLoaded n => Some n | _ => None end) t.

(** The texts written with [fmt.Printf]. *)
Definition printed (t : list (effect CQEvent Func)) : list string :=
  omap (λ e, match e with Printf s => Some s | _ => None end) t.

(** The effects made for the entry stored under [pluginName]. *)
Definition effectsFor (pluginName : string) (t : list (effect CQEvent Func)) :
    list (effect CQEvent Func) :=
  omap (λ e, if decide (pluginOf e = Some pluginName) then Some e else None) t.

(** Whether [mu] is held after [t], given whether it is held before. *)
Fixpoint heldAfter (held : bool) (t : list (effect CQEvent Func)) : bool :=
  match t with
  | [] => held
  | MuLock :: t => heldAfter true t
  | MuUnlock :: t => heldAfter false t
  | _ :: t => heldAfter held t
  end.

Definition isDelete (e : effect CQEvent Func) : bool :=
  match e with QueueDelete _ => true | _ => false end.

Definition isPrintln (e : effect CQEvent Func) : bool :=
  match e with Println _ => true | _ => false end.

Definition isInitialize (a : action CQEvent Func) : bool :=
  match a with DoInitialize _ => true | _ => false end.

(** Code that only adds effects satisfying [ok] to the trace. *)
Definition emitsOnly {A} (ok : effect CQEvent Func → bool) (m : Go CQEvent Func A) : Prop :=
  ∀ p, ∃ t, trace (m p).2 = trace p ++ t ∧ Forall (λ e, ok e = true) t.

(** Code that leaves the reading [proj] of the client as it is. *)
Definition keepsField {A B} (proj : cqclient CQEvent Func → B) (m : Go CQEvent Func A) : Prop :=
  ∀ p, proj (Client (m p).2) = proj (Client p).
End Readings.

(** ** The logger package: escaping *)

Definition CR : Ascii.ascii := Ascii.ascii_of_nat 13.

Definition LF : Ascii.ascii := Ascii.ascii_of_nat 10.

(** The characters [.] and [:]. *)
Definition dot : Ascii.ascii := Ascii.ascii_of_nat 46.

Definition colon : Ascii.ascii := Ascii.ascii_of_nat 58.

(** [regexp.ReplaceAllString] for a pattern that matches the one character
    [c], with a replacement [r] that holds no [$]. *)
Fixpoint replaceChar (c : Ascii.ascii) (r : string) (s : string) : string :=
  match s with
  | EmptyString => EmptyString
  | String x s' =>
      if Ascii.eqb x c then r +:+ replaceChar c r s'
      else String x (replaceChar c r s')
  end.

(** [escapeCRLF]: every carriage return becomes a backslash and an [r],
    then every line feed a backslash and an [n]. *)
Definition escapeCRLF (s : string) : string :=
  let s := replaceChar CR "\r" s in
  let s := replaceChar LF "\n" s in
  s.

(** The class [\d] of Go's regexp: the ASCII digits. *)
Definition isDigit (c : Ascii.ascii) : bool :=
  (48 <=? Ascii.nat_of_ascii c)%nat && (Ascii.nat_of_ascii c <=? 57)%nat.

(** The longest prefix of digits, and what follows it. *)
Fixpoint spanDigits (s : string) : string * string :=
  match s with
  | EmptyString => (EmptyString, EmptyString)
  | String c s' =>
      if isDigit c then let '(d, r) := spanDigits s' in (String c d, r)
      else (EmptyString, s)
  end.

(** [\d+] at the start of [s]: greedy, and not empty. *)
Definition digits1 (s : string) : option (string * string) :=
  match spanDigits s with
  | (EmptyString, _) => None
  | (d, r) => Some (d, r)
  end.

(** One given character at the start of [s]. *)
Definition char1 (c : Ascii.ascii) (s : string) : option string :=
  match s with
  | String x r => if Ascii.eqb x c then Some r else None
  | EmptyString => None
  end.

(** The optional group [(?:\:(\d+))?] at the start of [s]: its capture
    (empty when the group does not take part) and what follows. *)
Definition port (s : string) : string * string :=
  match char1 colon s with
  | Some r =>
      match digits1 r with
      | Some (g3, r') => (g3, r')
      | None => (EmptyString, s)
      end
  | None => (EmptyString, s)
  end.

(** A match of [(\d+)\.\d+\.\d+\.(\d+)(?:\:(\d+))?] at the start of [s]:
    the three captures and what follows the match.  Each [\d+] must be
    followed by a character that is not a digit, so the greedy choice is the
    only one that can succeed. *)
Definition matchHost (s : string) : option (string * string * string * string) :=
  '(g1, s) ← digits1 s;
  s ← char1 dot s;
  '(_, s) ← digits1 s;
  s ← char1 dot s;
  '(_, s) ← digits1 s;
  s ← char1 dot s;
  '(g2, s) ← digits1 s;
  let '(g3, s) := port s in
  Some (g1, g2, g3, s).

(** The template [$1.*.*.$2:$3]. *)
Definition hostTemplate (g1 g2 g3 : string) : string :=
  g1 +:+ ".*.*." +:+ g2 +:+ ":" +:+ g3.

(** [ReplaceAllString] for the host pattern: the leftmost match is replaced
    and the search goes on behind it; where no match starts the character is
    copied.  [fuel] bounds the number of steps. *)
Fixpoint escapeHostFrom (fuel : nat) (s : string) : string :=
  match fuel with
  | O => s
  | S fuel =>
      match s with
      | EmptyString => EmptyString
      | String c s' =>
          match matchHost s with
          | Some (g1, g2, g3, rest) => hostTemplate g1 g2 g3 +:+ escapeHostFrom fuel rest
          | None => String c (escapeHostFrom fuel s')
          end
      end
  end.

(** [escapeHost]; one step per character suffices. *)
Definition escapeHost (s : string) : string := escapeHostFrom (String.length s) s.

Fixpoint allDigits (s : string) : bool :=
  match s with
  | EmptyString => true
  | String c s' => isDigit c && allDigits s'
  end.

Fixpoint hasChar (c : Ascii.ascii) (s : string) : bool :=
  match s with
  | EmptyString => false
  | String x s' => Ascii.eqb x c || hasChar c s'
  end.

(** Whether [s] starts with a digit, and whether it starts with a port. *)
Definition startsWithDigit (s : string) : bool :=
  match s with String c _ => isDigit c | EmptyString => false end.

Definition startsWithPort (s : string) : bool :=
  match s with String c r => Ascii.eqb c colon && startsWithDigit r | EmptyString => false end.

(** ** The logger package: the service *)

(** [maxQueueSize], the capacity of the log channel. *)
Definition maxQueueSize : nat := 10.

(** The codes of the three log types. *)
Definition LogTypeInfo : Z := 0.

Definition LogTypeError : Z := 1.

Definition LogTypeSuccess : Z := 2.

(** [Log]; the field [Type] is called [Kind] here. *)
Record Log := { Time : Z; Kind : Z; Text : string }.

(** [NewLog]; [now] is [time.Now().Unix()]. *)
Definition NewLog (now : Z) (ltype : Z) (text : string) : Log :=
  {| Time := now; Kind := ltype; Text := text |}.

(** A [*logrus.Entry] of the service: the file its logger writes to, named
    by the path it was opened with ([None]: the default output). *)
Record Entry := { output : option string }.

(** A websocket connection, named by its address. *)
Definition Conn : Type := positive.

(** [loggerService].  A [nil] channel, map, file or entry is [None]; the
    buffer of [logChan] lists the queued logs, oldest first; an open file is
    named by its path.  The mutex [wscLock] is represented by its events.
    The counters are Go [int]s, taken as 64 bits wide. *)
Record loggerService := {
  conns : gomap Conn bool;
  success : Z;
  fails : Z;
  logsPath : string;
  logChan : option (list Log);
  logLT : string;
  fpSI : option string;
  fpE : option string;
  logS : option Entry;
  logI : option Entry;
  logE : option Entry
}.

(** What the environment answers during one call: the directory of the
    process, the date [time.Now().Format(logDateFormat)], and the errors of
    the file system calls ([None] for [nil]; for [os.Stat] the error comes
    with whether [os.IsNotExist] holds of it). *)
Record World := {
  pwd : string;
  today : string;
  openError : string → option string;
  closeError : string → option string;
  statError : string → option (string * bool);
  mkdirError : string → option string
}.

(** What the service does to the outside, in program order. *)
Inductive logEffect :=
| Console (kind : string) (line : string)
| FileLine (file : option string) (kind : string) (line : string)
| OpenFile (path : string)
| CloseFile (path : string)
| Mkdir (path : string)
| WscLock
| WscUnlock.

Record svc := { Service : loggerService; outputs : list logEffect }.

(** A call returns, ends the process ([logrus]'s [Fatal] calls
    [os.Exit(1)]), panics, or blocks for ever on the channel. *)
Inductive result (A : Type) :=
| Done (a : A)
| Fatal (code : Z)
| Panics (v : string)
| Blocks.
Arguments Done {A} a.
Arguments Fatal {A} code.
Arguments Panics {A} v.
Arguments Blocks {A}.

Definition Svc (A : Type) : Type := svc → result A * svc.

#[global] Instance Svc_ret : MRet Svc := λ A a s, (Done a, s).

#[global] Instance Svc_bind : MBind Svc := λ A B f m s,
  match m s with
  | (Done a, s') => f a s'
  | (Fatal code, s') => (Fatal code, s')
  | (Panics v, s') => (Panics v, s')
  | (Blocks, s') => (Blocks, s')
  end.

Definition say (e : logEffect) : Svc unit :=
  λ s, (Done (), {| Service := Service s; outputs := outputs s ++ [e] |}).

Definition getService : Svc loggerService := λ s, (Done (Service s), s).

Definition modifyService (f : loggerService → loggerService) : Svc unit :=
  λ s, (Done (), {| Service := f (Service s); outputs := outputs s |}).

Definition fatal (line : string) : Svc unit :=
  λ s, (Fatal 1, {| Service := Service s; outputs := outputs s ++ [Console "fatal" line] |}).

Definition panics (v : string) : Svc unit := λ s, (Panics v, s).

Definition blocks : Svc unit := λ s, (Blocks, s).

(** [defer cleanup] around [body]: [cleanup] runs when [body] returns and
    when it panics, not when the process ends or the goroutine blocks. *)
Definition deferring (cleanup : Svc unit) (body : Svc unit) : Svc unit :=
  λ s,
    match body s with
    | (Done (), s') => cleanup s'
    | (Panics v, s') =>
        match cleanup s' with
        | (Done (), s'') => (Panics v, s'')
        | other => other
        end
    | other => other
    end.

(** *** Field updates *)

Definition setConns (f : gomap Conn bool → gomap Conn bool) (l : loggerService) : loggerService :=
  {| conns := f (conns l); success := success l; fails := fails l; logsPath := logsPath l;
     logChan := logChan l; logLT := logLT l; fpSI := fpSI l; fpE := fpE l;
     logS := logS l; logI := logI l; logE := logE l |}.

Definition setSuccess (n : Z) (l : loggerService) : loggerService :=
  {| conns := conns l; success := n; fails := fails l; logsPath := logsPath l;
     logChan := logChan l; logLT := logLT l; fpSI := fpSI l; fpE := fpE l;
     logS := logS l; logI := logI l; logE := logE l |}.

Definition setFails (n : Z) (l : loggerService) : loggerService :=
  {| conns := conns l; success := success l; fails := n; logsPath := logsPath l;
     logChan := logChan l; logLT := logLT l; fpSI := fpSI l; fpE := fpE l;
     logS := logS l; logI := logI l; logE := logE l |}.

Definition setLogChan (c : option (list Log)) (l : loggerService) : loggerService :=
  {| conns := conns l; success := success l; fails := fails l; logsPath := logsPath l;
     logChan := c; logLT := logLT l; fpSI := fpSI l; fpE := fpE l;
     logS := logS l; logI := logI l; logE := logE l |}.

Definition setLogLT (n : string) (l : loggerService) : loggerService :=
  {| conns := conns l; success := success l; fails := fails l; logsPath := logsPath l;
     logChan := logChan l; logLT := n; fpSI := fpSI l; fpE := fpE l;
     logS := logS l; logI := logI l; logE := logE l |}.

Definition setFpSI (f : option string) (l : loggerService) : loggerService :=
  {| conns := conns l; success := success l; fails := fails l; logsPath := logsPath l;
     logChan := logChan l; logLT := logLT l; fpSI := f; fpE := fpE l;
     logS := logS l; logI := logI l; logE := logE l |}.

Definition setFpE (f : option string) (l : loggerService) : loggerService :=
  {| conns := conns l; success := success l; fails := fails l; logsPath := logsPath l;
     logChan := logChan l; logLT := logLT l; fpSI := fpSI l; fpE := f;
     logS := logS l; logI := logI l; logE := logE l |}.

Definition setLogS (e : option Entry) (l : loggerService) : loggerService :=
  {| conns := conns l; success := success l; fails := fails l; logsPath := logsPath l;
     logChan := logChan l; logLT := logLT l; fpSI := fpSI l; fpE := fpE l;
     logS := e; logI := logI l; logE := logE l |}.

Definition setLogI (e : option Entry) (l : loggerService) : loggerService :=
  {| conns := conns l; success := success l; fails := fails l; logsPath := logsPath l;
     logChan := logChan l; logLT := logLT l; fpSI := fpSI l; fpE := fpE l;
     logS := logS l; logI := e; logE := logE l |}.

Definition setLogE (e : option Entry) (l : loggerService) : loggerService :=
  {| conns := conns l; success := success l; fails := fails l; logsPath := logsPath l;
     logChan := logChan l; logLT := logLT l; fpSI := fpSI l; fpE := fpE l;
     logS := logS l; logI := logI l; logE := e |}.

(** [SetLogsPath] *)
Definition SetLogsPath (p : string) (l : loggerService) : loggerService :=
  {| conns := conns l; success := success l; fails := fails l; logsPath := p;
     logChan := logChan l; logLT := logLT l; fpSI := fpSI l; fpE := fpE l;
     logS := logS l; logI := logI l; logE := logE l |}.

(** [Service], the zero value of [loggerService]. *)
Definition zeroService : loggerService :=
  {| conns := None; success := 0; fails := 0; logsPath := ""; logChan := None;
     logLT := ""; fpSI := None; fpE := None; logS := None; logI := None; logE := None |}.

Section LoggerService.
(** [path.Join] *)
Context (pathJoin : string → string → string).

(** [LogsPath]; the error of [os.Getwd] is dropped. *)
Definition LogsPath (w : World) (l : loggerService) : string :=
  pathJoin (pwd w) (logsPath l).

(** [LogFile] *)
Definition LogFile (w : World) (l : loggerService) (scope : string) : string :=
  let date := today w in
  let filename := date +:+ ".log" in
  let filename :=
    if negb (String.length scope =? 0)%nat then date +:+ "-" +:+ scope +:+ ".log"
    else filename in
  pathJoin (LogsPath w l) filename.

Definition SuccessCnt (l : loggerService) : Z := success l.

Definition FailCnt (l : loggerService) : Z := fails l.

(** [entry.Logger.SetOutput(fp)] on an entry of the service; a [nil] entry
    is a [nil] pointer dereference. *)
Definition setOutput (get : loggerService → option Entry)
    (set : option Entry → loggerService → loggerService) (fp : string) : Svc unit :=
  l ← getService;
  match get l with
  | None => panics nilDereference
  | Some _ => modifyService (set (Some {| output := Some fp |}))
  end.

(** Opening a log file and closing the one it replaces, as [sLogFiles]
    does for each of its two files. *)
Definition reopen (w : World) (oldfp : option string) (path : string) : Svc unit :=
  say (OpenFile path) ;;
  match openError w path with
  | Some err => fatal err
  | None =>
      match oldfp with
      | Some old =>
          say (CloseFile old) ;;
          match closeError w old with
          | Some err => fatal err
          | None => mret ()
          end
      | None => mret ()
      end
  end.

(** [sLogFiles] *)
Definition sLogFiles (w : World) : Svc unit :=
  l ← getService;
  let logfileN := LogFile w l "" in
  if negb (String.eqb logfileN (logLT l)) then
    modifyService (setLogLT logfileN) ;;
    reopen w (fpSI l) logfileN ;;
    setOutput logS setLogS logfileN ;;
    setOutput logI setLogI logfileN ;;
    modifyService (setFpSI (Some logfileN)) ;;
    l ← getService;
    let errorfile := LogFile w l "error" in
    reopen w (fpE l) errorfile ;;
    setOutput logE setLogE errorfile ;;
    modifyService (setFpE (Some errorfile))
  else mret ().

(** [entry.Println(text)] on an entry of the service. *)
Definition entryPrintln (get : loggerService → option Entry) (kind text : string) : Svc unit :=
  l ← getService;
  match get l with
  | None => panics nilDereference
  | Some e => say (FileLine (output e) kind text)
  end.

(** [logger.logChan <- lg]: a [nil] channel and a full buffer block. *)
Definition send (lg : Log) : Svc unit :=
  l ← getService;
  match logChan l with
  | None => blocks
  | Some buffer =>
      if (length buffer <? maxQueueSize)%nat
      then modifyService (setLogChan (Some (buffer ++ [lg])))
      else blocks
  end.

(** [<-logger.logChan]: an empty buffer blocks. *)
Definition receive : Svc unit :=
  l ← getService;
  match logChan l with
  | Some (_ :: buffer) => modifyService (setLogChan (Some buffer))
  | _ => blocks
  end.

(** [len(logger.logChan)]; the length of a [nil] channel is 0. *)
Definition chanLen (l : loggerService) : nat :=
  match logChan l with Some buffer => length buffer | None => 0%nat end.

(** [Add]; the log it was given is returned as [Add] leaves it. *)
Definition Add (w : World) (lg : Log) : Svc Log :=
  sLogFiles w ;;
  let lg := {| Time := Time lg; Kind := Kind lg; Text := escapeHost (Text lg) |} in
  let logMsg := escapeCRLF (Text lg) in
  (if Kind lg =? LogTypeSuccess then
     l ← getService;
     modifyService (setSuccess (wrap64 (success l + 1))) ;;
     say (Console "success" logMsg) ;;
     entryPrintln logS "success" (Text lg)
   else if Kind lg =? LogTypeError then
     l ← getService;
     modifyService (setFails (wrap64 (fails l + 1))) ;;
     say (Console "error" logMsg) ;;
     entryPrintln logE "error" (Text lg)
   else
     say (Console "info" logMsg) ;;
     entryPrintln logI "info" (Text lg)) ;;
  send lg ;;
  l ← getService;
  (if (maxQueueSize <=? chanLen l)%nat then receive else mret ()) ;;
  mret lg.

(** [AddLog]; [now] is the time at which [NewLog] reads the clock. *)
Definition AddLog' (w : World) (now : Z) (ltype : Z) (text : string) : Svc Log :=
  Add w (NewLog now ltype text).

(** [Success], [Info] and [Error] of the service. *)
Definition Success (w : World) (now : Z) (text : string) : Svc Log :=
  AddLog' w now LogTypeSuccess text.

Definition Info (w : World) (now : Z) (text : string) : Svc Log :=
  AddLog' w now LogTypeInfo text.

Definition Error (w : World) (now : Z) (text : string) : Svc Log :=
  AddLog' w now LogTypeError text.

(** [Success], [Info] and [Error] of [loggerWithField]: the service's
    formatting variant with the format ["%s: %s"]. *)
Definition fieldText (field text : string) : string := field +:+ ": " +:+ text.

Definition FieldSuccess (w : World) (now : Z) (field text : string) : Svc Log :=
  AddLog' w now LogTypeSuccess (fieldText field text).

Definition FieldInfo (w : World) (now : Z) (field text : string) : Svc Log :=
  AddLog' w now LogTypeInfo (fieldText field text).

Definition FieldError (w : World) (now : Z) (field text : string) : Svc Log :=
  AddLog' w now LogTypeError (fieldText field text).

(** [setConn] and [delConn]; a store into a [nil] map panics. *)
Definition setConn (conn : Conn) (state : bool) : Svc unit :=
  say WscLock ;;
  deferring (say WscUnlock)
    (l ← getService;
     match conns l with
     | None => panics "assignment to entry in nil map"
     | Some m => modifyService (setConns (λ _, Some (<[conn := state]> m)))
     end).

Definition delConn (conn : Conn) : Svc unit :=
  say WscLock ;;
  deferring (say WscUnlock) (modifyService (setConns (gomap_delete conn))).

(** [Initialize] of the service. *)
Definition InitializeService (w : World) : Svc unit :=
  l ← getService;
  (if String.eqb (logsPath l) "" then
     fatal "LogsPath not set please use logger.Default.SetLogsPath func set it."
   else mret ()) ;;
  let logspath := LogsPath w l in
  say (Console "info" ("LogsPath = " +:+ logspath)) ;;
  match statError w logspath with
  | Some (_, true) =>
      say (Console "info" "LogsPath is not existed.") ;;
      say (Mkdir logspath) ;;
      match mkdirError w logspath with
      | Some err => fatal ("Logger" +:+ err)
      | None => say (Console "info" "LogsPath created successfully.")
      end
  | _ => mret ()
  end ;;
  modifyService (setConns (λ _, Some ∅)) ;;
  modifyService (setLogChan (Some [])) ;;
  modifyService (setLogS (Some {| output := None |})) ;;
  modifyService (setLogI (Some {| output := None |})) ;;
  modifyService (setLogE (Some {| output := None |})) ;;
  sLogFiles w.

(** The service as the program starts it. *)
Definition startService : svc := {| Service := zeroService; outputs := [] |}.

(** *** Reading the service *)

(** The service [s] after the outputs [t]. *)
Definition extendSvc (s : svc) (t : list logEffect) : svc :=
  {| Service := Service s; outputs := outputs s ++ t |}.

(** The outputs that [m] adds when run from [s]. *)
Definition outputsOf {A} (m : Svc A) (s : svc) : list logEffect :=
  drop (length (outputs s)) (outputs (m s).2).

Definition isFileOp (e : logEffect) : bool :=
  match e with OpenFile _ | CloseFile _ | Mkdir _ => true | _ => false end.

(** The service is ready: its channel and its three entries are allocated
    and the channel has room for one more log. *)
Definition ready (l : loggerService) : Prop :=
  is_Some (logS l) ∧ is_Some (logI l) ∧ is_Some (logE l) ∧
  ∃ buffer, logChan l = Some buffer ∧ (length buffer < maxQueueSize)%nat.

(** The log files of the current day are the ones in use. *)
Definition upToDate (w : World) (l : loggerService) : Prop :=
  logLT l = LogFile w l "".
End LoggerService.

(** ** Readings of the service over several calls *)

(** The world never refuses to open or to close a file. *)
Definition noFileErrors (w : World) : Prop :=
  ∀ path, openError w path = None ∧ closeError w path = None.

(** The last [n] elements of a list. *)
Definition lastN {A} (n : nat) (l : list A) : list A := drop (length l - n) l.

(** A log as [Add] queues it. *)
Definition queued (lg : Log) : Log :=
  {| Time := Time lg; Kind := Kind lg; Text := escapeHost (Text lg) |}.

(** The number of logs of kind [k] in a list. *)
Definition countKind (k : Z) (lgs : list Log) : Z :=
  Z.of_nat (length (filter (λ lg, Kind lg = k) lgs)).

Section ServiceRuns.
Context (pathJoin : string → string → string).

(** The service after [Add] was called for each log of [lgs] in turn. *)
Definition addAll (w : World) (lgs : list Log) (s : svc) : svc :=
  foldl (λ s lg, (Add pathJoin w lg s).2) s lgs.
End ServiceRuns.

(** ** The main package: the console mode *)

Section ConsoleMode.
(** The console mode flags of [golang.org/x/sys/windows]. *)
Context (ENABLE_QUICK_EDIT_MODE ENABLE_INSERT_MODE ENABLE_MOUSE_INPUT : Z).
Context (ENABLE_EXTENDED_FLAGS ENABLE_WINDOW_INPUT ENABLE_AUTO_POSITION : Z).

(** What [initStdios] does to the console: it sets a mode or prints a
    failure. *)
Inductive consoleEffect :=
| SetConsoleMode (mode : Z)
| PrintFailure (err : string).

(** The mode that [initStdios] computes; [&^=] clears bits, [|=] sets them. *)
Definition consoleMode : Z :=
  let mode := 0 in
  let mode := Z.ldiff mode ENABLE_QUICK_EDIT_MODE in
  let mode := Z.ldiff mode ENABLE_INSERT_MODE in
  let mode := Z.ldiff mode ENABLE_MOUSE_INPUT in
  let mode := Z.ldiff mode ENABLE_EXTENDED_FLAGS in
  let mode := Z.lor mode ENABLE_WINDOW_INPUT in
  let mode := Z.lor mode ENABLE_AUTO_POSITION in
  mode.

(** [initStdios]: [current] is what [windows.GetConsoleMode] answers, the
    mode of the console or an error; the result is the new [bot.inMode] and
    what was done.  On success [GetConsoleMode] has stored the current mode
    in [bot.inMode] before the new one is assigned. *)
Definition initStdios (inMode : Z) (current : Z + string) : Z * list consoleEffect :=
  match current with
  | inl currentMode =>
      let inMode := currentMode in
      let inMode := consoleMode in
      (inMode, [SetConsoleMode inMode])
  | inr err => (inMode, [PrintFailure err])
  end.
End ConsoleMode.

(** ** Readings of the service's files *)

(** The name under which [Add] prints a log of type [k]: the [switch] of
    [Add] sends every type other than success and error to the info case. *)
Definition kindOf (k : Z) : string :=
  if k =? LogTypeSuccess then "success"
  else if k =? LogTypeError then "error"
  else "info".

Section ServiceFiles.
Context (pathJoin : string → string → string).

(** The file that takes the logs of type [k]. *)
Definition fileOf (w : World) (l : loggerService) (k : Z) : string :=
  if k =? LogTypeError then LogFile pathJoin w l "error" else LogFile pathJoin w l "".

(** The files of the current day are open and the three entries write to
    them: success and info logs to the file of the day, error logs to the
    error file of the day. *)
Definition inUse (w : World) (l : loggerService) : Prop :=
  logLT l = LogFile pathJoin w l "" ∧
  fpSI l = Some (LogFile pathJoin w l "") ∧
  fpE l = Some (LogFile pathJoin w l "error") ∧
  logS l = Some {| output := Some (LogFile pathJoin w l "") |} ∧
  logI l = Some {| output := Some (LogFile pathJoin w l "") |} ∧
  logE l = Some {| output := Some (LogFile pathJoin w l "error") |}.

(** The channel is allocated and has room for one more log. *)
Definition hasRoom (l : loggerService) : Prop :=
  ∃ buffer, logChan l = Some buffer ∧ (length buffer < maxQueueSize)%nat.

(** None of the three entries is allocated, as before [Initialize]. *)
Definition unallocated (l : loggerService) : Prop :=
  logS l = None ∧ logI l = None ∧ logE l = None.
End ServiceFiles.

(** The result of a call, without the value it returns. *)
Definition ending {A} (r : result A) : result unit :=
  match r with
  | Done _ => Done ()
  | Fatal code => Fatal code
  | Panics v => Panics v
  | Blocks => Blocks
  end.


(** What [sLogFiles] does to the file [fp] that it replaces. *)
Definition closing (fp : option string) : list logEffect :=
  match fp with Some old => [CloseFile old] | None => [] end.

(** The service after [sLogFiles] has changed to the files [f] and [fE]. *)
Definition rotated (f fE : string) (l : loggerService) : loggerService :=
  {| conns := conns l; success := success l; fails := fails l; logsPath := logsPath l;
     logChan := logChan l; logLT := f; fpSI := Some f; fpE := Some fE;
     logS := Some {| output := Some f |}; logI := Some {| output := Some f |};
     logE := Some {| output := Some fE |} |}.


(** What [Initialize] does about the directory [logspath]. *)
Definition making (w : World) (logspath : string) : list logEffect :=
  match statError w logspath with
  | Some (_, true) =>
      [Console "info" "LogsPath is not existed."; Mkdir logspath;
       Console "info" "LogsPath created successfully."]
  | _ => []
  end.

(** The service with the pool, the channel and the entries that
    [Initialize] allocates. *)
Definition allocated (l : loggerService) : loggerService :=
  {| conns := Some ∅; success := success l; fails := fails l; logsPath := logsPath l;
     logChan := Some []; logLT := logLT l; fpSI := fpSI l; fpE := fpE l;
     logS := Some {| output := None |}; logI := Some {| output := None |};
     logE := Some {| output := None |} |}.


(** ** The client linked with the logger and with its plugins

    The definitions of the client above record a call of
    [logger.Service.AddLog] and a call of a function of a plugin as an
    effect, and go on.  Here the calls are made: [AddLog] runs the code of
    the logger on the state of [logger.Service], and a function of a plugin
    does what the plugins make it do, which can be a panic or the end of the
    process; a function value of a plugin can be [nil]. *)

(** The state of the program: the client with the effects it made, and
    [logger.Service] with its outputs. *)
Record machine (CQEvent Func : Type) := {
  Proc : process CQEvent Func;
  LogService : svc
}.
Arguments Proc {CQEvent Func} _.
Arguments LogService {CQEvent Func} _.

Module Linked.
Section Linked.
Context {CQEvent Func : Type}.
Context (R : RangeOrder).
Context (unmarshalResponse : bytes → CQWSResponse + string).
Context (unmarshalEvent : bytes → CQEvent + string).
Context (pathJoin : string → string → string).

(** [isNil fn]: the value [fn] of type [Handler] that a plugin supplies is
    [nil]. *)
Context (isNil : Func → bool).

(** What the plugins do: [plugins t e] is the result of the call [e] of a
    filter or of a handler, made after the effects [t]. *)
Context (plugins : list (effect CQEvent Func) → effect CQEvent Func → result unit).

(** *** Plugin registration *)

(** One turn of the loop over [pluginFilters]: [pluginHandlers[key]] is
    [nil] when the key is missing and when it is bound to [nil]; in both cases
    the key is reported and skipped. *)
Definition bindFilter (pluginName : string) (pluginHandlers : gmap string Func)
    (acc : gmap string bool * pluginEntry CQEvent Func) (kf : string * Filter CQEvent) :
    Go CQEvent Func (gmap string bool * pluginEntry CQEvent Func) :=
  let '(hasFilter, entry) := acc in
  let '(key, filter) := kf in
  match pluginHandlers !! key with
  | Some handler =>
      if isNil handler then
        emit (Printf (unusedKeyWarning pluginName key)) ;;
        mret (hasFilter, entry)
      else
        mret (<[key := true]> hasFilter,
              {| fitlers := <[key := filter]> (fitlers entry);
                 handlers := <[key := PluginFunc handler]> (handlers entry) |})
  | None =>
      emit (Printf (unusedKeyWarning pluginName key)) ;;
      mret (hasFilter, entry)
  end.

Definition bindFilters (pluginName : string) (pluginFilters : gmap string (Filter CQEvent))
    (pluginHandlers : gmap string Func) :
    Go CQEvent Func (gmap string bool * pluginEntry CQEvent Func) :=
  foldGo (bindFilter pluginName pluginHandlers) (∅, emptyEntry) (range R pluginFilters).

(** One turn of the wiring loop; the loop over [pluginHandlers] appends
    every handler whose key is not marked, a [nil] one too. *)
Definition wirePlugin (plug : Plugin CQEvent Func) : Go CQEvent Func unit :=
  let pluginName := Name plug in
  let pluginFilters := Filters plug in
  let pluginHandlers := Handlers plug in
  '(hasFilter, entry) ← bindFilters pluginName pluginFilters pluginHandlers;
  let noFilterHanlers := collectNoFilter R hasFilter pluginHandlers in
  let entry :=
    {| fitlers := fitlers entry;
       handlers := <[noFilterKey := NoFilterFunc noFilterHanlers]> (handlers entry) |} in
  modifyClient (setPluginEntries (<[pluginName := entry]>)).

(** [registerAllPlugins] calls neither the logger nor a filter or a handler. *)
Definition registerAllPlugins (entries : list (Plugin CQEvent Func)) : Go CQEvent Func unit :=
  loadPlugins entries ;;
  forEach entries wirePlugin ;;
  forEach entries (λ plug, emit (GoLoaded (Name plug))).

(** *** The monad of the linked code *)

Definition Run (A : Type) : Type := machine CQEvent Func → result A * machine CQEvent Func.

#[global] Instance Run_ret : MRet Run := λ A a s, (Done a, s).

#[global] Instance Run_bind : MBind Run := λ A B f m s,
  match m s with
  | (Done a, s') => f a s'
  | (Fatal code, s') => (Fatal code, s')
  | (Panics v, s') => (Panics v, s')
  | (Blocks, s') => (Blocks, s')
  end.

Definition ofOutcome {A} (o : outcome A) : result A :=
  match o with
  | Returned a => Done a
  | Panicked v => Panics v
  | Exited code => Fatal code
  end.

(** Code of the client that calls neither the logger nor a plugin. *)
Definition client {A} (m : Go CQEvent Func A) : Run A :=
  λ s, let '(o, p) := m (Proc s) in
       (ofOutcome o, {| Proc := p; LogService := LogService s |}).

(** Code of the logger, on [logger.Service]. *)
Definition service {A} (m : Svc A) : Run A :=
  λ s, let '(r, l) := m (LogService s) in
       (r, {| Proc := Proc s; LogService := l |}).

Fixpoint each {A} (l : list A) (body : A → Run unit) : Run unit :=
  match l with
  | [] => mret ()
  | x :: l => body x ;; each l body
  end.

(** *** Calls out of the client *)

(** [logger.Service.AddLog(ltype, text)]: the call is recorded among the
    effects of the client, and the code of [AddLog] runs; [w] is what the
    environment answers during the call and [now] what the clock shows. *)
Definition addLog (w : World) (now : Z) (ltype : logger.LogType) (text : string) : Run unit :=
  client (emit (AddLog ltype text)) ;;
  service (AddLog' pathJoin w now (logger.code ltype) text) ;;
  mret ().

(** The call [e] of a function of a plugin: it is recorded, and its result
    is the one the plugins give it. *)
Definition call (e : effect CQEvent Func) : Run unit :=
  λ s, (plugins (trace (Proc s)) e,
        {| Proc := extend (Proc s) [e]; LogService := LogService s |}).

(** The call [fn(event)] of a handler; a call through [nil] panics. *)
Definition callHandler (pluginName key : string) (fn : Func) (event : CQEvent) : Run unit :=
  if isNil fn then client (panic nilDereference)
  else call (CallHandler pluginName key fn event).

(** *** Connection callbacks: connect and error *)

Definition handleConnect (w : World) (now : Z) (conn : clients.WSClient) : Run unit :=
  if clients.IsConnected conn then
    let msgText := clients.Name conn +:+ "服务已成功连接！" in
    client (emit (Println msgText)) ;;
    addLog w now logger.LogTypeInfo msgText
  else mret ().

Definition handleError (w : World) (now : Z) (err : string) : Run unit :=
  let msgText := err in
  let errMsg := NewLog now (logger.code logger.LogTypeError) msgText in
  client (emit (AddLog logger.LogTypeError msgText)) ;;
  service (Add pathJoin w errMsg) ;;
  mret ().

(** *** The event router *)

(** The call [entry.handlers[key](event)]: a missing map entry yields [nil];
    the closure calls the captured handlers in slice order. *)
Definition invoke (pluginName key : string) (handleFunc : option (Handler Func))
    (event : CQEvent) : Run unit :=
  match handleFunc with
  | None => client (panic nilDereference)
  | Some (PluginFunc fn) => callHandler pluginName key fn event
  | Some (NoFilterFunc noFilterHanlers) =>
      client (emit (CallNoFilter pluginName event)) ;;
      each noFilterHanlers (λ hanldeFunc, callHandler pluginName key hanldeFunc event)
  end.

(** The call [filterFunc(event)]: [filterFunc event] is the answer of the
    filter when it returns; a [nil] filter is one whose call panics. *)
Definition callFilter (pluginName key : string) (filterFunc : Filter CQEvent)
    (event : CQEvent) : Run bool :=
  let ok := filterFunc event in
  call (CallFilter pluginName key event ok) ;; mret ok.

(** One turn of the inner loop of the event callback. *)
Definition routeFilter (pluginName : string) (entry : pluginEntry CQEvent Func)
    (event : CQEvent) (key : string) (filterFunc : Filter CQEvent) : Run unit :=
  let handleFunc := handlers entry !! key in
  ok ← callFilter pluginName key filterFunc event;
  if ok : bool then invoke pluginName key handleFunc event else mret ().

(** One turn of the outer loop of the event callback. *)
Definition routeEntry (event : CQEvent) (pluginName : string)
    (entry : pluginEntry CQEvent Func) : Run unit :=
  invoke pluginName noFilterKey (handlers entry !! noFilterKey) event ;;
  each (range R (fitlers entry)) (λ '(key, filterFunc),
    routeFilter pluginName entry event key filterFunc).

(** [c.eventConn.OnMessage] *)
Definition eventOnMessage (w : World) (now : Z) (raw : bytes) : Run unit :=
  match unmarshalEvent raw with
  | inr errMsg =>
      client (Panicln errMsg) ;;
      addLog w now logger.LogTypeError errMsg ;;
      mret ()
  | inl event =>
      c ← client getClient;
      each (range R (pluginEntries c)) (λ '(pluginName, entry),
        routeEntry event pluginName entry)
  end.

(** *** Acknowledgements and the sweep *)

(** [c.apiConn.OnMessage] *)
Definition apiOnMessage (w : World) (now : Z) (raw : bytes) : Run unit :=
  match unmarshalResponse raw with
  | inr err => addLog w now logger.LogTypeError err
  | inl msg =>
      let echo := RespEcho msg in
      present ← client (queueLoad echo);
      if present : bool then
        client (emit MuLock) ;; client (queueDelete echo) ;; client (emit MuUnlock)
      else mret ()
  end.

(** The body run at each tick of the ticker; [now] is [time.Now().Unix()]. *)
Definition sweep (w : World) (now : Z) : Run unit :=
  queue ← client (queueRange R);
  each queue (λ '(echo, state),
    if (state : bool) && bool_decide (sub64 now echo > timeForWait) then
      addLog w now logger.LogTypeError (timeoutText echo) ;;
      client (emit MuLock) ;; client (queueDelete echo) ;; client (emit MuUnlock)
    else mret ()).


(** *** Reading linked runs *)

(** The state [s] after the effects [t] of the client. *)
Definition after (s : machine CQEvent Func) (t : list (effect CQEvent Func)) :
    machine CQEvent Func :=
  {| Proc := extend (Proc s) t; LogService := LogService s |}.

(** The effects that [m] adds to those of the client when run from [s]. *)
Definition made {A} (m : Run A) (s : machine CQEvent Func) : list (effect CQEvent Func) :=
  drop (length (trace (Proc s))) (trace (Proc (m s).2)).

(** The event that a call of a plugin function is given. *)
Definition eventOf (e : effect CQEvent Func) : option CQEvent :=
  match e with
  | CallFilter _ _ event _ | CallHandler _ _ _ event => Some event
  | _ => None
  end.

(** Every call of a filter or a handler on [event] returns. *)
Definition returnOn (event : CQEvent) : Prop :=
  ∀ t e, eventOf e = Some event → plugins t e = Done ().

(** No handler that [plug] supplies is [nil]. *)
Definition suppliesFunctions (plug : Plugin CQEvent Func) : Prop :=
  ∀ key fn, Handlers plug !! key = Some fn → isNil fn = false.

(** No function that the router finds in [entry] is [nil]. *)
Definition holdsFunctions (entry : pluginEntry CQEvent Func) : Prop :=
  ∀ key h, handlers entry !! key = Some h →
    match h with
    | PluginFunc fn => isNil fn = false
    | NoFilterFunc noFilterHanlers => Forall (λ fn, isNil fn = false) noFilterHanlers
    end.

(** The logger was initialised: its entries are allocated and its channel
    has room. *)
Definition loggerReady (s : machine CQEvent Func) : Prop :=
  ready (Service (LogService s)).
End Linked.
End Linked.

(** ** Further sample instances *)

Module Cases.
(** A plugin whose load hook fails. *)
Definition pluginFailing : Plugin string string :=
  {| Name := "F"; Load := Some "cannot load";
     Filters := ∅;
     Handlers := {[ "any" := "logEvent" ]} |}.

(** A plugin with a filter under a key that has no handler. *)
Definition pluginDead : Plugin string string :=
  {| Name := "D"; Load := None;
     Filters := {[ "never" := Sample.isJoinEvent ]};
     Handlers := {[ "any" := "logEvent" ]} |}.

(** A plugin without filters and handlers. *)
Definition pluginEmpty : Plugin string string :=
  {| Name := "E"; Load := None; Filters := ∅; Handlers := ∅ |}.

(** A queue with two echoes that wait for their acknowledgement and one
    that is stored with the value false. *)
Definition waiting : gmap Z bool := {[ 50 := false; 100 := true; 120 := true ]}.

Definition tracking3 : process string string :=
  {| Client := setEchoqueue (λ _, Some waiting) initialClient; trace := [] |}.

(** A queue with the earliest echo that [int64] holds. *)
Definition earliest : gmap Z bool := {[ - 2 ^ 63 := true ]}.

Definition ancient : process string string :=
  {| Client := setEchoqueue (λ _, Some earliest) initialClient; trace := [] |}.

(** The acknowledgement of the echo [100]. *)
Definition ack100 : bytes := [Byte.x64].

(** [path.Join] on two clean parts: an empty part is left out. *)
Definition joinPath (dir file : string) : string :=
  match dir, file with
  | EmptyString, _ => file
  | _, EmptyString => dir
  | _, _ => dir +:+ "/" +:+ file
  end.

(** Two days in a world without file errors; on the first the logs
    directory is missing, on the second it exists. *)
Definition day1 : World :=
  {| pwd := "/srv/haruno"; today := "2019-03-01";
     openError := λ _, None; closeError := λ _, None;
     statError := λ _, Some ("no such file or directory", true);
     mkdirError := λ _, None |}.

Definition day2 : World :=
  {| pwd := "/srv/haruno"; today := "2019-03-02";
     openError := λ _, None; closeError := λ _, None;
     statError := λ _, None; mkdirError := λ _, None |}.

(** The service as [main] sets it up: the logs path, then [Initialize]. *)
Definition configured : svc :=
  {| Service := SetLogsPath "logs" zeroService; outputs := [] |}.

Definition running : svc := (InitializeService joinPath day1 configured).2.

(** A log of type error that names a host. *)
Definition refused : Log := NewLog 5 LogTypeError "dial 127.0.0.1:6700 refused".

(** Handler functions are named by strings; the empty name is the [nil]
    function. *)
Definition unnamed (fn : string) : bool := bool_decide (fn = "").

(** Plugins whose functions all return, and plugins whose handler [crash]
    panics. *)
Definition obliging (t : list (effect string string)) (e : effect string string) :
    result unit := Done ().

Definition crashing (t : list (effect string string)) (e : effect string string) :
    result unit :=
  match e with
  | CallHandler _ _ fn _ => if bool_decide (fn = "crash") then Panics "boom" else Done ()
  | _ => Done ()
  end.

(** A plugin that binds the key [a] to [nil] and the key [b] to a handler. *)
Definition pluginNil : Plugin string string :=
  {| Name := "N"; Load := None;
     Filters := ∅;
     Handlers := {[ "a" := ""; "b" := "logEvent" ]} |}.

(** A plugin whose handler panics, and a plugin that is routed after it. *)
Definition pluginCrash : Plugin string string :=
  {| Name := "C"; Load := None;
     Filters := ∅;
     Handlers := {[ "any" := "crash" ]} |}.

Definition pluginLate : Plugin string string :=
  {| Name := "Z"; Load := None;
     Filters := {[ "join" := Sample.isJoinEvent ]};
     Handlers := {[ "join" := "welcomeUser"; "any" := "logEvent" ]} |}.

(** The twelve logs below: info, error and success in turn. *)
Definition twelve : list Log :=
  (λ n, NewLog (Z.of_nat n) (Z.of_nat n `mod` 3) ("log " +:+ pretty n)) <$> seq 0 12.

(** The program after [main] has initialised the logger, and the program
    whose logger was not initialised. *)
Definition warm : machine string string :=
  {| Proc := start; LogService := running |}.

Definition cold : machine string string :=
  {| Proc := start; LogService := startService |}.

(** The same with the three echoes in the queue. *)
Definition warmTracking : machine string string :=
  {| Proc := tracking3; LogService := running |}.

Definition coldTracking : machine string string :=
  {| Proc := tracking3; LogService := startService |}.

End Cases.


(** ** Properties *)

Section Properties.
Context {CQEvent Func : Type}.
Context (R : RangeOrder).
Context (unmarshalResponse : bytes → CQWSResponse + string).
Context (unmarshalEvent : bytes → CQEvent + string).
Context (marshal : CQWSMessage → bytes).

Implicit Types p : process CQEvent Func.
Implicit Types t : list (effect CQEvent Func).
Implicit Types plug : Plugin CQEvent Func.
Implicit Types entry : pluginEntry CQEvent Func.
Implicit Types event : CQEvent.

(** *** Running monadic code *)

(** Running straight-line code: unfold the primitives and compute. *)
Ltac go_run :=
  unfold mbind, mret, Go_bind, Go_ret, emit, queueDelete, queueLoad, queueRange,
    getClient, modifyClient, panic, exit, extend, effectsOf;
  simpl.

Lemma extend_nil p : extend p [] = p.
Proof. destruct p; unfold extend; simpl. by rewrite app_nil_r. Qed.

Lemma extend_extend p t1 t2 : extend (extend p t1) t2 = extend p (t1 ++ t2).
Proof. unfold extend; simpl. by rewrite app_assoc. Qed.

Lemma bind_returned {A B} (m : Go CQEvent Func A) (f : A → Go CQEvent Func B) p a p' :
  m p = (Returned a, p') → (m ≫= f) p = f a p'.
Proof. intros Hm. unfold mbind, Go_bind. by rewrite Hm. Qed.

Lemma bind_panicked {A B} (m : Go CQEvent Func A) (f : A → Go CQEvent Func B) p v p' :
  m p = (Panicked v, p') → (m ≫= f) p = (Panicked v, p').
Proof. intros Hm. unfold mbind, Go_bind. by rewrite Hm. Qed.

Lemma bind_exited {A B} (m : Go CQEvent Func A) (f : A → Go CQEvent Func B) p code p' :
  m p = (Exited code, p') → (m ≫= f) p = (Exited code, p').
Proof. intros Hm. unfold mbind, Go_bind. by rewrite Hm. Qed.

Lemma emit_returned (e : effect CQEvent Func) p : emit e p = (Returned (), extend p [e]).
Proof. reflexivity. Qed.

Lemma forEach_returned {A} (l : list A) (body : A → Go CQEvent Func ())
    (tr : A → list (effect CQEvent Func)) :
  (∀ x p, x ∈ l → body x p = (Returned (), extend p (tr x))) →
  ∀ p, forEach l body p = (Returned (), extend p (l ≫= tr)).
Proof.
  induction l as [|x l IH]; intros Hbody p; simpl.
  - by rewrite extend_nil.
  - erewrite bind_returned; last by apply Hbody; left.
    rewrite IH; last by intros; apply Hbody; right.
    by rewrite extend_extend.
Qed.

Lemma forEach_emit {A} (l : list A) (e : A → effect CQEvent Func) p :
  forEach l (λ x, emit (e x)) p = (Returned (), extend p (e <$> l)).
Proof.
  rewrite (forEach_returned l _ (λ x, [e x])); last done.
  replace (l ≫= λ x, [e x]) with (e <$> l); first done.
  induction l as [|x l IH]; csimpl; [done|by rewrite IH].
Qed.

(** *** The wiring of one plugin *)

Lemma elem_of_range `{Countable K} {V} (m : gmap K V) k v :
  (k, v) ∈ range R m ↔ m !! k = Some v.
Proof. by rewrite (range_perm R), elem_of_map_to_list. Qed.

Lemma NoDup_range `{Countable K} {V} (m : gmap K V) : NoDup (range R m).*1.
Proof. rewrite (range_perm R). apply NoDup_fst_map_to_list. Qed.

Lemma foldl_insertWhen_lookup {V W} (g : string * V → option W)
    (l : list (string * V)) (m : gmap string W) k :
  NoDup l.*1 →
  foldl (insertWhen g) m l !! k =
    match (list_to_map l : gmap string V) !! k with
    | Some v => if g (k, v) is Some w then Some w else m !! k
    | None => m !! k
    end.
Proof.
  revert m. induction l as [|[k' v'] l IH]; intros m Hnd; simpl.
  - by rewrite lookup_empty.
  - apply NoDup_cons in Hnd as [Hk' Hnd]. rewrite IH by done.
    destruct (decide (k = k')) as [->|Hne].
    + rewrite lookup_insert_eq.
      rewrite (not_elem_of_list_to_map_1 _ k') by done.
      unfold insertWhen; simpl. destruct (g (k', v')); [apply lookup_insert_eq|done].
    + rewrite lookup_insert_ne by done.
      assert (insertWhen g m (k', v') !! k = m !! k) as ->; last done.
      unfold insertWhen; simpl. destruct (g (k', v')); [by rewrite lookup_insert_ne|done].
Qed.

Lemma foldl_insertWhen_range {V W} (g : string * V → option W) (F : gmap string V) k :
  foldl (insertWhen g) ∅ (range R F) !! k = F !! k ≫= λ v, g (k, v).
Proof.
  rewrite foldl_insertWhen_lookup by apply NoDup_range.
  rewrite <-(list_to_map_flip F (range R F)) by (symmetry; apply range_perm).
  destruct (F !! k) as [v|]; simpl; last by rewrite lookup_empty.
  destruct (g (k, v)); [done|by rewrite lookup_empty].
Qed.

Lemma bindFilters_returned (pluginName : string) (H : gmap string Func)
    (l : list (string * Filter CQEvent)) (hasFilter : gmap string bool) entry p :
  foldGo (bindFilter pluginName H) (hasFilter, entry) l p
  = (Returned
       (foldl (insertWhen (λ kf, (λ _, true) <$> H !! kf.1)) hasFilter l,
        {| fitlers := foldl (insertWhen (λ kf, (λ _, kf.2) <$> H !! kf.1)) (fitlers entry) l;
           handlers := foldl (insertWhen (λ kf, PluginFunc <$> H !! kf.1)) (handlers entry) l |}),
     extend p ((λ kf : string * Filter CQEvent, Printf (unusedKeyWarning pluginName kf.1)) <$>
                 filter (λ kf, H !! kf.1 = None) l)).
Proof.
  revert hasFilter entry p.
  induction l as [|[key f] l IH]; intros hasFilter entry p; simpl.
  - rewrite extend_nil. by destruct entry.
  - unfold insertWhen at 2 4 6; simpl.
    destruct (H !! key) as [h|] eqn:Hkey; simpl.
    + erewrite bind_returned; last done.
      rewrite IH. do 2 f_equal.
      rewrite filter_cons_False; first done.
      simpl. by rewrite Hkey.
    + erewrite bind_returned;
        last (erewrite bind_returned; [reflexivity|apply emit_returned]).
      rewrite IH, extend_extend. do 2 f_equal.
      rewrite filter_cons_True; first done.
      done.
Qed.

Lemma boundFilters_eq (F : gmap string (Filter CQEvent)) (H : gmap string Func) :
  foldl (insertWhen (λ kf, (λ _, kf.2) <$> H !! kf.1)) ∅ (range R F)
  = filter (λ kf, is_Some (H !! kf.1)) F.
Proof.
  apply map_eq; intros k. rewrite foldl_insertWhen_range. simpl.
  destruct (F !! k) as [f|] eqn:HF; simpl.
  - destruct (H !! k) as [h|] eqn:HH; simpl; symmetry.
    + apply map_lookup_filter_Some. simpl. rewrite HH. eauto.
    + apply map_lookup_filter_None. right. intros f' _. simpl. rewrite HH.
      by intros [? ?].
  - symmetry. apply map_lookup_filter_None. by left.
Qed.

Lemma boundHandlers_eq (F : gmap string (Filter CQEvent)) (H : gmap string Func) :
  foldl (insertWhen (λ kf, PluginFunc <$> H !! kf.1)) ∅ (range R F)
  = PluginFunc <$> filter (λ kh, is_Some (F !! kh.1)) H.
Proof.
  apply map_eq; intros k. rewrite foldl_insertWhen_range, lookup_fmap. simpl.
  destruct (H !! k) as [h|] eqn:HH; simpl.
  - destruct (F !! k) as [f|] eqn:HF; simpl; symmetry.
    + erewrite (proj2 (map_lookup_filter_Some _ _ k h)); first done.
      simpl. rewrite HF. eauto.
    + erewrite (proj2 (map_lookup_filter_None _ _ k)); first done.
      right. intros h' _. simpl. rewrite HF. by intros [? ?].
  - erewrite (proj2 (map_lookup_filter_None _ _ k)) by by left.
    by destruct (F !! k).
Qed.

Lemma hasFilter_lookup (F : gmap string (Filter CQEvent)) (H : gmap string Func) k h :
  H !! k = Some h →
  negb (default false
    (foldl (insertWhen (λ kf : string * Filter CQEvent, (λ _, true) <$> H !! kf.1))
       ∅ (range R F) !! k))
  = bool_decide (F !! k = None).
Proof.
  intros HH. rewrite foldl_insertWhen_range. simpl. rewrite HH.
  by destruct (F !! k).
Qed.

Lemma collectNoFilter_eq (hasFilter : gmap string bool) (F : gmap string (Filter CQEvent))
    (H : gmap string Func) :
  (∀ k h, H !! k = Some h →
     negb (default false (hasFilter !! k)) = bool_decide (F !! k = None)) →
  collectNoFilter R hasFilter H = (filter (λ kh, F !! kh.1 = None) (range R H)).*2.
Proof.
  intros Hhf. unfold collectNoFilter.
  assert (∀ k h, (k, h) ∈ range R H →
    negb (default false (hasFilter !! k)) = bool_decide (F !! k = None)) as Hl.
  { intros k h ?%elem_of_range. eauto. }
  clear Hhf. generalize (range R H) Hl. clear Hl. intros l Hl.
  enough (∀ acc, foldl (keepNoFilter hasFilter) acc l
                 = acc ++ (filter (λ kh, F !! kh.1 = None) l).*2) as Haux
    by apply (Haux []).
  induction l as [|[k h] l IH]; intros acc; simpl.
  - by rewrite app_nil_r.
  - rewrite IH by (intros; eapply Hl; by right).
    rewrite (Hl k h) by by left.
    destruct (decide (F !! k = None)) as [HF|HF].
    + rewrite bool_decide_eq_true_2, filter_cons_True by done.
      simpl. by rewrite <-app_assoc.
    + rewrite bool_decide_eq_false_2, filter_cons_False by done. done.
Qed.

Lemma wirePlugin_returned plug p :
  wirePlugin R plug p =
    (Returned (),
     {| Client := setPluginEntries (<[Name plug := entryOf R plug]>) (Client p);
        trace := trace p ++ warnings R plug |}).
Proof.
  unfold wirePlugin, bindFilters.
  erewrite bind_returned; last apply bindFilters_returned.
  simpl. rewrite boundFilters_eq, boundHandlers_eq.
  rewrite (collectNoFilter_eq _ (Filters plug)) by apply hasFilter_lookup.
  reflexivity.
Qed.

(** *** Registration *)

Lemma loadPlugins_returned (entries : list (Plugin CQEvent Func)) p :
  Forall (λ plug, Load plug = None) entries →
  loadPlugins entries p = (Returned (), p).
Proof.
  intros Hload. unfold loadPlugins.
  rewrite (forEach_returned entries _ (λ _, [])).
  - replace (entries ≫= λ _, []) with (@nil (effect CQEvent Func)).
    + by rewrite extend_nil.
    + clear Hload. induction entries as [|plug l IH]; csimpl; done.
  - intros plug q Hin. rewrite Forall_forall in Hload.
    rewrite (Hload plug Hin). by rewrite extend_nil.
Qed.

Lemma wirePlugins_returned (entries : list (Plugin CQEvent Func)) p :
  forEach entries (wirePlugin R) p =
    (Returned (),
     {| Client := setPluginEntries (wired R entries) (Client p);
        trace := trace p ++ (entries ≫= warnings R) |}).
Proof.
  revert p. induction entries as [|plug l IH]; intros p; csimpl.
  - rewrite app_nil_r. by destruct p as [[] ?].
  - erewrite bind_returned; last apply wirePlugin_returned.
    rewrite IH. simpl. by rewrite app_assoc.
Qed.

Lemma registerAllPlugins_returned (entries : list (Plugin CQEvent Func)) p :
  Forall (λ plug, Load plug = None) entries →
  registerAllPlugins R entries p =
    (Returned (),
     {| Client := setPluginEntries (wired R entries) (Client p);
        trace := trace p ++ (entries ≫= warnings R)
                   ++ ((λ plug, GoLoaded (Name plug)) <$> entries) |}).
Proof.
  intros Hload. unfold registerAllPlugins.
  erewrite bind_returned; last by apply loadPlugins_returned.
  erewrite bind_returned; last apply wirePlugins_returned.
  rewrite forEach_emit. unfold extend; simpl. by rewrite app_assoc.
Qed.

Lemma wired_app (l1 l2 : list (Plugin CQEvent Func)) table :
  wired R (l1 ++ l2) table = wired R l2 (wired R l1 table).
Proof. apply foldl_app. Qed.

Lemma wired_lookup_other (l : list (Plugin CQEvent Func)) table name :
  name ∉ Name <$> l → wired R l table !! name = table !! name.
Proof.
  revert table. induction l as [|plug l IH]; intros table Hname; simpl; first done.
  rewrite fmap_cons, not_elem_of_cons in Hname. destruct Hname as [Hne Hname].
  rewrite IH by done. by rewrite lookup_insert_ne.
Qed.

Lemma wired_lookup_last (entries : list (Plugin CQEvent Func)) plug table :
  lastNamed entries plug →
  wired R entries table !! Name plug = Some (entryOf R plug).
Proof.
  intros (before & after & -> & Hafter).
  rewrite wired_app. simpl. rewrite wired_lookup_other by done.
  apply lookup_insert_eq.
Qed.

Lemma lastNamed_exists (entries : list (Plugin CQEvent Func)) name :
  name ∈ Name <$> entries →
  ∃ plug, lastNamed entries plug ∧ Name plug = name.
Proof.
  induction entries as [|plug l IH]; csimpl; intros Hin.
  - by apply elem_of_nil in Hin.
  - destruct (decide (name ∈ Name <$> l)) as [Hl|Hl].
    + destruct (IH Hl) as (plug' & (before & after & -> & Hafter) & Hname).
      exists plug'. split; last done. by exists (plug :: before), after.
    + apply elem_of_cons in Hin as [->|?]; last done.
      exists plug. split; last done. by exists [], l.
Qed.

Lemma wired_lookup_inv (entries : list (Plugin CQEvent Func)) name entry :
  wired R entries ∅ !! name = Some entry →
  ∃ plug, lastNamed entries plug ∧ Name plug = name ∧ entry = entryOf R plug.
Proof.
  intros Hlook. destruct (decide (name ∈ Name <$> entries)) as [Hin|Hin].
  - destruct (lastNamed_exists _ _ Hin) as (plug & Hlast & <-).
    exists plug. split_and!; try done.
    rewrite (wired_lookup_last _ plug) in Hlook by done. congruence.
  - rewrite wired_lookup_other, lookup_empty in Hlook by done. done.
Qed.

(** *** Routing *)

Lemma invoke_returned (pluginName key : string) (h : option (Handler Func)) event p :
  is_Some h →
  invoke pluginName key h event p
  = (Returned (), extend p (invokeTrace pluginName key h event)).
Proof.
  intros [[fn|hs] ->]; simpl; first done.
  erewrite bind_returned; last apply emit_returned.
  by rewrite forEach_emit, extend_extend.
Qed.

Lemma routeFilter_returned (pluginName : string) entry event key (f : Filter CQEvent) p :
  is_Some (handlers entry !! key) →
  routeFilter pluginName entry event key f p
  = (Returned (), extend p (filterTrace pluginName entry event (key, f))).
Proof.
  intros Hkey. unfold routeFilter, callFilter, filterTrace; simpl.
  erewrite bind_returned;
    last (erewrite bind_returned; [reflexivity|apply emit_returned]).
  destruct (f event).
  - by rewrite invoke_returned, extend_extend.
  - done.
Qed.

Lemma routeEntry_returned event (pluginName : string) entry p :
  complete entry →
  routeEntry R event pluginName entry p
  = (Returned (), extend p (entryTrace R event (pluginName, entry))).
Proof.
  intros [Hno Hkeys]. unfold routeEntry, entryTrace; simpl.
  erewrite bind_returned; last by apply invoke_returned.
  rewrite (forEach_returned _ _ (filterTrace pluginName entry event)).
  - by rewrite extend_extend.
  - intros [key f] q Hin. apply routeFilter_returned, Hkeys.
    apply elem_of_range in Hin. by rewrite Hin.
Qed.

Lemma entryOf_complete plug : complete (entryOf R plug).
Proof.
  split; simpl.
  - rewrite lookup_insert_eq. eauto.
  - intros key [f Hf]. apply map_lookup_filter_Some in Hf as [HF [h Hh]].
    simpl in Hh. destruct (decide (noFilterKey = key)) as [->|Hne].
    + rewrite lookup_insert_eq. eauto.
    + rewrite lookup_insert_ne, lookup_fmap by done.
      erewrite (proj2 (map_lookup_filter_Some _ _ key h)); first by eauto.
      simpl. rewrite HF. eauto.
Qed.

Lemma eventOnMessage_returned raw event p :
  unmarshalEvent raw = inl event →
  (∀ name entry, pluginEntries (Client p) !! name = Some entry → complete entry) →
  eventOnMessage R unmarshalEvent raw p
  = (Returned (), extend p (range R (pluginEntries (Client p)) ≫= entryTrace R event)).
Proof.
  intros Hraw Hcomplete. unfold eventOnMessage. rewrite Hraw.
  erewrite bind_returned; last reflexivity.
  apply forEach_returned. intros [name entry] q Hin.
  apply routeEntry_returned, (Hcomplete name). by apply elem_of_range.
Qed.

(** *** Selecting the effects of one plugin, and of one key *)

Lemma omap_bind_nil {A B C} (g : A → option B) (tr : C → list A) (l : list C) :
  (∀ y, y ∈ l → omap g (tr y) = []) → omap g (l ≫= tr) = [].
Proof.
  induction l as [|y l IH]; intros Hl; csimpl; first done.
  rewrite omap_app, Hl, IH; [done| |by left]. intros; apply Hl; by right.
Qed.

Lemma omap_bind_select {A B V} (g : A → option B) (tr : string * V → list A)
    (l : list (string * V)) k v :
  NoDup l.*1 → (k, v) ∈ l →
  (∀ k' v', (k', v') ∈ l → k' ≠ k → omap g (tr (k', v')) = []) →
  omap g (l ≫= tr) = omap g (tr (k, v)).
Proof.
  induction l as [|[k' v'] l IH]; intros Hnd Hin Hother; csimpl.
  - by apply elem_of_nil in Hin.
  - apply NoDup_cons in Hnd as [Hk' Hnd]. rewrite omap_app.
    apply elem_of_cons in Hin as [[= <- <-]|Hin].
    + rewrite omap_bind_nil, app_nil_r; first done.
      intros [k2 v2] H2. apply Hother; first by right.
      intros ->. apply Hk'. apply list_elem_of_fmap. by exists (k, v2).
    + rewrite (Hother k' v'), IH; [done..| |by left|].
      * intros k2 v2 H2. apply Hother. by right.
      * intros ->. apply Hk'. apply list_elem_of_fmap. by exists (k, v).
Qed.

Lemma omap_none {A B} (g : A → option B) (l : list A) :
  Forall (λ x, g x = None) l → omap g l = [].
Proof. induction 1 as [|x l Hx _ IH]; simpl; [done|by rewrite Hx]. Qed.

Lemma invokeTrace_pluginOf (n key : string) (h : option (Handler Func)) event :
  Forall (λ e, pluginOf e = Some n ∧ (keyOf e = Some key ∨ keyOf e = None))
    (invokeTrace n key h event).
Proof.
  destruct h as [[fn|hs]|]; simpl.
  - apply Forall_singleton. simpl. eauto.
  - apply Forall_cons. split; first by simpl; eauto.
    apply Forall_fmap, Forall_true. simpl. eauto.
  - constructor.
Qed.

Lemma filterTrace_pluginOf (n : string) entry event (kf : string * Filter CQEvent) :
  Forall (λ e, pluginOf e = Some n ∧ (keyOf e = Some kf.1 ∨ keyOf e = None))
    (filterTrace n entry event kf).
Proof.
  unfold filterTrace. constructor; first by simpl; eauto.
  destruct (kf.2 event); [apply invokeTrace_pluginOf|constructor].
Qed.

Lemma entryTrace_pluginOf event (n : string) entry :
  Forall (λ e, pluginOf e = Some n) (entryTrace R event (n, entry)).
Proof.
  unfold entryTrace; simpl. apply Forall_app. split.
  - eapply Forall_impl; first apply invokeTrace_pluginOf. by intros ? [? _].
  - apply Forall_bind, Forall_true. intros kf.
    eapply Forall_impl; first apply filterTrace_pluginOf. by intros ? [? _].
Qed.

(** An observation [g] that ignores the effects of other plugins sees, in the
    trace of a routed event, the effects of the one entry only. *)
Lemma select_entry {B} (g : effect CQEvent Func → option B) event
    (table : gmap string (pluginEntry CQEvent Func)) (n : string) entry :
  table !! n = Some entry →
  (∀ e, pluginOf e ≠ Some n → g e = None) →
  omap g (range R table ≫= entryTrace R event) = omap g (entryTrace R event (n, entry)).
Proof.
  intros Hn Hg. apply omap_bind_select.
  - apply NoDup_range.
  - by apply elem_of_range.
  - intros n' entry' _ Hne. apply omap_none.
    eapply Forall_impl; first apply entryTrace_pluginOf.
    simpl. intros e He. apply Hg. rewrite He. congruence.
Qed.

(** An observation [g] that ignores the effects made for other keys sees,
    in the trace of the filter loop, the turn of the one key only. *)
Lemma select_filter {B} (g : effect CQEvent Func → option B) (n : string) entry event
    (key : string) (f : Filter CQEvent) :
  fitlers entry !! key = Some f →
  (∀ e, keyOf e ≠ Some key → g e = None) →
  omap g (range R (fitlers entry) ≫= filterTrace n entry event)
  = omap g (filterTrace n entry event (key, f)).
Proof.
  intros Hkey Hg. apply omap_bind_select.
  - apply NoDup_range.
  - by apply elem_of_range.
  - intros k' f' _ Hne. apply omap_none.
    eapply Forall_impl; first apply filterTrace_pluginOf.
    simpl. intros e [_ He]. apply Hg. destruct He as [-> | ->]; congruence.
Qed.

(** Registration from an empty table, followed by one event. *)
Lemma routed_after_registration (entries : list (Plugin CQEvent Func)) raw event p :
  pluginEntries (Client p) = ∅ →
  Forall (λ plug, Load plug = None) entries →
  unmarshalEvent raw = inl event →
  ∃ p',
    registerAllPlugins R entries p = (Returned (), p') ∧
    pluginEntries (Client p') = wired R entries ∅ ∧
    eventOnMessage R unmarshalEvent raw p'
    = (Returned (), extend p' (range R (wired R entries ∅) ≫= entryTrace R event)).
Proof.
  intros Hempty Hload Hraw. eexists. split; first by apply registerAllPlugins_returned.
  simpl. rewrite Hempty. split; first done.
  rewrite (eventOnMessage_returned raw event) by
    (try done; simpl; rewrite Hempty; intros name entry Hlook;
     apply wired_lookup_inv in Hlook as (plug & _ & _ & ->); apply entryOf_complete).
  simpl. by rewrite Hempty.
Qed.

(** *** The entry of a plugin, and its trace *)

Lemma effectsOf_extend {A} (m : Go CQEvent Func A) p (a : outcome A) t :
  m p = (a, extend p t) → effectsOf m p = t.
Proof. intros Hm. unfold effectsOf. rewrite Hm. simpl. by rewrite drop_app_length. Qed.

Lemma entryOf_fitlers_lookup plug key (f : Filter CQEvent) :
  fitlers (entryOf R plug) !! key = Some f ↔
  Filters plug !! key = Some f ∧ is_Some (Handlers plug !! key).
Proof. simpl. by rewrite map_lookup_filter_Some. Qed.

Lemma entryOf_handlers_lookup plug key (f : Filter CQEvent) (h : Func) :
  Filters plug !! key = Some f → Handlers plug !! key = Some h → key ≠ noFilterKey →
  handlers (entryOf R plug) !! key = Some (PluginFunc h).
Proof.
  intros HF HH Hne. simpl. rewrite lookup_insert_ne, lookup_fmap by done.
  erewrite (proj2 (map_lookup_filter_Some _ _ key h)); first done.
  simpl. rewrite HF. eauto.
Qed.

Lemma filterTrace_entryOf plug (n key : string) (f : Filter CQEvent) event :
  fitlers (entryOf R plug) !! key = Some f → key ≠ noFilterKey →
  ∃ h, Handlers plug !! key = Some h ∧
    filterTrace n (entryOf R plug) event (key, f)
    = CallFilter n key event (f event) ::
        (if f event then [CallHandler n key h event] else []).
Proof.
  intros [HF [h HH]]%entryOf_fitlers_lookup Hne. exists h. split; first done.
  unfold filterTrace. cbn [fst snd].
  by rewrite (entryOf_handlers_lookup plug key f h).
Qed.

Lemma map_to_list_filter `{Countable K} {V} (P : K * V → Prop) `{∀ x, Decision (P x)}
    (m : gmap K V) :
  map_to_list (filter P m) ≡ₚ filter P (map_to_list m).
Proof.
  rewrite map_filter_alt. apply map_to_list_to_map.
  eapply sublist_NoDup;
    [apply (NoDup_fst_map_to_list m)|apply fmap_sublist, sublist_filter].
Qed.

Lemma noFilterHandlers_perm plug :
  noFilterHandlers R plug ≡ₚ (map_to_list (unfiltered plug)).*2.
Proof.
  unfold noFilterHandlers, unfiltered.
  by rewrite map_to_list_filter, (range_perm R).
Qed.

Lemma entryTrace_entryOf plug event :
  entryTrace R event (Name plug, entryOf R plug)
  = CallNoFilter (Name plug) event ::
      ((λ fn, CallHandler (Name plug) noFilterKey fn event) <$> noFilterHandlers R plug)
      ++ (range R (fitlers (entryOf R plug))
            ≫= filterTrace (Name plug) (entryOf R plug) event).
Proof. unfold entryTrace. cbn [fst snd]. simpl handlers. by rewrite lookup_insert_eq. Qed.

Lemma handlerCalls_closure (n key : string) (hs : list Func) event :
  handlerCalls n key ((λ fn, CallHandler n key fn event) <$> hs)
  = (λ fn, (fn, event)) <$> hs.
Proof.
  unfold handlerCalls. induction hs as [|h hs IH]; csimpl; first done.
  rewrite decide_True by done. by rewrite IH.
Qed.

Lemma noFilterCalls_closure (n n' key : string) (hs : list Func) event :
  noFilterCalls n ((λ fn, CallHandler n' key fn event) <$> hs) = [].
Proof. unfold noFilterCalls. by induction hs as [|h hs IH]; csimpl. Qed.

Lemma noFilterCalls_app (n : string) t1 t2 :
  noFilterCalls n (t1 ++ t2) = noFilterCalls n t1 ++ noFilterCalls n t2.
Proof. apply omap_app. Qed.

Lemma handlerCalls_app (n key : string) t1 t2 :
  handlerCalls n key (t1 ++ t2) = handlerCalls n key t1 ++ handlerCalls n key t2.
Proof. apply omap_app. Qed.

Lemma filterCalls_app (n key : string) t1 t2 :
  filterCalls n key (t1 ++ t2) = filterCalls n key t1 ++ filterCalls n key t2.
Proof. apply omap_app. Qed.

Lemma noFilterCalls_cons_closure (n : string) event t :
  noFilterCalls n (CallNoFilter n event :: t) = event :: noFilterCalls n t.
Proof. unfold noFilterCalls; simpl. by rewrite decide_True. Qed.

Lemma handlerCalls_cons_closure (n key n' : string) event t :
  handlerCalls n key (CallNoFilter n' event :: t) = handlerCalls n key t.
Proof. reflexivity. Qed.

Lemma noFilterCalls_route (table : gmap string (pluginEntry CQEvent Func))
    (n : string) entry event :
  table !! n = Some entry →
  noFilterCalls n (range R table ≫= entryTrace R event)
  = noFilterCalls n (entryTrace R event (n, entry)).
Proof.
  intros Hn. apply select_entry; first done.
  intros [] He; try done. rewrite decide_False; [done|]. simpl in He. congruence.
Qed.

Lemma handlerCalls_route (table : gmap string (pluginEntry CQEvent Func))
    (n key : string) entry event :
  table !! n = Some entry →
  handlerCalls n key (range R table ≫= entryTrace R event)
  = handlerCalls n key (entryTrace R event (n, entry)).
Proof.
  intros Hn. apply select_entry; first done.
  intros [] He; try done. rewrite decide_False; [done|]. simpl in He.
  intros [? _]. congruence.
Qed.

Lemma filterCalls_route (table : gmap string (pluginEntry CQEvent Func))
    (n key : string) entry event :
  table !! n = Some entry →
  filterCalls n key (range R table ≫= entryTrace R event)
  = filterCalls n key (entryTrace R event (n, entry)).
Proof.
  intros Hn. apply select_entry; first done.
  intros [] He; try done. rewrite decide_False; [done|]. simpl in He.
  intros [? _]. congruence.
Qed.

(** Without a claim on the reserved key, the filter loop calls neither the
    closure nor anything through [handlers[noFilterKey]]. *)
Lemma filters_leave_noFilter plug event :
  ¬ claimed plug noFilterKey →
  noFilterCalls (Name plug)
    (range R (fitlers (entryOf R plug)) ≫= filterTrace (Name plug) (entryOf R plug) event) = [] ∧
  handlerCalls (Name plug) noFilterKey
    (range R (fitlers (entryOf R plug)) ≫= filterTrace (Name plug) (entryOf R plug) event) = [].
Proof.
  intros Hreserved.
  assert (∀ key (f : Filter CQEvent),
    (key, f) ∈ range R (fitlers (entryOf R plug)) → key ≠ noFilterKey) as Hkeys.
  { intros key f [HF HH]%elem_of_range%entryOf_fitlers_lookup ->.
    apply Hreserved. split; [by eauto|done]. }
  split; apply omap_bind_nil; intros [key f] Hin;
    pose proof (Hkeys key f Hin) as Hne;
    (destruct (filterTrace_entryOf plug (Name plug) key f event) as (h & _ & ->);
      [by apply elem_of_range|done|]);
    destruct (f event); simpl; try done.
  rewrite decide_False; [done|]. by intros [_ ?].
Qed.

(** *** The dispatch of one event *)

(** The calls that the wired table gives for an event: let [plug] be the
    last descriptor of its name, and let it not bind the reserved key
    [noFilterKey] in both of its mappings.  Then the closure of [plug] is
    called exactly once, and through it every handler of [plug] whose key has
    no filter exactly once. *)
Lemma closure_calls_unfiltered_once (entries : list (Plugin CQEvent Func)) plug event :
  lastNamed entries plug →
  ¬ claimed plug noFilterKey →
  calledOnce plug event (range R (wired R entries ∅) ≫= entryTrace R event).
Proof.
  intros Hlast Hreserved.
  pose proof (wired_lookup_last entries plug ∅ Hlast) as Hentry.
  destruct (filters_leave_noFilter plug event Hreserved) as [Hno Hcalls].
  split.
  - rewrite (noFilterCalls_route _ _ _ _ Hentry), entryTrace_entryOf.
    by rewrite noFilterCalls_cons_closure, noFilterCalls_app, noFilterCalls_closure, Hno.
  - rewrite (handlerCalls_route _ _ _ _ _ Hentry), entryTrace_entryOf.
    rewrite handlerCalls_cons_closure, handlerCalls_app, handlerCalls_closure.
    by rewrite Hcalls, app_nil_r, noFilterHandlers_perm.
Qed.


Lemma handlerCalls_closure_other (n key n' key' : string) (hs : list Func) event :
  key ≠ key' →
  handlerCalls n key ((λ fn, CallHandler n' key' fn event) <$> hs) = [].
Proof.
  intros Hne. unfold handlerCalls. induction hs as [|h hs IH]; csimpl; first done.
  rewrite decide_False; [done|]. by intros [_ ?].
Qed.

Lemma filterCalls_closure (n key n' key' : string) (hs : list Func) event :
  filterCalls n key ((λ fn, CallHandler n' key' fn event) <$> hs) = [].
Proof. unfold filterCalls. by induction hs as [|h hs IH]; csimpl. Qed.

(** The calls that the wired table gives for an event: the filter that
    the last descriptor of a name binds under a key other than [noFilterKey]
    is applied once, and the handler of that key is called exactly when the
    filter returned true. *)
Lemma filter_gates_its_handler (entries : list (Plugin CQEvent Func)) plug
    (key : string) (f : Filter CQEvent) (h : Func) event :
  lastNamed entries plug →
  Filters plug !! key = Some f →
  Handlers plug !! key = Some h →
  key ≠ noFilterKey →
  let t := range R (wired R entries ∅) ≫= entryTrace R event in
  filterCalls (Name plug) key t = [(event, f event)] ∧
  handlerCalls (Name plug) key t = (if f event then [(h, event)] else []) ∧
  calledIff plug key f h event t.
Proof.
  intros Hlast HF HH Hne t. unfold t.
  split_and!.
  all: pose proof (wired_lookup_last entries plug ∅ Hlast) as Hentry.
  all: assert (fitlers (entryOf R plug) !! key = Some f) as Hbound
    by (apply entryOf_fitlers_lookup; eauto).
  all: destruct (filterTrace_entryOf plug (Name plug) key f event Hbound Hne)
    as (h' & Hh' & Htrace).
  all: assert (h' = h) as -> by congruence.
  - rewrite (filterCalls_route _ _ _ _ _ Hentry), entryTrace_entryOf.
    change (filterCalls (Name plug) key (CallNoFilter (Name plug) event :: ?t))
      with (filterCalls (Name plug) key t).
    rewrite filterCalls_app, filterCalls_closure, app_nil_l.
    unfold filterCalls. rewrite (select_filter _ _ _ _ key f Hbound), Htrace.
    + simpl. rewrite decide_True by done. by destruct (f event).
    + intros [] He; try done. rewrite decide_False; [done|]. simpl in He.
      intros [_ ?]. congruence.
  - rewrite (handlerCalls_route _ _ _ _ _ Hentry), entryTrace_entryOf.
    rewrite handlerCalls_cons_closure, handlerCalls_app.
    rewrite handlerCalls_closure_other, app_nil_l by done.
    unfold handlerCalls. rewrite (select_filter _ _ _ _ key f Hbound), Htrace.
    + simpl. destruct (f event); simpl; [|done]. by rewrite decide_True.
    + intros [] He; try done. rewrite decide_False; [done|]. simpl in He.
      intros [_ ?]. congruence.
  - unfold calledIff.
    rewrite (handlerCalls_route _ _ _ _ _ Hentry), entryTrace_entryOf.
    rewrite handlerCalls_cons_closure, handlerCalls_app.
    rewrite handlerCalls_closure_other, app_nil_l by done.
    unfold handlerCalls. rewrite (select_filter _ _ _ _ key f Hbound), Htrace.
    + simpl. destruct (f event); simpl.
      * rewrite decide_True by done. split; [done|]. intros _. by left.
      * split; [|done]. by intros ?%elem_of_nil.
    + intros [] He; try done. rewrite decide_False; [done|]. simpl in He.
      intros [_ ?]. congruence.
Qed.



(** *** Descriptors that share a name *)

Lemma wired_insert_shadowed (rest : list (Plugin CQEvent Func)) table
    (name : string) entry :
  name ∈ Name <$> rest →
  wired R rest (<[name := entry]> table) = wired R rest table.
Proof.
  revert table. induction rest as [|plug l IH]; intros table Hin; csimpl in *.
  - by apply elem_of_nil in Hin.
  - destruct (decide (Name plug = name)) as [->|Hne].
    + by rewrite insert_insert_eq.
    + apply elem_of_cons in Hin as [?|Hin]; first done.
      rewrite insert_insert_ne by done. by apply IH.
Qed.

Lemma lastNamed_app (before rest : list (Plugin CQEvent Func)) plug :
  lastNamed rest plug → lastNamed (before ++ rest) plug.
Proof.
  intros (l1 & l2 & -> & Hl2). exists (before ++ l1), l2.
  by rewrite <-app_assoc.
Qed.

(** C6: when a descriptor [earlier] is followed in the registration list by
    a descriptor of the same name, registration returns (given that the load
    hooks succeed), the entry stored under that name is the one built from
    the last descriptor [later] of that name, and the client is the one that
    registration without [earlier] produces: every event routed afterwards
    has the effects given by the table wired without [earlier], so that no
    filter and no handler of [earlier] is called. *)
Theorem later_descriptor_supersedes (before rest : list (Plugin CQEvent Func))
    (earlier : Plugin CQEvent Func) p :
  pluginEntries (Client p) = ∅ →
  Forall (λ plug, Load plug = None) (before ++ earlier :: rest) →
  Name earlier ∈ Name <$> rest →
  ∃ p' later,
    registerAllPlugins R (before ++ earlier :: rest) p = (Returned (), p') ∧
    lastNamed rest later ∧ Name later = Name earlier ∧
    pluginEntries (Client p') !! Name earlier = Some (entryOf R later) ∧
    Client p' = Client (registerAllPlugins R (before ++ rest) p).2 ∧
    ∀ raw event, unmarshalEvent raw = inl event →
      eventOnMessage R unmarshalEvent raw p'
      = (Returned (),
         extend p' (range R (wired R (before ++ rest) ∅) ≫= entryTrace R event)).
Proof.
  intros Hempty Hload Hin.
  destruct (lastNamed_exists rest (Name earlier) Hin) as (later & Hlast & Hname).
  assert (wired R (before ++ earlier :: rest) ∅ = wired R (before ++ rest) ∅) as Hwired.
  { rewrite !wired_app. simpl. by apply wired_insert_shadowed. }
  assert (Forall (λ plug, Load plug = None) (before ++ rest)) as Hload'.
  { apply Forall_app in Hload as [? [_ ?]%Forall_cons]. by apply Forall_app. }
  eexists _, later. split; first by apply registerAllPlugins_returned.
  split_and!; [done..| | |].
  - simpl. rewrite Hempty, <-Hname.
    apply (lastNamed_app (before ++ [earlier])) in Hlast.
    rewrite <-app_assoc in Hlast. by apply wired_lookup_last.
  - rewrite (registerAllPlugins_returned (before ++ rest)) by done.
    simpl. unfold setPluginEntries. by rewrite Hempty, Hwired.
  - intros raw event Hraw.
    destruct (routed_after_registration (before ++ earlier :: rest) raw event p)
      as (p' & Hreg & _ & Hroute); [done..|].
    rewrite registerAllPlugins_returned in Hreg by done.
    injection Hreg as <-. by rewrite <-Hwired.
Qed.


(** *** Sending *)

(** C7: while the API connection is not connected, [SendGroupMsg] returns
    and leaves the process as it was: no frame is sent, the echo queue is not
    touched, nothing is logged and nothing is raised. *)
Theorem SendGroupMsg_offline (now groupID : Z) (message : string) p :
  IsAPIOk (Client p) = false →
  SendGroupMsg marshal now groupID message p = (Returned (), p).
Proof.
  intros Hdown. unfold SendGroupMsg.
  erewrite bind_returned; last reflexivity.
  by rewrite Hdown.
Qed.

(** C1 (what the code does): while the API connection is connected,
    [SendGroupMsg] sends one text frame, the payload whose echo is the
    current Unix time, and returns with the client unchanged: the echo is
    not recorded in the echo queue. *)
Theorem SendGroupMsg_online (now groupID : Z) (message : string) p :
  IsAPIOk (Client p) = true →
  ∃ p',
    SendGroupMsg marshal now groupID message p = (Returned (), p') ∧
    effectsOf (SendGroupMsg marshal now groupID message) p
    = [ApiSend TextMessage
         (marshal {| Action := ActionSendGroupMsg;
                     Params := {| GroupID := groupID; Message := message |};
                     Echo := now |})] ∧
    Client p' = Client p ∧
    tracked now p' = tracked now p.
Proof.
  intros Hup.
  assert (SendGroupMsg marshal now groupID message p
          = (Returned (),
             extend p [ApiSend TextMessage
               (marshal {| Action := ActionSendGroupMsg;
                           Params := {| GroupID := groupID; Message := message |};
                           Echo := now |})])) as Hsend.
  { unfold SendGroupMsg. erewrite bind_returned; last reflexivity. by rewrite Hup. }
  eexists. split; first done.
  split; first by eapply effectsOf_extend.
  done.
Qed.

(** *** Messages that do not decode *)

(** C2 (what the code does): when the bytes of an event message do not
    decode, the event callback prints the decoding error with [log.Panicln] and
    panics with the line it printed.  No plugin is called, but
    [logger.Service.AddLog] is not reached either, and the callback does not
    return. *)
Theorem eventOnMessage_decode_error raw (errMsg : string) p :
  unmarshalEvent raw = inr errMsg →
  eventOnMessage R unmarshalEvent raw p
  = (Panicked (errMsg +:+ newline), extend p [Println errMsg]) ∧
  addedLogs (effectsOf (eventOnMessage R unmarshalEvent raw) p) = [] ∧
  filter isPluginCall (effectsOf (eventOnMessage R unmarshalEvent raw) p) = [].
Proof.
  intros Hraw.
  assert (eventOnMessage R unmarshalEvent raw p
          = (Panicked (errMsg +:+ newline), extend p [Println errMsg])) as Hrun.
  { unfold eventOnMessage. rewrite Hraw.
    erewrite bind_panicked; first done.
    unfold Panicln. erewrite bind_returned; last apply emit_returned. done. }
  split; first done.
  by rewrite (effectsOf_extend _ _ _ _ Hrun).
Qed.


(** *** Acknowledgements and the sweep *)

Lemma apiOnMessage_returned raw (msg : CQWSResponse) p :
  unmarshalResponse raw = inl msg →
  apiOnMessage unmarshalResponse raw p
  = (Returned (),
     if tracked (RespEcho msg) p
     then {| Client := setEchoqueue (gomap_delete (RespEcho msg)) (Client p);
             trace := trace p ++ [QueueLoad (RespEcho msg); MuLock;
                                  QueueDelete (RespEcho msg); MuUnlock] |}
     else extend p [QueueLoad (RespEcho msg)]).
Proof.
  intros Hraw. unfold apiOnMessage. rewrite Hraw.
  erewrite bind_returned; last first.
  { unfold queueLoad. erewrite bind_returned; last apply emit_returned.
    erewrite bind_returned; reflexivity. }
  unfold tracked. simpl.
  destruct (gomap_load false (echoqueue (Client p)) (RespEcho msg)); last done.
  go_run. by rewrite <-!app_assoc.
Qed.

Lemma apiOnMessage_decode_error raw (err : string) p :
  unmarshalResponse raw = inr err →
  apiOnMessage unmarshalResponse raw p
  = (Returned (), extend p [AddLog logger.LogTypeError err]).
Proof. intros Hraw. unfold apiOnMessage. by rewrite Hraw. Qed.

Lemma sweepTrace_cons (now : Z) (es : Z * bool) (l : list (Z * bool)) :
  sweepTrace (CQEvent:=CQEvent) (Func:=Func) now (es :: l)
  = (if expired now es
     then [AddLog logger.LogTypeError (timeoutText es.1); MuLock; QueueDelete es.1; MuUnlock]
     else []) ++ sweepTrace now l.
Proof. reflexivity. Qed.

Lemma sweepQueue_cons (now : Z) (es : Z * bool) (l : list (Z * bool)) (queue : gomap Z bool) :
  sweepQueue now (es :: l) queue
  = sweepQueue now l (if expired now es then gomap_delete es.1 queue else queue).
Proof. reflexivity. Qed.

Lemma sweepLoop_returned (now : Z) (l : list (Z * bool)) p :
  forEach l (λ '(echo, state),
    if (state : bool) && bool_decide (sub64 now echo > timeForWait) then
      emit (AddLog logger.LogTypeError (timeoutText echo)) ;;
      emit MuLock ;; queueDelete echo ;; emit MuUnlock
    else mret ()) p
  = (Returned (),
     {| Client := setEchoqueue (sweepQueue now l) (Client p);
        trace := trace p ++ sweepTrace now l |}).
Proof.
  revert p. induction l as [|[echo state] l IH]; intros p.
  - simpl. rewrite app_nil_r. by destruct p as [[] ?].
  - cbn [forEach]. rewrite sweepTrace_cons.
    change (state && bool_decide (sub64 now echo > timeForWait))
      with (expired now (echo, state)).
    destruct (expired now (echo, state)) eqn:Hexp.
    + erewrite bind_returned; last (go_run; reflexivity).
      rewrite IH. unfold setEchoqueue.
      cbn [Client trace apiConn eventConn pluginEntries echoqueue].
      rewrite sweepQueue_cons, Hexp. cbn [fst snd app]. by rewrite <-!app_assoc.
    + erewrite bind_returned; last reflexivity. rewrite IH.
      unfold setEchoqueue.
      cbn [Client trace apiConn eventConn pluginEntries echoqueue].
      by rewrite sweepQueue_cons, Hexp.
Qed.

Lemma sweep_returned (now : Z) p :
  sweep R now p
  = (Returned (),
     {| Client := setEchoqueue
                    (sweepQueue now (gomap_range R (echoqueue (Client p)))) (Client p);
        trace := trace p ++ QueueRange
                   :: sweepTrace now (gomap_range R (echoqueue (Client p))) |}).
Proof.
  unfold sweep. erewrite bind_returned; last first.
  { unfold queueRange. erewrite bind_returned; last apply emit_returned.
    erewrite bind_returned; reflexivity. }
  rewrite sweepLoop_returned. simpl. by rewrite <-app_assoc.
Qed.

(** C9 (what the code does): the acknowledgement callback reads
    [echoqueue] before it takes the lock, and the sweep ranges over
    [echoqueue] without the lock; only the deletions are made under it. *)
Theorem queue_read_outside_lock raw (msg : CQWSResponse) (now : Z) p :
  unmarshalResponse raw = inl msg →
  QueueLoad (RespEcho msg)
    ∈ unguarded false (effectsOf (apiOnMessage unmarshalResponse raw) p) ∧
  QueueRange ∈ unguarded false (effectsOf (sweep R now) p).
Proof.
  intros Hraw. unfold effectsOf.
  rewrite (apiOnMessage_returned raw msg), sweep_returned by done. split.
  - destruct (tracked (RespEcho msg) p); simpl; rewrite drop_app_length; by left.
  - simpl. rewrite drop_app_length. by left.
Qed.


(** *** The queue is never allocated *)

Lemma keeps_ret {A} (a : A) : keepsUntracked (mret a : Go CQEvent Func A).
Proof. by intros p Hp. Qed.

Lemma keeps_bind {A B} (m : Go CQEvent Func A) (f : A → Go CQEvent Func B) :
  keepsUntracked m → (∀ a, keepsUntracked (f a)) → keepsUntracked (m ≫= f).
Proof.
  intros Hm Hf p Hp. specialize (Hm p Hp). unfold mbind, Go_bind.
  destruct (m p) as [[a|v|code] p']; simpl in *; [by apply Hf|done..].
Qed.

Lemma keeps_emit (e : effect CQEvent Func) :
  (∀ echo, e ≠ QueueDelete echo) → keepsUntracked (emit e).
Proof.
  intros He p [Hq Ht]. split; simpl; first done.
  apply Forall_app. split; first done. by apply Forall_singleton.
Qed.

Lemma keeps_modifyClient (f : cqclient CQEvent Func → cqclient CQEvent Func) :
  (∀ c, echoqueue (f c) = echoqueue c) → keepsUntracked (modifyClient f).
Proof. intros Hf p [Hq Ht]. split; simpl; [by rewrite Hf|done]. Qed.

Lemma keeps_getClient : keepsUntracked (getClient (CQEvent:=CQEvent) (Func:=Func)).
Proof. by intros p Hp. Qed.

Lemma keeps_panic (v : string) : keepsUntracked (panic (CQEvent:=CQEvent) (Func:=Func) v).
Proof. by intros p Hp. Qed.

Lemma keeps_exit (code : Z) : keepsUntracked (exit (CQEvent:=CQEvent) (Func:=Func) code).
Proof. by intros p Hp. Qed.

Lemma keeps_forEach {A} (l : list A) (body : A → Go CQEvent Func ()) :
  (∀ x, keepsUntracked (body x)) → keepsUntracked (forEach l body).
Proof.
  intros Hbody. induction l as [|x l IH]; simpl.
  - apply keeps_ret.
  - apply keeps_bind; [apply Hbody|by intros _].
Qed.

Lemma keeps_foldGo {A B} (body : B → A → Go CQEvent Func B) (l : list A) (acc : B) :
  (∀ acc x, keepsUntracked (body acc x)) → keepsUntracked (foldGo body acc l).
Proof.
  intros Hbody. revert acc. induction l as [|x l IH]; intros acc; simpl.
  - apply keeps_ret.
  - apply keeps_bind; [apply Hbody|done].
Qed.

(** Closes a goal [keepsUntracked m] for code that does not touch the queue. *)
Ltac keeps :=
  repeat first
    [ apply keeps_ret | apply keeps_getClient | apply keeps_panic | apply keeps_exit
    | apply keeps_bind; [|intros ?]
    | apply keeps_emit; by intros ?
    | apply keeps_modifyClient; by intros ?
    | apply keeps_forEach; intros ?
    | apply keeps_foldGo; intros ? ?
    | match goal with x : (_ * _)%type |- _ => destruct x end ].

Lemma keeps_registerAllPlugins (entries : list (Plugin CQEvent Func)) :
  keepsUntracked (registerAllPlugins R entries).
Proof.
  unfold registerAllPlugins, loadPlugins, wirePlugin, bindFilters. keeps.
  - destruct (Load _); unfold Fatalln; keeps.
  - unfold bindFilter. repeat case_match; keeps.
Qed.

Lemma keeps_eventOnMessage raw :
  keepsUntracked (eventOnMessage (Func:=Func) R unmarshalEvent raw).
Proof.
  unfold eventOnMessage. destruct (unmarshalEvent raw) as [event|errMsg].
  - keeps. unfold routeEntry. keeps.
    + unfold invoke. repeat case_match; keeps.
    + unfold routeFilter, callFilter. keeps.
      case_match; keeps. unfold invoke. repeat case_match; keeps.
  - unfold Panicln. keeps.
Qed.

Lemma sweep_untracked (now : Z) p :
  echoqueue (Client p) = None → sweep R now p = (Returned (), extend p [QueueRange]).
Proof.
  intros Hq. rewrite sweep_returned, Hq. simpl.
  unfold extend. f_equal. f_equal. by destruct p as [[] ?].
Qed.

Lemma apiOnMessage_untracked raw (msg : CQWSResponse) p :
  echoqueue (Client p) = None →
  unmarshalResponse raw = inl msg →
  apiOnMessage unmarshalResponse raw p = (Returned (), extend p [QueueLoad (RespEcho msg)]).
Proof.
  intros Hq Hraw. rewrite (apiOnMessage_returned raw msg) by done.
  unfold tracked. by rewrite Hq.
Qed.

Lemma keeps_perform (a : action CQEvent Func) :
  keepsUntracked (perform R unmarshalResponse unmarshalEvent marshal a).
Proof.
  destruct a; simpl.
  - unfold Initialize.
    apply keeps_bind; [keeps|intros _].
    apply keeps_bind; [keeps|intros _].
    apply keeps_registerAllPlugins.
  - unfold Connect. keeps.
  - unfold SendGroupMsg. keeps. case_match; keeps.
  - keeps. unfold handleConnect. case_match; keeps.
  - keeps. unfold handleConnect. case_match; keeps.
  - unfold handleError. keeps.
  - intros p Hp. destruct (unmarshalResponse raw) as [msg|err] eqn:Hraw.
    + rewrite (apiOnMessage_untracked raw msg) by (done || apply Hp).
      destruct Hp as [Hq Ht]. split; simpl; first done.
      apply Forall_app. split; first done. by apply Forall_singleton.
    + rewrite (apiOnMessage_decode_error raw err) by done.
      destruct Hp as [Hq Ht]. split; simpl; first done.
      apply Forall_app. split; first done. by apply Forall_singleton.
  - apply keeps_eventOnMessage.
  - intros p Hp. rewrite sweep_untracked by apply Hp.
    destruct Hp as [Hq Ht]. split; simpl; first done.
    apply Forall_app. split; first done. by apply Forall_singleton.
Qed.

Lemma runAll_neverTracked (actions : list (action CQEvent Func)) p :
  neverTracked p →
  neverTracked (runAll R unmarshalResponse unmarshalEvent marshal actions p).
Proof.
  revert p. induction actions as [|a l IH]; intros p Hp; simpl; first done.
  apply IH. by apply keeps_perform.
Qed.

(** C10: in every state that the client reaches from [Client] by calls of
    its methods, connection callbacks and ticks of the sweep, [echoqueue] is
    still the [nil] map of the [Client] literal and holds no id; no deletion
    from it has been made; an acknowledgement only reads the queue and does
    not take the delete branch; a sweep only ranges over the queue, removing
    nothing and logging no time-out. *)
Theorem echoqueue_never_allocated (actions : list (action CQEvent Func)) :
  let p := runAll R unmarshalResponse unmarshalEvent marshal actions start in
  echoqueue (Client p) = None ∧
  (∀ echo, tracked echo p = false) ∧
  Forall (λ e, ∀ echo, e ≠ QueueDelete echo) (trace p) ∧
  (∀ raw msg, unmarshalResponse raw = inl msg →
     apiOnMessage unmarshalResponse raw p
     = (Returned (), extend p [QueueLoad (RespEcho msg)])) ∧
  (∀ now, sweep R now p = (Returned (), extend p [QueueRange])).
Proof.
  intros p.
  assert (neverTracked p) as [Hq Ht].
  { apply runAll_neverTracked. split; [done|constructor]. }
  split_and!; try done.
  - intros echo. unfold tracked. by rewrite Hq.
  - intros raw msg Hraw. by apply apiOnMessage_untracked.
  - intros now. by apply sweep_untracked.
Qed.


(** *** The expiry of a recorded echo *)

Lemma string_length_app (s1 s2 : string) :
  String.length (s1 +:+ s2) = (String.length s1 + String.length s2)%nat.
Proof. induction s1 as [|a s1 IH]; simpl; [done|by rewrite IH]. Qed.



Lemma wrap64_small (z : Z) : - 2 ^ 63 ≤ z < 2 ^ 63 → wrap64 z = z.
Proof. intros Hz. unfold wrap64. rewrite Z.mod_small; lia. Qed.




(** The queue after a sweep, as a map. *)
Lemma sweepQueue_Some (now : Z) (l : list (Z * bool)) (queue : gmap Z bool) :
  sweepQueue now l (Some queue)
  = Some (foldl (λ q es, if expired now es then delete es.1 q else q) queue l).
Proof.
  revert queue. induction l as [|es l IH]; intros queue; first done.
  rewrite sweepQueue_cons. cbn [foldl]. destruct (expired now es); simpl; apply IH.
Qed.

Lemma swept_lookup_None (now : Z) (l : list (Z * bool)) (queue : gmap Z bool) (k : Z) :
  queue !! k = None →
  foldl (λ q es, if expired now es then delete es.1 q else q) queue l !! k = None.
Proof.
  revert queue. induction l as [|es l IH]; intros queue Hk; simpl; first done.
  apply IH. destruct (expired now es); last done.
  rewrite lookup_delete. by case_decide.
Qed.

Lemma swept_lookup_keep (now : Z) (l : list (Z * bool)) (queue : gmap Z bool) (k : Z) :
  (∀ s, (k, s) ∈ l → expired now (k, s) = false) →
  foldl (λ q es, if expired now es then delete es.1 q else q) queue l !! k = queue !! k.
Proof.
  revert queue. induction l as [|[k' s'] l IH]; intros queue Hk; simpl; first done.
  rewrite IH by (intros; apply Hk; by right).
  destruct (expired now (k', s')) eqn:Hexp; last done.
  rewrite lookup_delete_ne; first done.
  intros ->. rewrite Hk in Hexp; [done|by left].
Qed.

Lemma swept_lookup_gone (now : Z) (l : list (Z * bool)) (queue : gmap Z bool) (k : Z) s :
  (k, s) ∈ l → expired now (k, s) = true →
  foldl (λ q es, if expired now es then delete es.1 q else q) queue l !! k = None.
Proof.
  revert queue. induction l as [|[k' s'] l IH]; intros queue Hin Hexp; simpl.
  - by apply elem_of_nil in Hin.
  - apply elem_of_cons in Hin as [[= <- <-]|Hin]; last by apply IH.
    rewrite Hexp. apply swept_lookup_None, lookup_delete_eq.
Qed.










End Properties.

(** ** The properties on the sample instance *)

Import Sample.

(** The scenario of the two plugins: a join event reaches [welcomeUser] and
    [logEvent], any other event reaches [logEvent] only. *)
Example scenario_join :
  routed [pluginA; pluginB] joinMessage
  = [CallNoFilter "A" "join"; CallFilter "A" "join" "join" true;
     CallHandler "A" "join" "welcomeUser" "join";
     CallNoFilter "B" "join"; CallHandler "B" noFilterKey "logEvent" "join"].
Proof. vm_compute. reflexivity. Qed.

Example scenario_chat :
  routed [pluginA; pluginB] chatMessage
  = [CallNoFilter "A" "chat"; CallFilter "A" "join" "chat" false;
     CallNoFilter "B" "chat"; CallHandler "B" noFilterKey "logEvent" "chat"].
Proof. vm_compute. reflexivity. Qed.

(** C3, as stated, fails for a plugin that binds the reserved key in both
    mappings: when the filter of that key holds, the router calls the closure
    a second time, so [logEvent], which has no filter, runs twice. *)
Lemma reserved_key_calls_unfiltered_twice :
  Handlers pluginReserved !! "any" = Some "logEvent" ∧
  Filters pluginReserved !! "any" = None ∧
  handlerCalls "R" noFilterKey (routed [pluginReserved] joinMessage)
  = [("logEvent", "join"); ("logEvent", "join")] ∧
  ¬ calledOnce pluginReserved "join" (routed [pluginReserved] joinMessage).
Proof.
  split_and!; [by vm_compute..|].
  intros [Hno _]. vm_compute in Hno. discriminate.
Qed.


(** C4, as stated, fails at the reserved key: the closure overwrites the
    handler bound under it, so that handler is never called although its
    filter holds. *)
Lemma reserved_key_handler_not_called :
  Filters pluginReserved !! noFilterKey = Some isJoinEvent ∧
  Handlers pluginReserved !! noFilterKey = Some "welcomeUser" ∧
  isJoinEvent "join" = true ∧
  ¬ calledIff pluginReserved noFilterKey isJoinEvent "welcomeUser" "join"
      (routed [pluginReserved] joinMessage).
Proof.
  split_and!; [by vm_compute..|].
  intros [_ Hcalled]. specialize (Hcalled eq_refl).
  vm_compute in Hcalled.
  repeat (apply elem_of_cons in Hcalled as [[=]|Hcalled]).
  by apply elem_of_nil in Hcalled.
Qed.



Lemma later_descriptor_supersedes_witness :
  ∃ p' later,
    registerAllPlugins keyOrder [pluginA; pluginB; pluginA'] start = (Returned (), p') ∧
    lastNamed [pluginB; pluginA'] later ∧ Name later = "A" ∧
    pluginEntries (Client p') !! "A" = Some (entryOf keyOrder later) ∧
    Client p' = Client (registerAllPlugins keyOrder [pluginB; pluginA'] start).2 ∧
    ∀ raw event, decodeEvent raw = inl event →
      eventOnMessage keyOrder decodeEvent raw p'
      = (Returned (),
         extend p' (range keyOrder (wired keyOrder [pluginB; pluginA'] ∅)
                      ≫= entryTrace keyOrder event)).
Proof.
  apply (later_descriptor_supersedes keyOrder decodeEvent [] [pluginB; pluginA'] pluginA start).
  - reflexivity.
  - repeat constructor.
  - vm_compute. right. left.
Defined.

(** After the two descriptors named [A], only the second one is routed. *)
Example superseded_plugin_is_silent :
  routed [pluginA; pluginA'] joinMessage
  = [CallNoFilter "A" "join"; CallHandler "A" noFilterKey "countEvent" "join"].
Proof. vm_compute. reflexivity. Qed.

Lemma SendGroupMsg_offline_witness :
  IsAPIOk (Client (start (CQEvent:=string) (Func:=string))) = false ∧
  SendGroupMsg encode 5 6 "hi" start = (Returned (), start (CQEvent:=string) (Func:=string)).
Proof.
  split; first reflexivity.
  apply (SendGroupMsg_offline encode 5 6 "hi" start). reflexivity.
Defined.

Lemma SendGroupMsg_online_witness :
  IsAPIOk (Client online) = true ∧
  ∃ p',
    SendGroupMsg encode 5 6 "hi" online = (Returned (), p') ∧
    effectsOf (SendGroupMsg encode 5 6 "hi") online
    = [ApiSend TextMessage
         (encode {| Action := ActionSendGroupMsg;
                    Params := {| GroupID := 6; Message := "hi" |};
                    Echo := 5 |})] ∧
    Client p' = Client online ∧
    tracked 5 p' = tracked 5 online.
Proof.
  split; first reflexivity.
  apply (SendGroupMsg_online encode 5 6 "hi" online). reflexivity.
Defined.

(** C1 at a concrete call: the frame with echo [5] is sent and [5] is not
    recorded. *)
Example sent_echo_is_not_tracked :
  let p' := (SendGroupMsg encode 5 6 "hi" online).2 in
  sentFrames (trace p')
  = [(TextMessage, encode {| Action := ActionSendGroupMsg;
                             Params := {| GroupID := 6; Message := "hi" |};
                             Echo := 5 |})] ∧
  echoqueue (Client p') = None ∧
  tracked 5 p' = false.
Proof. by vm_compute. Qed.

Lemma eventOnMessage_decode_error_witness :
  eventOnMessage keyOrder decodeEvent [] (start (Func:=string))
  = (Panicked ("unexpected end of JSON input" +:+ newline),
     extend start [Println "unexpected end of JSON input"]) ∧
  addedLogs (effectsOf (eventOnMessage keyOrder decodeEvent []) (start (Func:=string))) = [] ∧
  filter isPluginCall
    (effectsOf (eventOnMessage keyOrder decodeEvent []) (start (Func:=string))) = [].
Proof.
  apply (eventOnMessage_decode_error keyOrder decodeEvent []
           "unexpected end of JSON input" start).
  reflexivity.
Defined.

(** The acknowledgement callback, by contrast, logs a decoding error and
    returns. *)
Example apiOnMessage_logs_decode_error :
  apiOnMessage decodeResponse [] (start (CQEvent:=string) (Func:=string))
  = (Returned (),
     extend start [AddLog logger.LogTypeError "unexpected end of JSON input"]).
Proof. reflexivity. Qed.

Lemma queue_read_outside_lock_witness :
  QueueLoad 5
    ∈ unguarded false
        (effectsOf (apiOnMessage decodeResponse [Byte.x05])
           (start (CQEvent:=string) (Func:=string))) ∧
  QueueRange
    ∈ unguarded false
        (effectsOf (sweep keyOrder 131) (start (CQEvent:=string) (Func:=string))).
Proof.
  apply (queue_read_outside_lock keyOrder decodeResponse [Byte.x05]
           {| RespEcho := 5 |} 131 start).
  reflexivity.
Defined.


(** ** Further properties of the client *)

Section ClientProperties.
Context {CQEvent Func : Type}.
Context (R : RangeOrder).
Context (unmarshalResponse : bytes → CQWSResponse + string).
Context (unmarshalEvent : bytes → CQEvent + string).
Context (marshal : CQWSMessage → bytes).

Implicit Types p : process CQEvent Func.
Implicit Types t : list (effect CQEvent Func).
Implicit Types plug : Plugin CQEvent Func.
Implicit Types entry : pluginEntry CQEvent Func.
Implicit Types event : CQEvent.

(** *** Registration: a failing load hook *)

Lemma forEach_app {A} (l1 l2 : list A) (body : A → Go CQEvent Func ()) p :
  forEach (l1 ++ l2) body p = (forEach l1 body ;; forEach l2 body) p.
Proof.
  revert p. induction l1 as [|x l1 IH]; intros p; simpl; first done.
  unfold mbind, Go_bind. destruct (body x p) as [[[]|v|code] p']; [|done..].
  apply IH.
Qed.

(** X1: when the load hooks of the descriptors before [plug] succeed and
    the one of [plug] returns the error [err], registration prints [err] and
    ends the process with status 1.  The dispatch table and the rest of the
    client are as before: no plugin is wired, not even those that loaded, and
    no [Loaded] hook is started. *)
Theorem failing_load_hook_exits (before after : list (Plugin CQEvent Func)) plug
    (err : string) p :
  Forall (λ plug, Load plug = None) before →
  Load plug = Some err →
  registerAllPlugins R (before ++ plug :: after) p = (Exited 1, extend p [Println err]) ∧
  Client (registerAllPlugins R (before ++ plug :: after) p).2 = Client p ∧
  loadedSpawns (effectsOf (registerAllPlugins R (before ++ plug :: after)) p) = [].
Proof.
  intros Hbefore Hplug.
  assert (registerAllPlugins R (before ++ plug :: after) p
          = (Exited 1, extend p [Println err])) as Hrun.
  { unfold registerAllPlugins, loadPlugins.
    apply bind_exited. rewrite forEach_app.
    erewrite bind_returned; last by apply loadPlugins_returned.
    simpl. apply bind_exited. rewrite Hplug. unfold Fatalln.
    erewrite bind_returned; last apply emit_returned. done. }
  split; first done. rewrite (effectsOf_extend _ _ _ _ Hrun), Hrun. done.
Qed.


(** *** Registration: what it prints and starts *)

Lemma loadedSpawns_app t1 t2 :
  loadedSpawns (t1 ++ t2) = loadedSpawns t1 ++ loadedSpawns t2.
Proof. apply omap_app. Qed.

Lemma printed_app t1 t2 : printed (t1 ++ t2) = printed t1 ++ printed t2.
Proof. apply omap_app. Qed.

Lemma loadedSpawns_warnings (entries : list (Plugin CQEvent Func)) :
  loadedSpawns (entries ≫= warnings R) = [].
Proof.
  apply omap_bind_nil. intros plug _. unfold warnings.
  by induction (filter _ _) as [|kf l IH].
Qed.

Lemma registration_effects (entries : list (Plugin CQEvent Func)) p :
  Forall (λ plug, Load plug = None) entries →
  effectsOf (registerAllPlugins R entries) p
  = (entries ≫= warnings R) ++ ((λ plug, GoLoaded (Name plug)) <$> entries).
Proof.
  intros Hload. unfold effectsOf.
  rewrite registerAllPlugins_returned by done. simpl. by rewrite drop_app_length.
Qed.

(** X2: when the load hooks succeed, registration starts the [Loaded] hook
    of every descriptor of the list, once each and in list order, also of a
    descriptor that a later one of the same name supersedes. *)
Theorem loaded_hooks_started (entries : list (Plugin CQEvent Func)) p :
  Forall (λ plug, Load plug = None) entries →
  loadedSpawns (effectsOf (registerAllPlugins R entries) p) = Name <$> entries.
Proof.
  intros Hload. rewrite registration_effects by done.
  rewrite loadedSpawns_app, loadedSpawns_warnings, app_nil_l.
  clear Hload. unfold loadedSpawns.
  induction entries as [|plug l IH]; csimpl; [done|by rewrite IH].
Qed.

(** X3: a filter whose key has no handler is dead.  Registration prints
    the warning that names the plugin and the key, and no routed event is
    ever given to that filter. *)
Theorem dead_filter_warned_and_skipped (entries : list (Plugin CQEvent Func)) plug
    (key : string) (f : Filter CQEvent) raw event p :
  pluginEntries (Client p) = ∅ →
  Forall (λ plug, Load plug = None) entries →
  lastNamed entries plug →
  Filters plug !! key = Some f →
  Handlers plug !! key = None →
  unmarshalEvent raw = inl event →
  ∃ p' t,
    registerAllPlugins R entries p = (Returned (), p') ∧
    unusedKeyWarning (Name plug) key
      ∈ printed (effectsOf (registerAllPlugins R entries) p) ∧
    eventOnMessage R unmarshalEvent raw p' = (Returned (), extend p' t) ∧
    filterCalls (Name plug) key t = [].
Proof.
  intros Hempty Hload Hlast HF HH Hraw.
  destruct (routed_after_registration R unmarshalEvent entries raw event p)
    as (p' & Hreg & _ & Hroute); [done..|].
  exists p', (range R (wired R entries ∅) ≫= entryTrace R event).
  split_and!; [done| |done|].
  - rewrite registration_effects, printed_app by done.
    apply elem_of_app. left.
    destruct Hlast as (before & after & -> & _).
    rewrite bind_app, bind_cons, !printed_app. apply elem_of_app. right.
    apply elem_of_app. left. unfold warnings.
    assert ((key, f) ∈ filter (λ kf, Handlers plug !! kf.1 = None) (range R (Filters plug)))
      as Hin by (apply list_elem_of_filter; split; [done|by apply elem_of_range]).
    revert Hin. generalize (filter (λ kf, Handlers plug !! kf.1 = None) (range R (Filters plug))).
    intros l Hin. induction l as [|kf l IH]; first by apply elem_of_nil in Hin.
    apply elem_of_cons in Hin as [<-|Hin]; simpl; [by left|right; by apply IH].
  - pose proof (wired_lookup_last R entries plug ∅ Hlast) as Hentry.
    rewrite (filterCalls_route R _ _ _ _ _ Hentry), entryTrace_entryOf.
    change (filterCalls (Name plug) key (CallNoFilter (Name plug) event :: ?t))
      with (filterCalls (Name plug) key t).
    rewrite filterCalls_app, filterCalls_closure, app_nil_l.
    apply omap_bind_nil. intros [key' f'] Hin. apply omap_none.
    eapply Forall_impl; first apply filterTrace_pluginOf.
    simpl. intros e [_ He].
    assert (key' ≠ key) as Hne.
    { intros ->. apply elem_of_range, entryOf_fitlers_lookup in Hin as [_ [h Hh]].
      congruence. }
    destruct e; try done. simpl in He.
    rewrite decide_False; [done|]. intros [_ ->]. destruct He; congruence.
Qed.


(** *** Registration: the table it builds *)

Lemma dom_wired (l : list (Plugin CQEvent Func))
    (table : gmap string (pluginEntry CQEvent Func)) :
  dom (wired R l table) = list_to_set (Name <$> l) ∪ dom table.
Proof.
  revert table. induction l as [|plug l IH]; intros table; simpl.
  - by rewrite (left_id_L ∅ (∪)).
  - rewrite IH, dom_insert_L, (assoc_L (∪)).
    by rewrite (comm_L (∪) (list_to_set (Name <$> l)) {[Name plug]}).
Qed.

(** X4: registration from the empty table of [Client] stores an entry
    under the name of every descriptor and under no other key. *)
Theorem table_holds_the_names (entries : list (Plugin CQEvent Func)) p :
  pluginEntries (Client p) = ∅ →
  Forall (λ plug, Load plug = None) entries →
  dom (pluginEntries (Client (registerAllPlugins R entries p).2))
  = list_to_set (Name <$> entries).
Proof.
  intros Hempty Hload. rewrite registerAllPlugins_returned by done.
  simpl. by rewrite Hempty, dom_wired, dom_empty_L, (right_id_L ∅ (∪)).
Qed.

Lemma wired_perm (l l' : list (Plugin CQEvent Func)) :
  l ≡ₚ l' → NoDup (Name <$> l) →
  ∀ table : gmap string (pluginEntry CQEvent Func), wired R l table = wired R l' table.
Proof.
  induction 1 as [|plug l l' Hperm IH|plug1 plug2 l|l1 l2 l3 H12 IH12 H23 IH23];
    intros Hnd table.
  - done.
  - simpl. apply IH. rewrite fmap_cons in Hnd. by apply NoDup_cons in Hnd as [_ ?].
  - simpl. rewrite !fmap_cons in Hnd.
    apply NoDup_cons in Hnd as [Hne _]. rewrite not_elem_of_cons in Hne.
    destruct Hne as [Hne _]. by rewrite insert_insert_ne.
  - rewrite IH12 by done. apply IH23. by rewrite <-H12.
Qed.

(** X5: when the descriptors have distinct names, the client that
    registration leaves does not depend on the order of the list. *)
Theorem registration_order_irrelevant (entries entries' : list (Plugin CQEvent Func)) p :
  entries ≡ₚ entries' →
  NoDup (Name <$> entries) →
  Forall (λ plug, Load plug = None) entries →
  Client (registerAllPlugins R entries p).2 = Client (registerAllPlugins R entries' p).2.
Proof.
  intros Hperm Hnd Hload.
  rewrite !registerAllPlugins_returned by (done || by rewrite <-Hperm).
  simpl. unfold setPluginEntries. by rewrite (wired_perm entries entries').
Qed.

Lemma range_empty `{Countable K} {V} : range R (∅ : gmap K V) = [].
Proof. apply Permutation_nil_r. by rewrite (range_perm R), map_to_list_empty. Qed.

(** The calls that the wired table gives for an event: for a plugin
    without handlers there is the call of the closure, which calls nothing,
    and no other call. *)
Lemma handlerless_plugin_trace (entries : list (Plugin CQEvent Func)) plug event :
  lastNamed entries plug →
  Handlers plug = ∅ →
  effectsFor (Name plug) (range R (wired R entries ∅) ≫= entryTrace R event)
  = [CallNoFilter (Name plug) event].
Proof.
  intros Hlast Hnone.
  pose proof (wired_lookup_last R entries plug ∅ Hlast) as Hentry.
  unfold effectsFor.
  rewrite (select_entry R _ event _ (Name plug) (entryOf R plug) Hentry);
    last by intros e He; rewrite decide_False.
  rewrite entryTrace_entryOf.
  assert (noFilterHandlers R plug = []) as ->.
  { unfold noFilterHandlers. by rewrite Hnone, range_empty. }
  assert (fitlers (entryOf R plug) = ∅) as ->.
  { simpl. apply map_eq. intros k. rewrite lookup_empty.
    apply map_lookup_filter_None. right. intros f _. simpl.
    rewrite Hnone, lookup_empty. by intros [? ?]. }
  rewrite range_empty. simpl. by rewrite decide_True.
Qed.


(** *** What a piece of code may emit, and what it leaves alone *)

Lemma emitsOnly_ret {A} ok (a : A) : emitsOnly ok (mret a : Go CQEvent Func A).
Proof. intros p. exists []. by rewrite app_nil_r. Qed.

Lemma emitsOnly_bind {A B} ok (m : Go CQEvent Func A) (f : A → Go CQEvent Func B) :
  emitsOnly ok m → (∀ a, emitsOnly ok (f a)) → emitsOnly ok (m ≫= f).
Proof.
  intros Hm Hf p. destruct (Hm p) as (t1 & Ht1 & Hok1). unfold mbind, Go_bind.
  destruct (m p) as [[a|v|code] p']; simpl in *; [|by exists t1..].
  destruct (Hf a p') as (t2 & Ht2 & Hok2). exists (t1 ++ t2).
  rewrite Ht2, Ht1, Forall_app. by rewrite <-app_assoc.
Qed.

Lemma emitsOnly_emit ok (e : effect CQEvent Func) : ok e = true → emitsOnly ok (emit e).
Proof. intros He p. exists [e]. split; [done|by apply Forall_singleton]. Qed.

Lemma emitsOnly_modifyClient ok (f : cqclient CQEvent Func → cqclient CQEvent Func) :
  emitsOnly ok (modifyClient f).
Proof. intros p. exists []. simpl. by rewrite app_nil_r. Qed.

Lemma emitsOnly_getClient ok : emitsOnly ok (getClient (CQEvent:=CQEvent) (Func:=Func)).
Proof. intros p. exists []. simpl. by rewrite app_nil_r. Qed.

Lemma emitsOnly_panic ok (v : string) :
  emitsOnly ok (panic (CQEvent:=CQEvent) (Func:=Func) v).
Proof. intros p. exists []. simpl. by rewrite app_nil_r. Qed.

Lemma emitsOnly_exit ok (code : Z) :
  emitsOnly ok (exit (CQEvent:=CQEvent) (Func:=Func) code).
Proof. intros p. exists []. simpl. by rewrite app_nil_r. Qed.

Lemma emitsOnly_forEach {A} ok (l : list A) (body : A → Go CQEvent Func ()) :
  (∀ x, emitsOnly ok (body x)) → emitsOnly ok (forEach l body).
Proof.
  intros Hbody. induction l as [|x l IH]; simpl.
  - apply emitsOnly_ret.
  - apply emitsOnly_bind; [apply Hbody|by intros _].
Qed.

Lemma emitsOnly_foldGo {A B} ok (body : B → A → Go CQEvent Func B) (l : list A) (acc : B) :
  (∀ acc x, emitsOnly ok (body acc x)) → emitsOnly ok (foldGo body acc l).
Proof.
  intros Hbody. revert acc. induction l as [|x l IH]; intros acc; simpl.
  - apply emitsOnly_ret.
  - apply emitsOnly_bind; [apply Hbody|done].
Qed.

Lemma keepsField_ret {A B} (proj : cqclient CQEvent Func → B) (a : A) :
  keepsField proj (mret a : Go CQEvent Func A).
Proof. by intros p. Qed.

Lemma keepsField_bind {A B C} (proj : cqclient CQEvent Func → C)
    (m : Go CQEvent Func A) (f : A → Go CQEvent Func B) :
  keepsField proj m → (∀ a, keepsField proj (f a)) → keepsField proj (m ≫= f).
Proof.
  intros Hm Hf p. specialize (Hm p). unfold mbind, Go_bind.
  destruct (m p) as [[a|v|code] p']; simpl in *; [|done..].
  by rewrite Hf.
Qed.

Lemma keepsField_emit {B} (proj : cqclient CQEvent Func → B) (e : effect CQEvent Func) :
  keepsField proj (emit e).
Proof. by intros p. Qed.

Lemma keepsField_modifyClient {B} (proj : cqclient CQEvent Func → B)
    (f : cqclient CQEvent Func → cqclient CQEvent Func) :
  (∀ c, proj (f c) = proj c) → keepsField proj (modifyClient f).
Proof. intros Hf p. simpl. apply Hf. Qed.

Lemma keepsField_getClient {B} (proj : cqclient CQEvent Func → B) :
  keepsField proj (getClient (CQEvent:=CQEvent) (Func:=Func)).
Proof. by intros p. Qed.

Lemma keepsField_panic {B} (proj : cqclient CQEvent Func → B) (v : string) :
  keepsField proj (panic (CQEvent:=CQEvent) (Func:=Func) v).
Proof. by intros p. Qed.

Lemma keepsField_exit {B} (proj : cqclient CQEvent Func → B) (code : Z) :
  keepsField proj (exit (CQEvent:=CQEvent) (Func:=Func) code).
Proof. by intros p. Qed.

Lemma keepsField_forEach {A B} (proj : cqclient CQEvent Func → B) (l : list A)
    (body : A → Go CQEvent Func ()) :
  (∀ x, keepsField proj (body x)) → keepsField proj (forEach l body).
Proof.
  intros Hbody. induction l as [|x l IH]; simpl.
  - apply keepsField_ret.
  - apply keepsField_bind; [apply Hbody|by intros _].
Qed.

(** Close goals [emitsOnly ok m] and [keepsField proj m] by following the
    structure of [m]. *)
Ltac emits :=
  repeat first
    [ apply emitsOnly_ret | apply emitsOnly_getClient | apply emitsOnly_panic
    | apply emitsOnly_exit | apply emitsOnly_modifyClient
    | apply emitsOnly_bind; [|intros ?]
    | apply emitsOnly_emit; reflexivity
    | apply emitsOnly_forEach; intros ?
    | apply emitsOnly_foldGo; intros ? ?
    | progress cbv zeta
    | match goal with x : (_ * _)%type |- _ => destruct x end ].

Ltac unchanged :=
  repeat first
    [ apply keepsField_ret | apply keepsField_getClient | apply keepsField_panic
    | apply keepsField_exit | apply keepsField_emit
    | apply keepsField_bind; [|intros ?]
    | apply keepsField_modifyClient; by intros ?
    | apply keepsField_forEach; intros ?
    | progress cbv zeta
    | match goal with x : (_ * _)%type |- _ => destruct x end ].

Lemma eventOnMessage_emits raw :
  emitsOnly (λ e, isPluginCall e || isPrintln e)
    (eventOnMessage (Func:=Func) R unmarshalEvent raw).
Proof.
  unfold eventOnMessage. destruct (unmarshalEvent raw) as [event|errMsg].
  - emits. unfold routeEntry. emits.
    + unfold invoke. repeat case_match; emits.
    + unfold routeFilter, callFilter. emits.
      case_match; emits. unfold invoke. repeat case_match; emits.
  - intros p. exists [Println errMsg]. split; [reflexivity|by apply Forall_singleton].
Qed.


Lemma eventOnMessage_keeps_client raw :
  keepsField id (eventOnMessage (Func:=Func) R unmarshalEvent raw).
Proof.
  unfold eventOnMessage. destruct (unmarshalEvent raw) as [event|errMsg].
  - unchanged. unfold routeEntry. unchanged.
    + unfold invoke. repeat case_match; unchanged.
    + unfold routeFilter, callFilter. unchanged.
      case_match; unchanged. unfold invoke. repeat case_match; unchanged.
  - unfold Panicln. unchanged.
Qed.

(** X7: the event callback only reads the client.  For every message and
    every state, whatever its outcome, the client is afterwards what it was
    (the dispatch table, the queue and the connections), and every effect it
    made is a call of a filter, a handler or a closure, or a line printed by
    the standard logger: it sends nothing, logs nothing through
    [logger.Service], and touches neither the queue nor the lock. *)
Theorem event_callback_only_calls_plugins raw p :
  Client (eventOnMessage R unmarshalEvent raw p).2 = Client p ∧
  ∃ t,
    trace (eventOnMessage R unmarshalEvent raw p).2 = trace p ++ t ∧
    Forall (λ e, isPluginCall e || isPrintln e = true) t.
Proof.
  split.
  - apply (eventOnMessage_keeps_client raw p).
  - apply (eventOnMessage_emits raw p).
Qed.

Lemma perform_keeps_table (a : action CQEvent Func) :
  isInitialize a = false →
  keepsField pluginEntries (perform R unmarshalResponse unmarshalEvent marshal a).
Proof.
  destruct a; simpl; intros Hinit; [discriminate|..].
  - unfold Connect. unchanged.
  - unfold SendGroupMsg. unchanged. case_match; unchanged.
  - unchanged. unfold handleConnect. case_match; unchanged.
  - unchanged. unfold handleConnect. case_match; unchanged.
  - unfold handleError. unchanged.
  - unfold apiOnMessage, queueLoad, queueDelete. case_match; unchanged.
    all: case_match; unchanged.
  - intros p. pose proof (eventOnMessage_keeps_client raw p) as Hp.
    simpl in Hp. by rewrite Hp.
  - unfold sweep, queueRange, queueDelete. unchanged.
    all: case_match; unchanged.
Qed.

(** X8: the dispatch table changes by [Initialize] only.  Whatever else
    happens to the client (connecting, sending, connection callbacks, routed
    events, acknowledgements, sweeps), in whatever order, the table stays the
    one it was. *)
Theorem table_changes_by_Initialize_only (actions : list (action CQEvent Func)) p :
  Forall (λ a, isInitialize a = false) actions →
  pluginEntries (Client (runAll R unmarshalResponse unmarshalEvent marshal actions p))
  = pluginEntries (Client p).
Proof.
  revert p. induction actions as [|a l IH]; intros p Hl; simpl; first done.
  apply Forall_cons in Hl as [Ha Hl]. rewrite IH by done.
  by apply perform_keeps_table.
Qed.


(** *** Acknowledgements *)

(** X9: an acknowledgement whose echo is recorded removes that echo and
    nothing else.  The callback returns; it reads the queue, takes the lock,
    deletes the echo and releases the lock; afterwards the echo is no longer
    recorded, every other echo is recorded exactly if it was before, and the
    dispatch table is untouched. *)
Theorem acknowledgement_resolves_its_echo raw (msg : CQWSResponse) p :
  unmarshalResponse raw = inl msg →
  tracked (RespEcho msg) p = true →
  ∃ p',
    apiOnMessage unmarshalResponse raw p = (Returned (), p') ∧
    effectsOf (apiOnMessage unmarshalResponse raw) p
    = [QueueLoad (RespEcho msg); MuLock; QueueDelete (RespEcho msg); MuUnlock] ∧
    tracked (RespEcho msg) p' = false ∧
    (∀ echo, echo ≠ RespEcho msg → tracked echo p' = tracked echo p) ∧
    pluginEntries (Client p') = pluginEntries (Client p).
Proof.
  intros Hraw Htracked. eexists. split.
  { rewrite (apiOnMessage_returned unmarshalResponse raw msg) by done.
    by rewrite Htracked. }
  split_and!.
  - unfold effectsOf. rewrite (apiOnMessage_returned unmarshalResponse raw msg) by done.
    rewrite Htracked. simpl. by rewrite drop_app_length.
  - unfold tracked in *. simpl. destruct (echoqueue (Client p)) as [q|]; simpl; last done.
    by rewrite lookup_delete_eq.
  - intros echo Hne. unfold tracked. simpl.
    destruct (echoqueue (Client p)) as [q|]; simpl; last done.
    by rewrite lookup_delete_ne.
  - done.
Qed.

(** X10: an acknowledgement whose echo is not recorded (unknown, already
    removed, or stored with the value false) is a no-op: the callback reads
    the queue once, does not take the lock, leaves the client as it is, logs
    nothing and returns. *)
Theorem acknowledgement_of_unknown_echo raw (msg : CQWSResponse) p :
  unmarshalResponse raw = inl msg →
  tracked (RespEcho msg) p = false →
  apiOnMessage unmarshalResponse raw p
  = (Returned (), extend p [QueueLoad (RespEcho msg)]).
Proof.
  intros Hraw Htracked.
  rewrite (apiOnMessage_returned unmarshalResponse raw msg) by done.
  by rewrite Htracked.
Qed.

(** The effects of the acknowledgement callback, where the call of the
    logger returns. *)
Lemma acknowledgement_effects raw p :
  (apiOnMessage unmarshalResponse raw p).1 = Returned () ∧
  addedLogs (effectsOf (apiOnMessage unmarshalResponse raw) p)
  = match unmarshalResponse raw with
    | inl _ => []
    | inr err => [(logger.LogTypeError, err)]
    end ∧
  sentFrames (effectsOf (apiOnMessage unmarshalResponse raw) p) = [] ∧
  filter isPluginCall (effectsOf (apiOnMessage unmarshalResponse raw) p) = [].
Proof.
  unfold effectsOf. destruct (unmarshalResponse raw) as [msg|err] eqn:Hraw.
  - rewrite (apiOnMessage_returned unmarshalResponse raw msg) by done.
    destruct (tracked (RespEcho msg) p); simpl; by rewrite drop_app_length.
  - rewrite (apiOnMessage_decode_error unmarshalResponse raw err) by done.
    simpl. by rewrite drop_app_length.
Qed.


(** *** The sweep *)

Lemma swept_eq_filter (now : Z) (q : gmap Z bool) :
  foldl (λ q es, if expired now es then delete es.1 q else q) q (range R q)
  = filter (λ es, expired now es = false) q.
Proof.
  apply map_eq. intros k. destruct (q !! k) as [s|] eqn:Hk.
  - destruct (expired now (k, s)) eqn:Hexp.
    + rewrite (swept_lookup_gone now _ _ k s) by (done || by apply elem_of_range).
      symmetry. apply map_lookup_filter_None. right. intros s' Hs'. simpl.
      assert (s' = s) as -> by congruence. by rewrite Hexp.
    + rewrite swept_lookup_keep, Hk.
      * symmetry. by apply map_lookup_filter_Some.
      * intros s' Hs'%elem_of_range. by assert (s' = s) as -> by congruence.
  - rewrite swept_lookup_None by done.
    symmetry. apply map_lookup_filter_None. by left.
Qed.

Lemma addedLogs_sweepTrace (now : Z) (l : list (Z * bool)) :
  addedLogs (sweepTrace (CQEvent:=CQEvent) (Func:=Func) now l)
  = (λ es, (logger.LogTypeError, timeoutText es.1)) <$> filter (λ es, expired now es = true) l.
Proof.
  induction l as [|es l IH]; first done.
  rewrite sweepTrace_cons. unfold addedLogs in *. rewrite omap_app, IH.
  destruct (expired now es) eqn:Hexp.
  - by rewrite filter_cons_True.
  - rewrite filter_cons_False; [done|]. by rewrite Hexp.
Qed.

(** What a sweep over an allocated queue leaves and logs. *)
Lemma sweep_result (now : Z) (q : gmap Z bool) p :
  echoqueue (Client p) = Some q →
  ∃ p',
    sweep R now p = (Returned (), p') ∧
    echoqueue (Client p') = Some (filter (λ es, expired now es = false) q) ∧
    addedLogs (effectsOf (sweep R now) p)
    ≡ₚ (λ es, (logger.LogTypeError, timeoutText es.1))
         <$> map_to_list (filter (λ es, expired now es = true) q).
Proof.
  intros Hq. eexists. split; first apply sweep_returned. split.
  - simpl. by rewrite Hq, sweepQueue_Some, swept_eq_filter.
  - unfold effectsOf. rewrite sweep_returned. simpl. rewrite drop_app_length, Hq.
    change (addedLogs (QueueRange :: ?t)) with (addedLogs t).
    simpl. rewrite addedLogs_sweepTrace.
    by rewrite map_to_list_filter, (range_perm R).
Qed.

Lemma sweepTrace_guarded (now : Z) (l : list (Z * bool)) :
  filter isDelete (unguarded false (sweepTrace (CQEvent:=CQEvent) (Func:=Func) now l)) = [] ∧
  heldAfter false (sweepTrace (CQEvent:=CQEvent) (Func:=Func) now l) = false.
Proof.
  induction l as [|es l [IH1 IH2]]; first done.
  rewrite sweepTrace_cons. by destruct (expired now es).
Qed.

(** X13: every deletion from the queue is made under the lock, and the
    lock is released again: in the effects of the acknowledgement callback
    and of a sweep, whatever the frame, the instant and the state, no
    [delete] occurs while [mu] is not held, and [mu] is not held at the end. *)
Theorem deletions_hold_the_lock raw (now : Z) p :
  (filter isDelete (unguarded false (effectsOf (apiOnMessage unmarshalResponse raw) p)) = [] ∧
   heldAfter false (effectsOf (apiOnMessage unmarshalResponse raw) p) = false) ∧
  (filter isDelete (unguarded false (effectsOf (sweep R now) p)) = [] ∧
   heldAfter false (effectsOf (sweep R now) p) = false).
Proof.
  unfold effectsOf. split.
  - destruct (unmarshalResponse raw) as [msg|err] eqn:Hraw.
    + rewrite (apiOnMessage_returned unmarshalResponse raw msg) by done.
      destruct (tracked (RespEcho msg) p); simpl; by rewrite drop_app_length.
    + rewrite (apiOnMessage_decode_error unmarshalResponse raw err) by done.
      simpl. by rewrite drop_app_length.
  - rewrite sweep_returned. simpl. rewrite drop_app_length.
    apply (sweepTrace_guarded now).
Qed.

Lemma sweep_nothing_expired (now : Z) (l : list (Z * bool)) (q : gomap Z bool) :
  Forall (λ es, expired now es = false) l →
  sweepTrace (CQEvent:=CQEvent) (Func:=Func) now l = [] ∧ sweepQueue now l q = q.
Proof.
  induction 1 as [|es l Hes _ [IH1 IH2]]; first done.
  by rewrite sweepTrace_cons, sweepQueue_cons, Hes, IH1, IH2.
Qed.

(** X14: a second sweep at the same instant finds nothing to do: it only
    ranges over the queue, removes nothing and logs nothing. *)
Theorem sweep_twice_is_sweep_once (now : Z) p :
  sweep R now (sweep R now p).2
  = (Returned (), extend (sweep R now p).2 [QueueRange]).
Proof.
  destruct (echoqueue (Client p)) as [q|] eqn:Hq.
  - destruct (sweep_result now q p Hq) as (p' & -> & Hq' & _). simpl.
    rewrite sweep_returned, Hq'. simpl.
    destruct (sweep_nothing_expired now
                (range R (filter (λ es, expired now es = false) q))
                (Some (filter (λ es, expired now es = false) q))) as [-> Hsame].
    { apply Forall_forall. intros [k s] Hin%elem_of_range.
      by apply map_lookup_filter_Some in Hin as [_ ?]. }
    unfold extend. do 2 f_equal. destruct p' as [[] ?]; simpl in *.
    unfold setEchoqueue; simpl. by rewrite Hq', Hsame.
  - rewrite (sweep_untracked R now p Hq). simpl. by apply sweep_untracked.
Qed.

(** Where every call of the logger returns: the sweep at [now] removes
    the echo [T] exactly when [T + 30 < now]. *)
Lemma sweep_boundary (T now : Z) (q : gmap Z bool) p :
  echoqueue (Client p) = Some q →
  q !! T = Some true →
  - 2 ^ 63 ≤ now - T < 2 ^ 63 →
  tracked T (sweep R now p).2 = false ↔ T + timeForWait < now.
Proof.
  intros Hq HT Hfit.
  destruct (sweep_result now q p Hq) as (p' & -> & Hq' & _).
  unfold tracked. simpl. rewrite Hq'. simpl.
  assert (expired now (T, true) = bool_decide (T + timeForWait < now)) as Hexp.
  { unfold expired, sub64; simpl. rewrite wrap64_small by done.
    apply bool_decide_ext. unfold timeForWait. lia. }
  destruct (decide (T + timeForWait < now)) as [Hlt|Hge].
  - rewrite bool_decide_eq_true_2 in Hexp by done.
    rewrite (proj2 (map_lookup_filter_None _ _ T)); first done.
    right. intros s Hs. assert (s = true) as -> by congruence. simpl. by rewrite Hexp.
  - rewrite bool_decide_eq_false_2 in Hexp by done.
    rewrite (proj2 (map_lookup_filter_Some _ _ T true)) by done. simpl.
    split; [done|by intros ?].
Qed.

(** X16: the subtraction wraps.  An echo [T] that lies [2^63] seconds or
    more before [now] (both within [int64]) has a negative computed age and
    is never removed by the sweep, however old it is. *)
Theorem sweep_keeps_echo_on_overflow (T now : Z) (q : gmap Z bool) p :
  echoqueue (Client p) = Some q →
  q !! T = Some true →
  - 2 ^ 63 ≤ T →
  now < 2 ^ 63 →
  2 ^ 63 ≤ now - T →
  tracked T (sweep R now p).2 = true.
Proof.
  intros Hq HT HTmin Hnowmax Hfar.
  destruct (sweep_result now q p Hq) as (p' & -> & Hq' & _).
  unfold tracked. simpl. rewrite Hq'. simpl.
  rewrite (proj2 (map_lookup_filter_Some _ _ T true)); first done.
  split; first done. unfold expired, sub64, wrap64; simpl.
  rewrite bool_decide_eq_false_2; first done.
  replace (now - T + 2 ^ 63) with ((now - T - 2 ^ 63) + 1 * 2 ^ 64) by lia.
  rewrite Z_mod_plus_full, Z.mod_small by lia. unfold timeForWait. lia.
Qed.

End ClientProperties.

(** ** Properties of the logger package *)

(** *** Escaping line breaks *)

Lemma string_app_cons (c : Ascii.ascii) (s1 s2 : string) :
  String c s1 +:+ s2 = String c (s1 +:+ s2).
Proof. reflexivity. Qed.

Lemma string_app_nil_l (s : string) : "" +:+ s = s.
Proof. reflexivity. Qed.

Lemma string_app_assoc (s1 s2 s3 : string) : (s1 +:+ s2) +:+ s3 = s1 +:+ (s2 +:+ s3).
Proof.
  induction s1 as [|c s1 IH]; first done.
  by rewrite !string_app_cons, IH.
Qed.

Lemma string_app_nil_r (s : string) : s +:+ "" = s.
Proof. induction s as [|c s IH]; [done|by rewrite string_app_cons, IH]. Qed.

Lemma hasChar_app (c : Ascii.ascii) (s1 s2 : string) :
  hasChar c (s1 +:+ s2) = hasChar c s1 || hasChar c s2.
Proof.
  induction s1 as [|x s1 IH]; first done.
  rewrite string_app_cons. simpl. by rewrite IH, orb_assoc.
Qed.

Lemma replaceChar_app (c : Ascii.ascii) (r s1 s2 : string) :
  replaceChar c r (s1 +:+ s2) = replaceChar c r s1 +:+ replaceChar c r s2.
Proof.
  induction s1 as [|x s1 IH]; first done.
  rewrite string_app_cons. simpl. rewrite IH.
  destruct (Ascii.eqb x c); [by rewrite string_app_assoc|done].
Qed.

Lemma replaceChar_absent (c : Ascii.ascii) (r s : string) :
  hasChar c s = false → replaceChar c r s = s.
Proof.
  induction s as [|x s IH]; simpl; first done.
  intros [Hx Hs]%orb_false_elim. rewrite Hx. by rewrite IH.
Qed.

Lemma replaceChar_removes (c : Ascii.ascii) (r s : string) :
  hasChar c r = false → hasChar c (replaceChar c r s) = false.
Proof.
  intros Hr. induction s as [|x s IH]; simpl; first done.
  destruct (Ascii.eqb x c) eqn:Hx; simpl.
  - by rewrite hasChar_app, Hr, IH.
  - by rewrite Hx, IH.
Qed.

Lemma replaceChar_keeps_absent (c d : Ascii.ascii) (r s : string) :
  hasChar d r = false → hasChar d s = false → hasChar d (replaceChar c r s) = false.
Proof.
  intros Hr. induction s as [|x s IH]; simpl; first done.
  intros [Hx Hs]%orb_false_elim. destruct (Ascii.eqb x c); simpl.
  - by rewrite hasChar_app, Hr, IH.
  - by rewrite Hx, IH.
Qed.

(** X17: the text that [escapeCRLF] returns holds no carriage return and
    no line feed, whatever text it is given. *)
Theorem escapeCRLF_has_no_line_break (s : string) :
  hasChar CR (escapeCRLF s) = false ∧ hasChar LF (escapeCRLF s) = false.
Proof.
  unfold escapeCRLF. split.
  - apply replaceChar_keeps_absent; first done. by apply replaceChar_removes.
  - by apply replaceChar_removes.
Qed.

(** [escapeCRLF] returns a text without carriage return and line feed as
    it is. *)
Lemma escapeCRLF_clean (s : string) :
  hasChar CR s = false → hasChar LF s = false → escapeCRLF s = s.
Proof.
  intros Hcr Hlf. unfold escapeCRLF.
  by rewrite (replaceChar_absent CR), replaceChar_absent.
Qed.

(** X18: [escapeCRLF] goes through concatenation: escaping the parts of a
    text and joining them gives the escaped text. *)
Theorem escapeCRLF_by_parts (s1 s2 : string) :
  escapeCRLF (s1 +:+ s2) = escapeCRLF s1 +:+ escapeCRLF s2.
Proof. unfold escapeCRLF. by rewrite !replaceChar_app. Qed.

(** *** Hiding host addresses *)

Lemma spanDigits_spec (s d r : string) :
  spanDigits s = (d, r) →
  s = d +:+ r ∧ allDigits d = true ∧ startsWithDigit r = false.
Proof.
  revert d r. induction s as [|c s IH]; intros d r; simpl.
  - by intros [= <- <-].
  - destruct (isDigit c) eqn:Hc.
    + destruct (spanDigits s) as [d' r'] eqn:Hs. intros [= <- <-].
      destruct (IH d' r' eq_refl) as (-> & Hd & Hr).
      rewrite string_app_cons. simpl. by rewrite Hc, Hd.
    + intros [= <- <-]. simpl. by rewrite Hc.
Qed.

Lemma spanDigits_app (a r : string) :
  allDigits a = true → startsWithDigit r = false → spanDigits (a +:+ r) = (a, r).
Proof.
  intros Ha Hr. induction a as [|c a IH].
  - rewrite string_app_nil_l. destruct r as [|x r]; simpl in *; [done|by rewrite Hr].
  - rewrite string_app_cons. simpl in *.
    apply andb_true_iff in Ha as [Hc Ha]. by rewrite Hc, IH.
Qed.

Lemma digits1_app (a r : string) :
  allDigits a = true → a ≠ "" → startsWithDigit r = false →
  digits1 (a +:+ r) = Some (a, r).
Proof.
  intros Ha Hne Hr. unfold digits1. rewrite spanDigits_app by done.
  by destruct a.
Qed.

Lemma digits1_spec (s d r : string) :
  digits1 s = Some (d, r) →
  s = d +:+ r ∧ d ≠ "" ∧ allDigits d = true ∧ startsWithDigit r = false.
Proof.
  unfold digits1. destruct (spanDigits s) as [d' r'] eqn:Hs.
  apply spanDigits_spec in Hs as (-> & Hd & Hr).
  destruct d' as [|c d']; [done|]. by intros [= <- <-].
Qed.

Lemma char1_spec (c : Ascii.ascii) (s r : string) :
  char1 c s = Some r → s = String c r.
Proof.
  destruct s as [|x s]; simpl; first done.
  destruct (Ascii.eqb x c) eqn:Hx; last done.
  apply Ascii.eqb_eq in Hx as ->. by intros [= ->].
Qed.

Lemma port_length (s g r : string) :
  port s = (g, r) → (String.length r ≤ String.length s)%nat.
Proof.
  unfold port. destruct (char1 colon s) as [r1|] eqn:H1; last by intros [= <- <-].
  apply char1_spec in H1 as ->.
  destruct (digits1 r1) as [[g3 r']|] eqn:H2; last by intros [= <- <-].
  apply digits1_spec in H2 as (-> & _). intros [= <- <-].
  simpl. rewrite string_length_app. lia.
Qed.

Lemma matchHost_length (s g1 g2 g3 rest : string) :
  matchHost s = Some (g1, g2, g3, rest) →
  (String.length rest < String.length s)%nat.
Proof.
  unfold matchHost. intros Hm.
  destruct (digits1 s) as [[a s1]|] eqn:H1; simpl in Hm; last done.
  apply digits1_spec in H1 as (-> & Ha & _).
  destruct (char1 dot s1) as [s2|] eqn:H2; simpl in Hm; last done.
  apply char1_spec in H2 as ->.
  destruct (digits1 s2) as [[b s3]|] eqn:H3; simpl in Hm; last done.
  apply digits1_spec in H3 as (-> & _).
  destruct (char1 dot s3) as [s4|] eqn:H4; simpl in Hm; last done.
  apply char1_spec in H4 as ->.
  destruct (digits1 s4) as [[c s5]|] eqn:H5; simpl in Hm; last done.
  apply digits1_spec in H5 as (-> & _).
  destruct (char1 dot s5) as [s6|] eqn:H6; simpl in Hm; last done.
  apply char1_spec in H6 as ->.
  destruct (digits1 s6) as [[d s7]|] eqn:H7; simpl in Hm; last done.
  apply digits1_spec in H7 as (-> & _).
  destruct (port s7) as [g r] eqn:H8. injection Hm as <- <- <- <-.
  apply port_length in H8.
  rewrite ?string_length_app, ?string_app_cons. simpl.
  rewrite ?string_length_app, ?string_app_cons. simpl.
  rewrite ?string_length_app. simpl. rewrite ?string_length_app. lia.
Qed.

Lemma escapeHostFrom_fuel (fuel1 fuel2 : nat) (s : string) :
  (String.length s ≤ fuel1)%nat → (String.length s ≤ fuel2)%nat →
  escapeHostFrom fuel1 s = escapeHostFrom fuel2 s.
Proof.
  revert fuel2 s. induction fuel1 as [|fuel1 IH]; intros fuel2 s H1 H2.
  - destruct s; simpl in H1; [|lia]. by destruct fuel2.
  - destruct fuel2 as [|fuel2].
    + destruct s; simpl in H2; [done|lia].
    + destruct s as [|c s]; first done. cbn [escapeHostFrom].
      destruct (matchHost (String c s)) as [[[[g1 g2] g3] rest]|] eqn:Hm.
      * apply matchHost_length in Hm. simpl in *. f_equal. apply IH; lia.
      * simpl in *. f_equal. apply IH; lia.
Qed.

Lemma escapeHost_match (s g1 g2 g3 rest : string) :
  matchHost s = Some (g1, g2, g3, rest) →
  escapeHost s = hostTemplate g1 g2 g3 +:+ escapeHost rest.
Proof.
  intros Hm. unfold escapeHost. pose proof (matchHost_length _ _ _ _ _ Hm) as Hlen.
  destruct s as [|c s]; first done. cbn [String.length escapeHostFrom]. rewrite Hm.
  f_equal. apply escapeHostFrom_fuel; simpl in *; lia.
Qed.

Lemma escapeHost_skip (c : Ascii.ascii) (s : string) :
  matchHost (String c s) = None →
  escapeHost (String c s) = String c (escapeHost s).
Proof. intros Hm. unfold escapeHost. cbn [String.length escapeHostFrom]. by rewrite Hm. Qed.

Lemma matchHost_needs_dot (s : string) : hasChar dot s = false → matchHost s = None.
Proof.
  intros Hdot. unfold matchHost.
  destruct (digits1 s) as [[a s1]|] eqn:H1; simpl; last done.
  apply digits1_spec in H1 as (-> & _).
  rewrite hasChar_app in Hdot. apply orb_false_elim in Hdot as [_ Hdot].
  destruct s1 as [|x s1]; simpl in *; first done.
  apply orb_false_elim in Hdot as [-> _]. done.
Qed.

(** X19: [escapeHost] returns a text that holds no full stop as it is. *)
Theorem escapeHost_without_dot (s : string) :
  hasChar dot s = false → escapeHost s = s.
Proof.
  induction s as [|c s IH]; first done.
  intros Hdot. rewrite escapeHost_skip by by apply matchHost_needs_dot.
  simpl in Hdot. apply orb_false_elim in Hdot as [_ Hdot]. by rewrite IH.
Qed.

Lemma startsWithDigit_dot (s : string) : startsWithDigit (String dot s) = false.
Proof. reflexivity. Qed.

Lemma port_absent (s : string) : startsWithPort s = false → port s = ("", s).
Proof.
  unfold port. destruct s as [|x s]; simpl; first done.
  destruct (Ascii.eqb x colon); simpl; last done.
  intros Hs. unfold digits1. destruct s as [|y s]; simpl in *; first done.
  by rewrite Hs.
Qed.

Lemma port_present (p rest : string) :
  allDigits p = true → p ≠ "" → startsWithDigit rest = false →
  port (String colon (p +:+ rest)) = (p, rest).
Proof. intros Hp Hne Hrest. unfold port. simpl. by rewrite digits1_app. Qed.

(** A dotted quad at the start of a text is a match of the pattern. *)
Lemma matchHost_quad (a b c d rest : string) :
  allDigits a = true → a ≠ "" →
  allDigits b = true → b ≠ "" →
  allDigits c = true → c ≠ "" →
  allDigits d = true → d ≠ "" →
  startsWithDigit rest = false →
  matchHost (a +:+ String dot (b +:+ String dot (c +:+ String dot (d +:+ rest))))
  = Some (a, d, (port rest).1, (port rest).2).
Proof.
  intros Ha Hane Hb Hbne Hc Hcne Hd Hdne Hrest. unfold matchHost.
  rewrite digits1_app by done. simpl.
  rewrite digits1_app by done. simpl.
  rewrite digits1_app by done. simpl.
  rewrite digits1_app by done. simpl.
  by destruct (port rest).
Qed.

(** X20: an address without port gains a colon.  Where a text starts with
    four groups of digits separated by full stops, and neither a digit nor a
    colon with a digit follows, [escapeHost] keeps the first and the last
    group, puts [*] for the two in the middle, appends a colon, and goes on
    with what follows. *)
Theorem escapeHost_address (a b c d rest : string) :
  allDigits a = true → a ≠ "" →
  allDigits b = true → b ≠ "" →
  allDigits c = true → c ≠ "" →
  allDigits d = true → d ≠ "" →
  startsWithDigit rest = false →
  startsWithPort rest = false →
  escapeHost (a +:+ "." +:+ b +:+ "." +:+ c +:+ "." +:+ d +:+ rest)
  = a +:+ ".*.*." +:+ d +:+ ":" +:+ escapeHost rest.
Proof.
  intros Ha Hane Hb Hbne Hc Hcne Hd Hdne Hrest Hport.
  change (a +:+ "." +:+ b +:+ "." +:+ c +:+ "." +:+ d +:+ rest)
    with (a +:+ String dot (b +:+ String dot (c +:+ String dot (d +:+ rest)))).
  rewrite (escapeHost_match _ a d (port rest).1 (port rest).2)
    by by apply matchHost_quad.
  rewrite port_absent by done. unfold hostTemplate. simpl.
  by rewrite !string_app_assoc.
Qed.

(** X21: an address with a port keeps the port.  Where the four groups are
    followed by a colon and a group of digits, [escapeHost] keeps the first
    group, the last group and the port, puts [*] for the two groups in the
    middle, and goes on with what follows the port. *)
Theorem escapeHost_address_with_port (a b c d p rest : string) :
  allDigits a = true → a ≠ "" →
  allDigits b = true → b ≠ "" →
  allDigits c = true → c ≠ "" →
  allDigits d = true → d ≠ "" →
  allDigits p = true → p ≠ "" →
  startsWithDigit rest = false →
  escapeHost (a +:+ "." +:+ b +:+ "." +:+ c +:+ "." +:+ d +:+ ":" +:+ p +:+ rest)
  = a +:+ ".*.*." +:+ d +:+ ":" +:+ p +:+ escapeHost rest.
Proof.
  intros Ha Hane Hb Hbne Hc Hcne Hd Hdne Hp Hpne Hrest.
  change (a +:+ "." +:+ b +:+ "." +:+ c +:+ "." +:+ d +:+ ":" +:+ p +:+ rest)
    with (a +:+ String dot (b +:+ String dot (c +:+ String dot
            (d +:+ String colon (p +:+ rest))))).
  rewrite (escapeHost_match _ a d (port (String colon (p +:+ rest))).1
             (port (String colon (p +:+ rest))).2)
    by by apply matchHost_quad.
  rewrite port_present by done. unfold hostTemplate. simpl.
  by rewrite !string_app_assoc.
Qed.

(** *** The service *)

Section ServiceProperties.
Context (pathJoin : string → string → string).

(** What the channel holds after [Add] has sent a log and, when the channel
    was full, received one. *)
Lemma lastN_trim (buffer : list Log) (lg : Log) :
  (length buffer < maxQueueSize)%nat →
  if (maxQueueSize <=? length (buffer ++ [lg]))%nat
  then ∃ x, buffer ++ [lg] = x :: lastN (maxQueueSize - 1) (buffer ++ [lg])
  else lastN (maxQueueSize - 1) (buffer ++ [lg]) = buffer ++ [lg].
Proof.
  intros Hlen. unfold lastN, maxQueueSize in *. rewrite length_app. simpl length.
  destruct (10 <=? length buffer + 1)%nat eqn:Hfull.
  - apply Nat.leb_le in Hfull.
    replace (length buffer + 1 - (10 - 1))%nat with 1%nat by lia.
    destruct buffer as [|x buffer]; simpl in *; [lia|]. by exists x.
  - apply Nat.leb_gt in Hfull.
    by replace (length buffer + 1 - (10 - 1))%nat with 0%nat by lia.
Qed.

(** With the files of the day in use [sLogFiles] does nothing. *)
Lemma sLogFiles_same_day (w : World) (s : svc) :
  logLT (Service s) = LogFile pathJoin w (Service s) "" → sLogFiles pathJoin w s = (Done (), s).
Proof.
  intros Hday. unfold sLogFiles, mbind, Svc_bind, getService.
  rewrite <- Hday. by rewrite String.eqb_refl.
Qed.

(** The service after [Add] when the files of the day are in use and the
    channel has room. *)
Lemma Add_in_use (w : World) (lg : Log) (s : svc) (buffer : list Log) :
  inUse pathJoin w (Service s) → logChan (Service s) = Some buffer →
  (length buffer < maxQueueSize)%nat →
  ∃ l',
    Add pathJoin w lg s =
      (Done (queued lg),
       {| Service := l';
          outputs := outputs s ++
            [Console (kindOf (Kind lg)) (escapeCRLF (escapeHost (Text lg)));
             FileLine (Some (fileOf pathJoin w (Service s) (Kind lg))) (kindOf (Kind lg))
               (escapeHost (Text lg))] |}) ∧
    logChan l' = Some (lastN (maxQueueSize - 1) (buffer ++ [queued lg])) ∧
    success l' =
      (if Kind lg =? LogTypeSuccess then wrap64 (success (Service s) + 1)
       else success (Service s)) ∧
    fails l' =
      (if Kind lg =? LogTypeSuccess then fails (Service s)
       else if Kind lg =? LogTypeError then wrap64 (fails (Service s) + 1)
       else fails (Service s)) ∧
    conns l' = conns (Service s) ∧ logsPath l' = logsPath (Service s) ∧
    logLT l' = logLT (Service s) ∧ fpSI l' = fpSI (Service s) ∧
    fpE l' = fpE (Service s) ∧ logS l' = logS (Service s) ∧
    logI l' = logI (Service s) ∧ logE l' = logE (Service s).
Proof.
  intros (Hday & HfpSI & HfpE & HlogS & HlogI & HlogE) Hchan Hlen.
  unfold Add. unfold mbind at 1. unfold Svc_bind at 1.
  rewrite sLogFiles_same_day by done.
  destruct s as [l out]. simpl in *.
  unfold fileOf, kindOf, LogTypeSuccess, LogTypeError.
  destruct (Kind lg =? 2) eqn:HS; [|destruct (Kind lg =? 1) eqn:HE].
  1: assert (HE : (Kind lg =? 1) = false) by lia; rewrite HE.
  all: unfold entryPrintln, send, receive, chanLen.
  all: unfold mbind, Svc_bind, mret, Svc_ret, getService, modifyService, say; simpl.
  all: rewrite ?HlogS, ?HlogE, ?HlogI; simpl; rewrite Hchan.
  all: apply Nat.ltb_lt in Hlen as Hlt; rewrite Hlt; simpl.
  all: fold (queued lg).
  all: change (match length (buffer ++ [queued lg]) with
               | S (S (S (S (S (S (S (S (S (S _))))))))) => true
               | _ => false
               end) with (maxQueueSize <=? length (buffer ++ [queued lg]))%nat.
  all: pose proof (lastN_trim buffer (queued lg) Hlen) as Htrim.
  all: destruct (maxQueueSize <=? length (buffer ++ [queued lg]))%nat eqn:Hfull.
  all: simpl.
  all: unfold maxQueueSize in *; simpl (10 - 1)%nat in *.
  all: remember (lastN 9 (buffer ++ [queued lg])) as kept eqn:Hkept.
  all: try (destruct Htrim as (x & Hx); rewrite Hx; simpl).
  all: rewrite ?Htrim; rewrite ?HlogS, ?HlogI, ?HlogE.
  all: eexists; (split; [by rewrite <- app_assoc|]); simpl.
  all: by rewrite ?HlogS, ?HlogI, ?HlogE.
Qed.

Lemma LogFile_logsPath (w : World) (l l' : loggerService) (scope : string) :
  logsPath l' = logsPath l → LogFile pathJoin w l' scope = LogFile pathJoin w l scope.
Proof. intros Hpath. unfold LogFile, LogsPath. by rewrite Hpath. Qed.

Lemma length_lastN {A} (n : nat) (l : list A) : (length (lastN n l) ≤ n)%nat.
Proof. unfold lastN. rewrite length_drop. lia. Qed.

Lemma lastN_short {A} (n : nat) (l : list A) : (length l ≤ n)%nat → lastN n l = l.
Proof. intros Hl. unfold lastN. by replace (length l - n)%nat with 0%nat by lia. Qed.

Lemma lastN_app_lastN {A} (n : nat) (l1 l2 : list A) :
  lastN n (lastN n l1 ++ l2) = lastN n (l1 ++ l2).
Proof.
  destruct (decide (length l1 ≤ n)%nat) as [Hle|Hgt].
  - by rewrite (lastN_short n l1).
  - unfold lastN. rewrite !length_app, length_drop.
    replace (length l1 - (length l1 - n) + length l2 - n)%nat with (length l2) by lia.
    replace (length l1 + length l2 - n)%nat with ((length l1 - n) + length l2)%nat by lia.
    rewrite <- drop_drop. f_equal.
    rewrite drop_app_le by lia. done.
Qed.

Lemma wrap64_add_l (a b : Z) : wrap64 (wrap64 a + b) = wrap64 (a + b).
Proof.
  unfold wrap64. f_equal.
  replace ((a + 2 ^ 63) `mod` 2 ^ 64 - 2 ^ 63 + b + 2 ^ 63)
    with ((a + 2 ^ 63) `mod` 2 ^ 64 + b) by lia.
  rewrite Zplus_mod_idemp_l. f_equal. lia.
Qed.

(** [Add] returns and keeps the files in use and the channel with room. *)
Lemma Add_keeps_in_use (w : World) (lg : Log) (s : svc) :
  inUse pathJoin w (Service s) → hasRoom (Service s) →
  (Add pathJoin w lg s).1 = Done (queued lg) ∧
  inUse pathJoin w (Service (Add pathJoin w lg s).2) ∧
  hasRoom (Service (Add pathJoin w lg s).2).
Proof.
  intros Huse (buffer & Hchan & Hlen).
  destruct (Add_in_use w lg s buffer Huse Hchan Hlen)
    as (l' & -> & Hq & _ & _ & _ & Hpath & HLT & HfpSI & HfpE & HS & HI & HE).
  destruct Huse as (? & ? & ? & ? & ? & ?). simpl. split_and!; first done.
  - unfold inUse. rewrite !(LogFile_logsPath w (Service s) l') by done.
    rewrite HLT, HfpSI, HfpE, HS, HI, HE. done.
  - exists (lastN (maxQueueSize - 1) (buffer ++ [queued lg])). split; first done.
    pose proof (length_lastN (maxQueueSize - 1) (buffer ++ [queued lg])) as Hl.
    unfold maxQueueSize in *. lia.
Qed.

(** X22: [Add] returns and leaves the service as it needs it.  With the
    files of the day in use and room in the channel, [Add] returns the log
    with the addresses of its text hidden; it does not block on the channel,
    and afterwards the files are still in use and the channel has room again,
    so the next call finds the same. *)
Theorem Add_returns_and_makes_room (w : World) (lg : Log) (s : svc) :
  inUse pathJoin w (Service s) → hasRoom (Service s) →
  (Add pathJoin w lg s).1 = Done (queued lg) ∧
  inUse pathJoin w (Service (Add pathJoin w lg s).2) ∧
  hasRoom (Service (Add pathJoin w lg s).2).
Proof. apply Add_keeps_in_use. Qed.

(** What [addAll] leaves, by induction on the logs. *)
Lemma addAll_spec (w : World) (lgs : list Log) (s : svc) (buffer : list Log) :
  inUse pathJoin w (Service s) → logChan (Service s) = Some buffer →
  (length buffer < maxQueueSize)%nat →
  logChan (Service (addAll pathJoin w lgs s))
    = Some (lastN (maxQueueSize - 1) (buffer ++ (queued <$> lgs))) ∧
  wrap64 (success (Service (addAll pathJoin w lgs s)))
    = wrap64 (success (Service s) + countKind LogTypeSuccess lgs) ∧
  wrap64 (fails (Service (addAll pathJoin w lgs s)))
    = wrap64 (fails (Service s) + countKind LogTypeError lgs) ∧
  (lgs = [] → Service (addAll pathJoin w lgs s) = Service s).
Proof.
  revert s buffer. induction lgs as [|lg lgs IH]; intros s buffer Huse Hchan Hlen.
  - simpl. rewrite app_nil_r, lastN_short by (unfold maxQueueSize in *; lia).
    unfold countKind. simpl. by rewrite !Z.add_0_r.
  - unfold addAll. simpl. fold (addAll pathJoin w lgs (Add pathJoin w lg s).2).
    destruct (Add_keeps_in_use w lg s Huse) as (_ & Huse' & _);
      first by exists buffer.
    destruct (Add_in_use w lg s buffer Huse Hchan Hlen)
      as (l' & Hadd & Hq & Hsucc & Hfails & _).
    rewrite Hadd in *. simpl in *.
    pose proof (length_lastN (maxQueueSize - 1) (buffer ++ [queued lg])) as Hl.
    destruct (IH {| Service := l'; outputs := outputs s ++
                [Console (kindOf (Kind lg)) (escapeCRLF (escapeHost (Text lg)));
                 FileLine (Some (fileOf pathJoin w (Service s) (Kind lg)))
                   (kindOf (Kind lg)) (escapeHost (Text lg))] |}
                (lastN (maxQueueSize - 1) (buffer ++ [queued lg])))
      as (IHq & IHs & IHf & _); [done|done|unfold maxQueueSize in *; lia|].
    simpl in IHq, IHs, IHf. change (maxQueueSize - 1)%nat with 9%nat in *.
    rewrite IHq, IHs, IHf, Hsucc, Hfails. split_and!.
    + by rewrite lastN_app_lastN, <- app_assoc.
    + unfold countKind, LogTypeSuccess. rewrite filter_cons.
      destruct (Kind lg =? 2) eqn:HK.
      * rewrite decide_True by lia. rewrite wrap64_add_l. f_equal. simpl length. lia.
      * rewrite decide_False by lia. done.
    + unfold countKind, LogTypeSuccess, LogTypeError. rewrite filter_cons.
      destruct (Kind lg =? 2) eqn:HK; [|destruct (Kind lg =? 1) eqn:HK1].
      * rewrite decide_False by lia. done.
      * rewrite decide_True by lia. rewrite wrap64_add_l. f_equal. simpl length. lia.
      * rewrite decide_False by lia. done.
    + done.
Qed.

Lemma wrap64_range (z : Z) : - 2 ^ 63 ≤ wrap64 z < 2 ^ 63.
Proof. unfold wrap64. pose proof (Z.mod_pos_bound (z + 2 ^ 63) (2 ^ 64)). lia. Qed.

(** The counters stay in the range of a Go [int]. *)
Lemma addAll_counters_range (w : World) (lgs : list Log) (s : svc) :
  inUse pathJoin w (Service s) → hasRoom (Service s) →
  - 2 ^ 63 ≤ success (Service s) < 2 ^ 63 → - 2 ^ 63 ≤ fails (Service s) < 2 ^ 63 →
  - 2 ^ 63 ≤ success (Service (addAll pathJoin w lgs s)) < 2 ^ 63 ∧
  - 2 ^ 63 ≤ fails (Service (addAll pathJoin w lgs s)) < 2 ^ 63.
Proof.
  revert s. induction lgs as [|lg lgs IH]; intros s Huse Hroom Hs Hf; first done.
  unfold addAll. simpl. fold (addAll pathJoin w lgs (Add pathJoin w lg s).2).
  destruct (Add_keeps_in_use w lg s Huse Hroom) as (_ & Huse' & Hroom').
  destruct Hroom as (buffer & Hchan & Hlen).
  destruct (Add_in_use w lg s buffer Huse Hchan Hlen)
    as (l' & Hadd & _ & Hsucc & Hfails & _).
  rewrite Hadd in *. simpl in *. apply IH; [done|done|..]; simpl.
  - rewrite Hsucc. destruct (Kind lg =? LogTypeSuccess); [apply wrap64_range|done].
  - rewrite Hfails. destruct (Kind lg =? LogTypeSuccess); first done.
    destruct (Kind lg =? LogTypeError); [apply wrap64_range|done].
Qed.

(** X23: the channel holds the latest nine logs.  After any number of
    calls of [Add], the channel holds the logs that were added, after those
    it held before, each with its addresses hidden and in the order of the
    calls, but only the last [maxQueueSize - 1] of them: the tenth log from
    the end is the one that [Add] has received back to make room. *)
Theorem channel_holds_latest_logs (w : World) (lgs : list Log) (s : svc)
    (buffer : list Log) :
  inUse pathJoin w (Service s) → logChan (Service s) = Some buffer →
  (length buffer < maxQueueSize)%nat →
  logChan (Service (addAll pathJoin w lgs s))
    = Some (lastN (maxQueueSize - 1) (buffer ++ (queued <$> lgs))).
Proof. intros Huse Hchan Hlen. by apply addAll_spec. Qed.

(** X24: the counters count the logs by type.  After any number of calls
    of [Add], [SuccessCnt] has grown by the number of logs of type success
    and [FailCnt] by the number of logs of type error, as Go's [int] adds;
    the logs of every other type, known or not, count for neither. *)
Theorem counters_count_by_type (w : World) (lgs : list Log) (s : svc) :
  inUse pathJoin w (Service s) → hasRoom (Service s) →
  - 2 ^ 63 ≤ success (Service s) < 2 ^ 63 → - 2 ^ 63 ≤ fails (Service s) < 2 ^ 63 →
  SuccessCnt (Service (addAll pathJoin w lgs s))
    = wrap64 (SuccessCnt (Service s) + countKind LogTypeSuccess lgs) ∧
  FailCnt (Service (addAll pathJoin w lgs s))
    = wrap64 (FailCnt (Service s) + countKind LogTypeError lgs).
Proof.
  intros Huse Hroom Hs Hf. unfold SuccessCnt, FailCnt.
  destruct (addAll_counters_range w lgs s Huse Hroom Hs Hf) as [Hs' Hf'].
  destruct Hroom as (buffer & Hchan & Hlen).
  destruct (addAll_spec w lgs s buffer Huse Hchan Hlen) as (_ & Hsucc & Hfails & _).
  rewrite <- Hsucc, <- Hfails. by rewrite !wrap64_small.
Qed.

(** X25: what [Add] prints.  With the files of the day in use, [Add]
    prints the log once on the console, under the name of its type and with
    the line breaks of the text escaped, and once in a file, with the text as
    it is: the error file for a log of type error, the file of the day for
    every other type.  In both the addresses are hidden, and [Add] opens and
    closes no file. *)
Theorem Add_prints_console_and_file (w : World) (lg : Log) (s : svc) :
  inUse pathJoin w (Service s) → hasRoom (Service s) →
  outputsOf (Add pathJoin w lg) s =
    [Console (kindOf (Kind lg)) (escapeCRLF (escapeHost (Text lg)));
     FileLine (Some (fileOf pathJoin w (Service s) (Kind lg))) (kindOf (Kind lg))
       (escapeHost (Text lg))].
Proof.
  intros Huse (buffer & Hchan & Hlen).
  destruct (Add_in_use w lg s buffer Huse Hchan Hlen) as (l' & Hadd & _).
  unfold outputsOf. rewrite Hadd. simpl. by rewrite drop_app_length.
Qed.

(** [sLogFiles] when the file of the day is not the one in use and the
    world lets it open and close the files. *)
Lemma sLogFiles_rotates (w : World) (s : svc) :
  logLT (Service s) ≠ LogFile pathJoin w (Service s) "" →
  is_Some (logS (Service s)) → is_Some (logI (Service s)) → is_Some (logE (Service s)) →
  noFileErrors w →
  sLogFiles pathJoin w s =
    (Done (),
     {| Service := rotated (LogFile pathJoin w (Service s) "")
                     (LogFile pathJoin w (Service s) "error") (Service s);
        outputs := outputs s ++
          [OpenFile (LogFile pathJoin w (Service s) "")] ++ closing (fpSI (Service s)) ++
          [OpenFile (LogFile pathJoin w (Service s) "error")] ++ closing (fpE (Service s)) |}).
Proof.
  intros Hday [eS HS] [eI HI] [eE HE] Hworld. destruct s as [l out]. simpl in *.
  unfold sLogFiles, reopen, setOutput.
  unfold mbind, Svc_bind, mret, Svc_ret, getService, modifyService, say, fatal. simpl.
  apply not_eq_sym, String.eqb_neq in Hday. rewrite Hday. simpl.
  rewrite (proj1 (Hworld _)).
  destruct (fpSI l) as [old|] eqn:HfpSI; simpl;
    rewrite ?(proj2 (Hworld _)); simpl; rewrite HS; simpl; rewrite HI; simpl.
  all: unfold LogFile, LogsPath; simpl; rewrite (proj1 (Hworld _)).
  all: destruct (fpE l) as [oldE|] eqn:HfpE; simpl;
    rewrite ?(proj2 (Hworld _)); simpl; rewrite HE; simpl.
  all: unfold rotated; simpl; rewrite ?HfpSI, ?HfpE; simpl.
  all: by rewrite <- ?app_assoc.
Qed.

(** X26: the first call on a new day changes the files.  Where the files
    in use are those of another day and the world lets files be opened and
    closed, [sLogFiles] returns, having opened the file of the day, closed
    the one it replaces, opened the error file of the day and closed the one
    that replaces; afterwards the files of the day are in use, and the
    channel, the counters and the connections are as before. *)
Theorem sLogFiles_new_day (w0 w : World) (s : svc) :
  inUse pathJoin w0 (Service s) →
  LogFile pathJoin w (Service s) "" ≠ LogFile pathJoin w0 (Service s) "" →
  noFileErrors w →
  (sLogFiles pathJoin w s).1 = Done () ∧
  outputsOf (sLogFiles pathJoin w) s =
    [OpenFile (LogFile pathJoin w (Service s) "");
     CloseFile (LogFile pathJoin w0 (Service s) "");
     OpenFile (LogFile pathJoin w (Service s) "error");
     CloseFile (LogFile pathJoin w0 (Service s) "error")] ∧
  inUse pathJoin w (Service (sLogFiles pathJoin w s).2) ∧
  logChan (Service (sLogFiles pathJoin w s).2) = logChan (Service s) ∧
  SuccessCnt (Service (sLogFiles pathJoin w s).2) = SuccessCnt (Service s) ∧
  FailCnt (Service (sLogFiles pathJoin w s).2) = FailCnt (Service s) ∧
  conns (Service (sLogFiles pathJoin w s).2) = conns (Service s).
Proof.
  intros (HLT & HfpSI & HfpE & HS & HI & HE) Hday Hworld.
  unfold outputsOf.
  rewrite sLogFiles_rotates; [|by rewrite HLT|by rewrite ?HS, ?HI, ?HE..|done].
  simpl. rewrite drop_app_length, HfpSI, HfpE.
  split_and!; done.
Qed.

(** [Initialize] when nothing fails. *)
Lemma Initialize_result (w : World) (s : svc) :
  logsPath (Service s) ≠ "" →
  logLT (Service s) ≠ LogFile pathJoin w (Service s) "" →
  noFileErrors w →
  (∀ err, statError w (LogsPath pathJoin w (Service s)) = Some (err, true) →
          mkdirError w (LogsPath pathJoin w (Service s)) = None) →
  InitializeService pathJoin w s =
    (Done (),
     {| Service := rotated (LogFile pathJoin w (Service s) "")
                     (LogFile pathJoin w (Service s) "error") (allocated (Service s));
        outputs := outputs s ++
          [Console "info" ("LogsPath = " +:+ LogsPath pathJoin w (Service s))] ++
          making w (LogsPath pathJoin w (Service s)) ++
          [OpenFile (LogFile pathJoin w (Service s) "")] ++ closing (fpSI (Service s)) ++
          [OpenFile (LogFile pathJoin w (Service s) "error")] ++
          closing (fpE (Service s)) |}).
Proof.
  intros Hpath Hday Hworld Hmkdir. destruct s as [l out]. simpl in *.
  apply String.eqb_neq in Hpath.
  unfold InitializeService, making.
  unfold mbind, Svc_bind, mret, Svc_ret, getService, modifyService, say, fatal. simpl.
  rewrite Hpath. simpl.
  destruct (statError w (LogsPath pathJoin w l)) as [[err [|]]|] eqn:Hstat; simpl.
  1: rewrite (Hmkdir err) by done; simpl.
  all: rewrite sLogFiles_rotates; simpl; [|done|by eexists..|done].
  all: unfold rotated, allocated; simpl; by rewrite <- ?app_assoc.
Qed.

(** X27: [Initialize] makes the service ready.  With a logs path set, a
    world that lets files be opened and closed and lets the directory be
    made when it is missing, and a file of the day that is not yet the one
    in use, [Initialize] returns with the files of the day in use, an empty
    channel and an empty connection pool, and the counters as they were; it
    makes the directory exactly when [os.Stat] reports it missing. *)
Theorem Initialize_makes_ready (w : World) (s : svc) :
  logsPath (Service s) ≠ "" →
  logLT (Service s) ≠ LogFile pathJoin w (Service s) "" →
  noFileErrors w →
  (∀ err, statError w (LogsPath pathJoin w (Service s)) = Some (err, true) →
          mkdirError w (LogsPath pathJoin w (Service s)) = None) →
  (InitializeService pathJoin w s).1 = Done () ∧
  inUse pathJoin w (Service (InitializeService pathJoin w s).2) ∧
  logChan (Service (InitializeService pathJoin w s).2) = Some [] ∧
  conns (Service (InitializeService pathJoin w s).2) = Some ∅ ∧
  SuccessCnt (Service (InitializeService pathJoin w s).2) = SuccessCnt (Service s) ∧
  FailCnt (Service (InitializeService pathJoin w s).2) = FailCnt (Service s) ∧
  (Mkdir (LogsPath pathJoin w (Service s)) ∈ outputsOf (InitializeService pathJoin w) s
   ↔ ∃ err, statError w (LogsPath pathJoin w (Service s)) = Some (err, true)).
Proof.
  intros Hpath Hday Hworld Hmkdir. unfold outputsOf.
  rewrite Initialize_result by done. simpl. rewrite drop_app_length.
  split_and!; try done.
  unfold making. split.
  - intros Hin. destruct (statError w _) as [[err [|]]|]; first by exists err.
    all: simpl in Hin; destruct (fpSI (Service s)), (fpE (Service s)); simpl in Hin.
    all: repeat (apply elem_of_cons in Hin as [Hin|Hin]; first discriminate).
    all: by apply elem_of_nil in Hin.
  - intros [err ->]. simpl. set_solver.
Qed.

(** X28: the service cannot log before [Initialize].  While the three
    entries of the service are not allocated, [Add] does not return,
    whatever the world answers: it ends the process with code 1, where a log
    file cannot be opened or closed, or panics on the [nil] entry.  Nothing
    is put in the channel. *)
Theorem Add_before_Initialize (w : World) (lg : Log) (s : svc) :
  unallocated (Service s) →
  (ending (Add pathJoin w lg s).1 = Fatal 1 ∨
   ending (Add pathJoin w lg s).1
     = Panics nilDereference) ∧
  logChan (Service (Add pathJoin w lg s).2) = logChan (Service s).
Proof.
  intros (HS & HI & HE). destruct s as [l out]. simpl in *.
  unfold Add, sLogFiles, reopen, setOutput, entryPrintln.
  unfold mbind, Svc_bind, mret, Svc_ret, getService, modifyService, say, fatal, panics. simpl.
  destruct (negb _); simpl.
  - destruct (openError w _); simpl; first by split; [left|].
    destruct (fpSI l); simpl; [destruct (closeError w _); simpl; first by split; [left|]|].
    all: rewrite HS; simpl; by split; [right|].
  - unfold LogTypeSuccess, LogTypeError.
    destruct (Kind lg =? 2); [|destruct (Kind lg =? 1)]; simpl.
    all: rewrite ?HS, ?HE, ?HI; simpl; by split; [right|].
Qed.
End ServiceProperties.

(** *** The connection pool *)

(** X29: [setConn] gives the lock back on every path.  Called on the pool
    that [Initialize] allocates, [setConn] returns with the state stored for
    the connection; called on the [nil] pool of the zero value, it panics and
    leaves the service as it was.  In both cases it takes the lock once and
    releases it once, the panic included. *)
Theorem setConn_releases_the_lock (conn : Conn) (state : bool) (s : svc) :
  outputsOf (setConn conn state) s = [WscLock; WscUnlock] ∧
  match conns (Service s) with
  | Some m =>
      (setConn conn state s).1 = Done () ∧
      conns (Service (setConn conn state s).2) = Some (<[conn := state]> m)
  | None =>
      (setConn conn state s).1 = Panics "assignment to entry in nil map" ∧
      Service (setConn conn state s).2 = Service s
  end.
Proof.
  destruct s as [l out]. unfold outputsOf, setConn, deferring.
  unfold mbind, Svc_bind, mret, Svc_ret, getService, modifyService, say, panics. simpl.
  destruct (conns l) as [m|]; simpl.
  all: by rewrite <- app_assoc, drop_app_length.
Qed.

(** ** Properties of the main package *)

(** X30: the console mode that [initStdios] sets.  Whatever mode the
    console is in and whatever the values of the flags are, the mode that is
    set and kept in [bot.inMode] holds the bits of [ENABLE_WINDOW_INPUT] and
    [ENABLE_AUTO_POSITION] and no other: the four flags are cleared in a mode
    that starts from zero, so clearing them changes nothing, and no bit of
    the console's current mode is kept. *)
Theorem initStdios_sets_two_flags
    (ENABLE_QUICK_EDIT_MODE ENABLE_INSERT_MODE ENABLE_MOUSE_INPUT : Z)
    (ENABLE_EXTENDED_FLAGS ENABLE_WINDOW_INPUT ENABLE_AUTO_POSITION : Z)
    (inMode currentMode : Z) :
  initStdios ENABLE_QUICK_EDIT_MODE ENABLE_INSERT_MODE ENABLE_MOUSE_INPUT
    ENABLE_EXTENDED_FLAGS ENABLE_WINDOW_INPUT ENABLE_AUTO_POSITION
    inMode (inl currentMode)
  = (Z.lor ENABLE_WINDOW_INPUT ENABLE_AUTO_POSITION,
     [SetConsoleMode (Z.lor ENABLE_WINDOW_INPUT ENABLE_AUTO_POSITION)]).
Proof.
  unfold initStdios, consoleMode. cbv zeta.
  by rewrite !Z.ldiff_0_l, Z.lor_0_l.
Qed.

(** ** Properties of the linked client *)

(** *** The logger when it is ready *)

Section ReadyLogger.
Context (pathJoin : string → string → string).

(** With its entries allocated and no file error, [sLogFiles] returns and
    leaves the entries allocated and the channel as it is. *)
Lemma sLogFiles_ready (w : World) (s : svc) :
  ready (Service s) → noFileErrors w →
  ∃ s1, sLogFiles pathJoin w s = (Done (), s1) ∧ ready (Service s1).
Proof.
  intros (HS & HI & HE & Hroom) Hworld.
  destruct (decide (logLT (Service s) = LogFile pathJoin w (Service s) "")) as [Hday|Hday].
  - exists s. by rewrite sLogFiles_same_day.
  - eexists. split; first by apply sLogFiles_rotates.
    simpl. split_and!; by eauto.
Qed.

(** With the logger ready and no file error, [Add] returns and leaves the
    logger ready. *)
Lemma Add_ready (w : World) (lg : Log) (s : svc) :
  ready (Service s) → noFileErrors w →
  ∃ s', Add pathJoin w lg s = (Done (queued lg), s') ∧ ready (Service s').
Proof.
  intros Hready Hworld.
  destruct (sLogFiles_ready w s Hready Hworld)
    as (s1 & Hfiles & [eS HlogS] & [eI HlogI] & [eE HlogE] & buffer & Hchan & Hlen).
  unfold Add. unfold mbind at 1. unfold Svc_bind at 1. rewrite Hfiles.
  destruct s1 as [l out]. simpl in *.
  unfold LogTypeSuccess, LogTypeError.
  destruct (Kind lg =? 2) eqn:HS; [|destruct (Kind lg =? 1) eqn:HE].
  all: unfold entryPrintln, send, receive, chanLen.
  all: unfold mbind, Svc_bind, mret, Svc_ret, getService, modifyService, say; simpl.
  all: rewrite ?HlogS, ?HlogE, ?HlogI; simpl; rewrite Hchan.
  all: apply Nat.ltb_lt in Hlen as Hlt; rewrite Hlt; simpl.
  all: fold (queued lg).
  all: change (match length (buffer ++ [queued lg]) with
               | S (S (S (S (S (S (S (S (S (S _))))))))) => true
               | _ => false
               end) with (maxQueueSize <=? length (buffer ++ [queued lg]))%nat.
  all: pose proof (lastN_trim buffer (queued lg) Hlen) as Htrim.
  all: pose proof (length_lastN (maxQueueSize - 1) (buffer ++ [queued lg])) as Hkeep.
  all: destruct (maxQueueSize <=? length (buffer ++ [queued lg]))%nat eqn:Hfull.
  all: simpl.
  all: unfold maxQueueSize in *; simpl (10 - 1)%nat in *.
  all: remember (lastN 9 (buffer ++ [queued lg])) as kept eqn:Hkept.
  all: try (destruct Htrim as (x & Hx); rewrite Hx; simpl).
  all: eexists; (split; [done|]); unfold ready; simpl.
  all: rewrite ?HlogS, ?HlogI, ?HlogE; split_and!; try by eexists.
  all: eexists; split; [done|]; unfold maxQueueSize.
  all: try lia.
  all: apply Nat.leb_gt in Hfull; lia.
Qed.
End ReadyLogger.


Section LinkedProperties.
Context {CQEvent Func : Type}.
Context (R : RangeOrder).
Context (unmarshalResponse : bytes → CQWSResponse + string).
Context (unmarshalEvent : bytes → CQEvent + string).
Context (pathJoin : string → string → string).
Context (isNil : Func → bool).
Context (plugins : list (effect CQEvent Func) → effect CQEvent Func → result unit).

Implicit Types s : machine CQEvent Func.
Implicit Types p : process CQEvent Func.

(** *** Linked runs *)

Lemma after_nil s : Linked.after s [] = s.
Proof. destruct s as [[c t] l]. unfold Linked.after, extend. simpl. by rewrite app_nil_r. Qed.

Lemma after_after s t1 t2 :
  Linked.after (Linked.after s t1) t2 = Linked.after s (t1 ++ t2).
Proof. unfold Linked.after, extend. simpl. by rewrite app_assoc. Qed.

Lemma run_done {A B} (m : Linked.Run A) (f : A → Linked.Run B) s a s' :
  m s = (Done a, s') → (m ≫= f) s = f a s'.
Proof. intros Hm. unfold mbind, Linked.Run_bind. by rewrite Hm. Qed.

Lemma client_returned {A} (m : Go CQEvent Func A) s a p' :
  m (Proc s) = (Returned a, p') →
  Linked.client m s = (Done a, {| Proc := p'; LogService := LogService s |}).
Proof. intros Hm. unfold Linked.client. by rewrite Hm. Qed.

Lemma client_emit (e : effect CQEvent Func) s :
  Linked.client (emit e) s = (Done (), Linked.after s [e]).
Proof. reflexivity. Qed.

Lemma each_returned {A} (l : list A) (body : A → Linked.Run ())
    (tr : A → list (effect CQEvent Func)) :
  (∀ x s, x ∈ l → body x s = (Done (), Linked.after s (tr x))) →
  ∀ s, Linked.each l body s = (Done (), Linked.after s (l ≫= tr)).
Proof.
  induction l as [|x l IH]; intros Hbody s; simpl.
  - by rewrite after_nil.
  - erewrite run_done; last by apply Hbody; left.
    rewrite IH; last by intros; apply Hbody; right.
    by rewrite after_after.
Qed.

(** *** Registration when no handler is [nil] *)

Lemma foldGo_agree {A B} (f g : B → A → Go CQEvent Func B) (l : list A) :
  (∀ acc x p, f acc x p = g acc x p) →
  ∀ acc p, foldGo f acc l p = foldGo g acc l p.
Proof.
  intros Hfg. induction l as [|x l IH]; intros acc p; simpl; first done.
  unfold mbind, Go_bind. rewrite Hfg.
  destruct (g acc x p) as [[acc'| |] p']; [apply IH|done..].
Qed.

Lemma forEach_agree {A} (f g : A → Go CQEvent Func ()) (l : list A) :
  (∀ x p, x ∈ l → f x p = g x p) →
  ∀ p, forEach l f p = forEach l g p.
Proof.
  induction l as [|x l IH]; intros Hfg p; simpl; first done.
  unfold mbind, Go_bind. rewrite Hfg by left.
  destruct (g x p) as [[[]| |] p']; [|done..].
  apply IH. intros; apply Hfg. by right.
Qed.

Lemma bindFilter_functions (pluginName : string) (hs : gmap string Func) acc kf p :
  (∀ key fn, hs !! key = Some fn → isNil fn = false) →
  Linked.bindFilter isNil pluginName hs acc kf p = bindFilter pluginName hs acc kf p.
Proof.
  intros Hfun. destruct acc as [hasFilter entry], kf as [key f].
  unfold Linked.bindFilter, bindFilter.
  destruct (hs !! key) as [fn|] eqn:Hkey; last done.
  by rewrite (Hfun key fn).
Qed.

Lemma wirePlugin_functions (plug : Plugin CQEvent Func) p :
  Linked.suppliesFunctions isNil plug →
  Linked.wirePlugin R isNil plug p = wirePlugin R plug p.
Proof.
  intros Hfun. unfold Linked.wirePlugin, wirePlugin, Linked.bindFilters, bindFilters.
  unfold mbind, Go_bind.
  rewrite (foldGo_agree _ (bindFilter (Name plug) (Handlers plug))); first done.
  intros acc kf q. by apply bindFilter_functions.
Qed.

Lemma registerAllPlugins_functions (entries : list (Plugin CQEvent Func)) p :
  Forall (Linked.suppliesFunctions isNil) entries →
  Linked.registerAllPlugins R isNil entries p = registerAllPlugins R entries p.
Proof.
  intros Hfun. unfold Linked.registerAllPlugins, registerAllPlugins.
  unfold mbind, Go_bind. destruct (loadPlugins entries p) as [[[]| |] p1]; [|done..].
  rewrite (forEach_agree _ (wirePlugin R)); first done.
  intros plug q Hin. apply wirePlugin_functions.
  by apply (proj1 (Forall_forall _ _) Hfun).
Qed.

(** The entry wired for a plugin holds the functions of the plugin. *)
Lemma entryOf_holdsFunctions (plug : Plugin CQEvent Func) :
  Linked.suppliesFunctions isNil plug → Linked.holdsFunctions isNil (entryOf R plug).
Proof.
  intros Hfun key h. unfold entryOf. simpl.
  destruct (decide (key = noFilterKey)) as [->|Hne].
  - rewrite lookup_insert_eq. intros [= <-].
    apply Forall_forall. intros fn Hin. unfold noFilterHandlers in Hin.
    apply list_elem_of_fmap in Hin as ([k fn'] & -> & Hin).
    apply list_elem_of_filter in Hin as [_ Hin].
    apply elem_of_range in Hin. by apply (Hfun k).
  - rewrite lookup_insert_ne by done.
    rewrite lookup_fmap. intros Hh.
    apply fmap_Some in Hh as (fn & Hfn & ->).
    apply map_lookup_filter_Some in Hfn as [Hfn _]. by apply (Hfun key).
Qed.

(** *** Routing when the calls return *)

Lemma callHandler_returned (pluginName key : string) (fn : Func) event s :
  isNil fn = false → Linked.returnOn plugins event →
  Linked.callHandler isNil plugins pluginName key fn event s
  = (Done (), Linked.after s [CallHandler pluginName key fn event]).
Proof.
  intros Hfn Hret. unfold Linked.callHandler, Linked.call. rewrite Hfn.
  by rewrite Hret.
Qed.

Lemma linked_invoke_returned (pluginName key : string) (h : Handler Func) event s :
  match h with
  | PluginFunc fn => isNil fn = false
  | NoFilterFunc noFilterHanlers => Forall (λ fn, isNil fn = false) noFilterHanlers
  end →
  Linked.returnOn plugins event →
  Linked.invoke isNil plugins pluginName key (Some h) event s
  = (Done (), Linked.after s (invokeTrace pluginName key (Some h) event)).
Proof.
  intros Hfun Hret. destruct h as [fn|hs]; simpl.
  - by apply callHandler_returned.
  - erewrite run_done; last apply client_emit.
    rewrite (each_returned _ _ (λ fn, [CallHandler pluginName key fn event])).
    + rewrite after_after. f_equal.
    + intros fn s' Hin. apply callHandler_returned; last done.
      by apply (proj1 (Forall_forall _ _) Hfun).
Qed.

Lemma linked_routeFilter_returned (pluginName : string) entry event key
    (f : Filter CQEvent) s :
  is_Some (handlers entry !! key) →
  Linked.holdsFunctions isNil entry →
  Linked.returnOn plugins event →
  Linked.routeFilter isNil plugins pluginName entry event key f s
  = (Done (), Linked.after s (filterTrace pluginName entry event (key, f))).
Proof.
  intros [h Hkey] Hfun Hret.
  unfold Linked.routeFilter, Linked.callFilter, filterTrace; simpl.
  erewrite run_done; last first.
  { erewrite run_done; first reflexivity.
    unfold Linked.call. by rewrite Hret. }
  destruct (f event); last done.
  rewrite Hkey, linked_invoke_returned; [|by apply (Hfun key)|done].
  change {| Proc := extend (Proc s) [CallFilter pluginName key event true];
            LogService := LogService s |}
    with (Linked.after s [CallFilter pluginName key event true]).
  by rewrite after_after.
Qed.

Lemma linked_routeEntry_returned event (pluginName : string) entry s :
  complete entry →
  Linked.holdsFunctions isNil entry →
  Linked.returnOn plugins event →
  Linked.routeEntry R isNil plugins event pluginName entry s
  = (Done (), Linked.after s (entryTrace R event (pluginName, entry))).
Proof.
  intros [[h Hno] Hkeys] Hfun Hret. unfold Linked.routeEntry, entryTrace; simpl.
  rewrite Hno.
  erewrite run_done; last by apply linked_invoke_returned; [apply (Hfun noFilterKey)|].
  rewrite (each_returned _ _ (filterTrace pluginName entry event)).
  - by rewrite after_after.
  - intros [key f] s' Hin. apply linked_routeFilter_returned; [|done..].
    apply Hkeys. apply elem_of_range in Hin. by eexists.
Qed.

Lemma linked_eventOnMessage_returned (w : World) (now : Z) raw event s :
  unmarshalEvent raw = inl event →
  (∀ name entry, pluginEntries (Client (Proc s)) !! name = Some entry →
     complete entry ∧ Linked.holdsFunctions isNil entry) →
  Linked.returnOn plugins event →
  Linked.eventOnMessage R unmarshalEvent pathJoin isNil plugins w now raw s
  = (Done (),
     Linked.after s (range R (pluginEntries (Client (Proc s))) ≫= entryTrace R event)).
Proof.
  intros Hraw Htable Hret. unfold Linked.eventOnMessage. rewrite Hraw.
  erewrite run_done; last reflexivity.
  destruct s as [p l]. simpl.
  rewrite (each_returned _ _ (entryTrace R event)); first done.
  intros [name entry] s' Hin. apply elem_of_range in Hin.
  destruct (Htable name entry Hin). by apply linked_routeEntry_returned.
Qed.

(** After the registration of plugins that supply functions, routing a
    decoded event on which the calls return makes the calls that the wired
    table gives. *)
Lemma linked_routed_after_registration (entries : list (Plugin CQEvent Func))
    (w : World) (now : Z) raw event s :
  pluginEntries (Client (Proc s)) = ∅ →
  Forall (λ plug, Load plug = None) entries →
  Forall (Linked.suppliesFunctions isNil) entries →
  Linked.returnOn plugins event →
  unmarshalEvent raw = inl event →
  ∃ p',
    registerAllPlugins R entries (Proc s) = (Returned (), p') ∧
    Linked.client (Linked.registerAllPlugins R isNil entries) s
    = (Done (), {| Proc := p'; LogService := LogService s |}) ∧
    Linked.eventOnMessage R unmarshalEvent pathJoin isNil plugins w now raw
      {| Proc := p'; LogService := LogService s |}
    = (Done (),
       Linked.after {| Proc := p'; LogService := LogService s |}
         (range R (wired R entries ∅) ≫= entryTrace R event)).
Proof.
  intros Hempty Hload Hfun Hret Hraw.
  destruct (routed_after_registration R unmarshalEvent entries raw event (Proc s))
    as (p' & Hreg & Htable & _); [done..|].
  exists p'. split; first done. split.
  - apply client_returned. by rewrite registerAllPlugins_functions.
  - rewrite (linked_eventOnMessage_returned w now raw event); [|done| |done].
    + simpl. by rewrite Htable.
    + simpl. rewrite Htable. intros name entry Hentry.
      apply wired_lookup_inv in Hentry as (plug & [before [after [-> _]]] & _ & ->).
      split; first apply entryOf_complete.
      apply entryOf_holdsFunctions.
      apply (proj1 (Forall_forall _ _) Hfun).
      apply elem_of_app. right. by left.
Qed.

(** *** The logger called from the client *)

Lemma addLog_returned (w : World) (now : Z) (ltype : logger.LogType) (text : string) s :
  Linked.loggerReady s → noFileErrors w →
  ∃ l',
    Linked.addLog pathJoin w now ltype text s
    = (Done (), {| Proc := extend (Proc s) [AddLog ltype text]; LogService := l' |}) ∧
    ready (Service l').
Proof.
  intros Hready Hworld. unfold Linked.addLog.
  erewrite run_done; last apply client_emit.
  destruct (Add_ready pathJoin w (NewLog now (logger.code ltype) text)
              (LogService s) Hready Hworld) as (l' & Hadd & Hready').
  exists l'. split; last done.
  unfold mbind, Linked.Run_bind, Linked.service, AddLog'. simpl. by rewrite Hadd.
Qed.

Lemma linked_sweepLoop (w : World) (now : Z) (l : list (Z * bool)) s :
  Linked.loggerReady s → noFileErrors w →
  ∃ l',
    Linked.each l (λ '(echo, state),
      if (state : bool) && bool_decide (sub64 now echo > timeForWait) then
        Linked.addLog pathJoin w now logger.LogTypeError (timeoutText echo) ;;
        Linked.client (emit MuLock) ;; Linked.client (queueDelete echo) ;;
        Linked.client (emit MuUnlock)
      else mret ()) s
    = (Done (),
       {| Proc := {| Client := setEchoqueue (sweepQueue now l) (Client (Proc s));
                     trace := trace (Proc s) ++ sweepTrace now l |};
          LogService := l' |}) ∧
    ready (Service l').
Proof.
  intros Hready Hworld. revert s Hready.
  induction l as [|[echo state] l IH]; intros s Hready.
  - exists (LogService s). split; last done.
    simpl. rewrite app_nil_r. by destruct s as [[[] ?] ?].
  - cbn [Linked.each]. rewrite sweepTrace_cons.
    change (state && bool_decide (sub64 now echo > timeForWait))
      with (expired now (echo, state)).
    destruct (expired now (echo, state)) eqn:Hexp.
    + destruct (addLog_returned w now logger.LogTypeError (timeoutText echo) s
                  Hready Hworld) as (l1 & Hlog & Hready1).
      erewrite run_done; last first.
      { erewrite run_done; last exact Hlog. reflexivity. }
      match goal with
      | |- context [Linked.each l _ ?s1] =>
          destruct (IH s1 Hready1) as (l' & Hloop & Hready')
      end.
      exists l'. split; last done.
      etransitivity; first exact Hloop.
      unfold setEchoqueue.
      unfold extend.
      cbn [Proc Client trace apiConn eventConn pluginEntries echoqueue].
      rewrite sweepQueue_cons, Hexp. cbn [fst snd app].
      by rewrite <-!app_assoc.
    + erewrite run_done; last reflexivity.
      destruct (IH s Hready) as (l' & Hloop & Hready').
      exists l'. split; last done. rewrite Hloop.
      unfold setEchoqueue.
      cbn [Proc Client trace apiConn eventConn pluginEntries echoqueue].
      by rewrite sweepQueue_cons, Hexp.
Qed.

(** With the logger ready and no file error, the linked sweep does to the
    client what the sweep does when the logger returns, and leaves the logger
    ready. *)
Lemma linked_sweep (w : World) (now : Z) s :
  Linked.loggerReady s → noFileErrors w →
  ∃ l',
    Linked.sweep R pathJoin w now s
    = (Done (), {| Proc := (sweep R now (Proc s)).2; LogService := l' |}) ∧
    ready (Service l').
Proof.
  intros Hready Hworld. unfold Linked.sweep.
  erewrite run_done; last first.
  { apply client_returned. unfold queueRange.
    erewrite bind_returned; last apply emit_returned.
    erewrite bind_returned; reflexivity. }
  destruct (linked_sweepLoop w now (gomap_range R (echoqueue (Client (Proc s))))
              {| Proc := extend (Proc s) [QueueRange]; LogService := LogService s |}
              Hready Hworld) as (l' & Hloop & Hready').
  exists l'. split; last done.
  simpl in *. rewrite Hloop, sweep_returned. simpl. by rewrite <-app_assoc.
Qed.





(** *** The dispatch of one event by the linked client *)

(** C3 (amended): let [plug] be a registered plugin, that is, the last
    descriptor of its name in a list whose load hooks all succeed, and let it
    not bind the reserved key [noFilterKey] in both of its mappings.  Let no
    handler that a descriptor of the list supplies be [nil], and let every
    call of a filter or a handler on the event return.  Then routing the
    decoded event returns, calls the closure of [plug] exactly once, and
    through it calls every handler of [plug] whose key has no filter exactly
    once, with that event. *)
Theorem unfiltered_handlers_called_once (entries : list (Plugin CQEvent Func)) plug
    (w : World) (now : Z) raw event s :
  pluginEntries (Client (Proc s)) = ∅ →
  Forall (λ plug, Load plug = None) entries →
  Forall (Linked.suppliesFunctions isNil) entries →
  Linked.returnOn plugins event →
  lastNamed entries plug →
  ¬ claimed plug noFilterKey →
  unmarshalEvent raw = inl event →
  ∃ s' t,
    Linked.client (Linked.registerAllPlugins R isNil entries) s = (Done (), s') ∧
    Linked.eventOnMessage R unmarshalEvent pathJoin isNil plugins w now raw s'
    = (Done (), Linked.after s' t) ∧
    calledOnce plug event t.
Proof.
  intros Hempty Hload Hfun Hret Hlast Hreserved Hraw.
  destruct (linked_routed_after_registration entries w now raw event s)
    as (p' & _ & Hreg & Hroute); [done..|].
  eexists _, _. split_and!; [done..|].
  by apply closure_calls_unfiltered_once.
Qed.

(** C4 (amended): let [plug] be a registered plugin and [key] a key, other
    than the reserved key [noFilterKey], that [plug] binds to the filter [f]
    and to the handler [h].  Let no handler that a descriptor of the list
    supplies be [nil], and let every call of a filter or a handler on the
    event return.  Then routing the decoded event applies [f] to the event
    once, and calls [h] through [key] if and only if [f] returned true; when
    it is called it is called once, with that event. *)
Theorem filtered_handler_called_iff (entries : list (Plugin CQEvent Func)) plug
    (key : string) (f : Filter CQEvent) (h : Func) (w : World) (now : Z) raw event s :
  pluginEntries (Client (Proc s)) = ∅ →
  Forall (λ plug, Load plug = None) entries →
  Forall (Linked.suppliesFunctions isNil) entries →
  Linked.returnOn plugins event →
  lastNamed entries plug →
  Filters plug !! key = Some f →
  Handlers plug !! key = Some h →
  key ≠ noFilterKey →
  unmarshalEvent raw = inl event →
  ∃ s' t,
    Linked.client (Linked.registerAllPlugins R isNil entries) s = (Done (), s') ∧
    Linked.eventOnMessage R unmarshalEvent pathJoin isNil plugins w now raw s'
    = (Done (), Linked.after s' t) ∧
    filterCalls (Name plug) key t = [(event, f event)] ∧
    handlerCalls (Name plug) key t = (if f event then [(h, event)] else []) ∧
    calledIff plug key f h event t.
Proof.
  intros Hempty Hload Hfun Hret Hlast HF HH Hne Hraw.
  destruct (linked_routed_after_registration entries w now raw event s)
    as (p' & _ & Hreg & Hroute); [done..|].
  eexists _, _. split_and!; [done..| | |].
  all: by apply (filter_gates_its_handler R entries plug key f h event).
Qed.

(** X6: a registered plugin without handlers has a closure that calls
    nothing and no bound filter.  Where no handler of the other descriptors
    is [nil] and every call of a filter or a handler on the event returns,
    the router calls the closure of the plugin once and makes no other call
    for it. *)
Theorem plugin_without_handlers_is_silent (entries : list (Plugin CQEvent Func)) plug
    (w : World) (now : Z) raw event s :
  pluginEntries (Client (Proc s)) = ∅ →
  Forall (λ plug, Load plug = None) entries →
  Forall (Linked.suppliesFunctions isNil) entries →
  Linked.returnOn plugins event →
  lastNamed entries plug →
  Handlers plug = ∅ →
  unmarshalEvent raw = inl event →
  ∃ s' t,
    Linked.client (Linked.registerAllPlugins R isNil entries) s = (Done (), s') ∧
    Linked.eventOnMessage R unmarshalEvent pathJoin isNil plugins w now raw s'
    = (Done (), Linked.after s' t) ∧
    effectsFor (Name plug) t = [CallNoFilter (Name plug) event].
Proof.
  intros Hempty Hload Hfun Hret Hlast Hnone Hraw.
  destruct (linked_routed_after_registration entries w now raw event s)
    as (p' & _ & Hreg & Hroute); [done..|].
  eexists _, _. split_and!; [done..|].
  by apply handlerless_plugin_trace.
Qed.

(** *** Acknowledgements and the sweep of the linked client *)

Lemma made_proc {A B} (m : Linked.Run A) (m0 : Go CQEvent Func B) s :
  Proc (m s).2 = (m0 (Proc s)).2 → Linked.made m s = effectsOf m0 (Proc s).
Proof. intros Hm. unfold Linked.made, effectsOf. by rewrite Hm. Qed.

(** X11: with the logger ready and no file error, the acknowledgement
    callback returns for every frame and in every state of the client.  It
    calls the logger exactly when the frame does not decode, and then once,
    with an error entry that holds the decoder's message; it never sends a
    frame and never calls a plugin, and it leaves the logger ready. *)
Theorem acknowledgement_callback_returns (w : World) (now : Z) raw s :
  Linked.loggerReady s → noFileErrors w →
  (Linked.apiOnMessage unmarshalResponse pathJoin w now raw s).1 = Done () ∧
  addedLogs (Linked.made (Linked.apiOnMessage unmarshalResponse pathJoin w now raw) s)
  = match unmarshalResponse raw with
    | inl _ => []
    | inr err => [(logger.LogTypeError, err)]
    end ∧
  sentFrames (Linked.made (Linked.apiOnMessage unmarshalResponse pathJoin w now raw) s)
  = [] ∧
  filter isPluginCall
    (Linked.made (Linked.apiOnMessage unmarshalResponse pathJoin w now raw) s) = [] ∧
  Linked.loggerReady (Linked.apiOnMessage unmarshalResponse pathJoin w now raw s).2.
Proof.
  intros Hready Hworld.
  destruct (acknowledgement_effects unmarshalResponse raw (Proc s))
    as (_ & Hlogs & Hsent & Hcalls).
  assert (∃ l',
    Linked.apiOnMessage unmarshalResponse pathJoin w now raw s
    = (Done (), {| Proc := (apiOnMessage unmarshalResponse raw (Proc s)).2;
                   LogService := l' |}) ∧ ready (Service l')) as (l' & Hrun & Hready').
  { unfold Linked.apiOnMessage.
    destruct (unmarshalResponse raw) as [msg|err] eqn:Hraw.
    - exists (LogService s). split; last done.
      rewrite (apiOnMessage_returned unmarshalResponse raw msg) by done.
      erewrite run_done; last first.
      { apply client_returned. unfold queueLoad.
        erewrite bind_returned; last apply emit_returned.
        erewrite bind_returned; reflexivity. }
      simpl. fold (tracked (RespEcho msg) (Proc s)).
      destruct (tracked (RespEcho msg) (Proc s)); last done.
      unfold mbind, Linked.Run_bind, Linked.client, extend. simpl.
      by rewrite <-!app_assoc.
    - rewrite (apiOnMessage_decode_error unmarshalResponse raw err) by done.
      by apply addLog_returned. }
  rewrite (made_proc _ (apiOnMessage unmarshalResponse raw)) by by rewrite Hrun.
  rewrite Hrun. by split_and!.
Qed.

(** X12: with the logger ready and no file error, a sweep returns and
    removes exactly the bindings that are stored with the value true and
    whose age [now - echo], computed in [int64], exceeds 30 seconds.  Every
    other binding stays; the logger is called once per removed binding, with
    an error entry that names its echo, and for nothing else, and it is left
    ready. *)
Theorem sweep_removes_the_expired (w : World) (now : Z) (q : gmap Z bool) s :
  echoqueue (Client (Proc s)) = Some q →
  Linked.loggerReady s → noFileErrors w →
  ∃ s',
    Linked.sweep R pathJoin w now s = (Done (), s') ∧
    echoqueue (Client (Proc s')) = Some (filter (λ es, expired now es = false) q) ∧
    addedLogs (Linked.made (Linked.sweep R pathJoin w now) s)
    ≡ₚ (λ es, (logger.LogTypeError, timeoutText es.1))
         <$> map_to_list (filter (λ es, expired now es = true) q) ∧
    Linked.loggerReady s'.
Proof.
  intros Hq Hready Hworld.
  destruct (linked_sweep w now s Hready Hworld) as (l' & Hrun & Hready').
  destruct (sweep_result R now q (Proc s) Hq) as (p' & Hsweep & Hq' & Hlogs).
  eexists. split; first exact Hrun.
  rewrite (made_proc _ (sweep R now)) by by rewrite Hrun.
  split_and!; [|done..]. simpl. by rewrite Hsweep.
Qed.

(** X15: the boundary of the expiry.  With the logger ready and no file
    error, for an echo [T] stored with the value true and an instant [now]
    whose distance to [T] fits [int64], the sweep at [now] removes [T] if and
    only if [T + 30 < now]: at an age of exactly 30 seconds the echo is
    kept. *)
Theorem sweep_expires_after_30_seconds (w : World) (T now : Z) (q : gmap Z bool) s :
  echoqueue (Client (Proc s)) = Some q →
  q !! T = Some true →
  - 2 ^ 63 ≤ now - T < 2 ^ 63 →
  Linked.loggerReady s → noFileErrors w →
  tracked T (Proc (Linked.sweep R pathJoin w now s).2) = false ↔ T + timeForWait < now.
Proof.
  intros Hq HT Hfit Hready Hworld.
  destruct (linked_sweep w now s Hready Hworld) as (l' & -> & _). simpl.
  by apply (sweep_boundary R T now q).
Qed.


End LinkedProperties.


(** ** The further properties at the sample instances *)

Import Cases.

Lemma failing_load_hook_exits_witness :
  registerAllPlugins keyOrder ([pluginA] ++ pluginFailing :: [pluginB]) start
  = (Exited 1, extend start [Println "cannot load"]) ∧
  Client (registerAllPlugins keyOrder ([pluginA] ++ pluginFailing :: [pluginB]) start).2
  = Client start ∧
  loadedSpawns
    (effectsOf (registerAllPlugins keyOrder ([pluginA] ++ pluginFailing :: [pluginB])) start)
  = [].
Proof.
  apply (failing_load_hook_exits keyOrder [pluginA] [pluginB] pluginFailing
           "cannot load" start).
  - repeat constructor.
  - reflexivity.
Defined.

Lemma loaded_hooks_started_witness :
  loadedSpawns (effectsOf (registerAllPlugins keyOrder [pluginA; pluginB; pluginA']) start)
  = Name <$> [pluginA; pluginB; pluginA'].
Proof.
  apply (loaded_hooks_started keyOrder [pluginA; pluginB; pluginA'] start).
  repeat constructor.
Defined.

Lemma dead_filter_warned_and_skipped_witness :
  ∃ p' t,
    registerAllPlugins keyOrder [pluginA; pluginDead] start = (Returned (), p') ∧
    unusedKeyWarning "D" "never"
      ∈ printed (effectsOf (registerAllPlugins keyOrder [pluginA; pluginDead]) start) ∧
    eventOnMessage keyOrder decodeEvent joinMessage p' = (Returned (), extend p' t) ∧
    filterCalls "D" "never" t = [].
Proof.
  apply (dead_filter_warned_and_skipped keyOrder decodeEvent [pluginA; pluginDead]
           pluginDead "never" isJoinEvent joinMessage "join" start).
  - reflexivity.
  - repeat constructor.
  - exists [pluginA], []. split; [reflexivity|apply not_elem_of_nil].
  - reflexivity.
  - reflexivity.
  - reflexivity.
Defined.

Lemma table_holds_the_names_witness :
  dom (pluginEntries (Client (registerAllPlugins keyOrder [pluginA; pluginB; pluginA'] start).2))
  = list_to_set (Name <$> [pluginA; pluginB; pluginA']).
Proof.
  apply (table_holds_the_names keyOrder [pluginA; pluginB; pluginA'] start).
  - reflexivity.
  - repeat constructor.
Defined.

Lemma registration_order_irrelevant_witness :
  Client (registerAllPlugins keyOrder [pluginA; pluginB] start).2
  = Client (registerAllPlugins keyOrder [pluginB; pluginA] start).2.
Proof.
  apply (registration_order_irrelevant keyOrder [pluginA; pluginB] [pluginB; pluginA] start).
  - apply perm_swap.
  - apply (bool_decide_unpack _). vm_compute. exact I.
  - repeat constructor.
Defined.


Lemma table_changes_by_Initialize_only_witness :
  let p := (registerAllPlugins keyOrder [pluginA; pluginB] start).2 in
  pluginEntries
    (Client (runAll keyOrder decodeResponse decodeEvent encode
               [DoConnect "ws://cq" "token"; ApiConnected true; DoSendGroupMsg 5 6 "hi";
                EventMessage joinMessage; EventMessage []; ApiMessage ack100; Tick 131;
                ConnError "EOF"; EventConnected false] p))
  = pluginEntries (Client p).
Proof.
  apply (table_changes_by_Initialize_only keyOrder decodeResponse decodeEvent encode
           [DoConnect "ws://cq" "token"; ApiConnected true; DoSendGroupMsg 5 6 "hi";
            EventMessage joinMessage; EventMessage []; ApiMessage ack100; Tick 131;
            ConnError "EOF"; EventConnected false]
           (registerAllPlugins keyOrder [pluginA; pluginB] start).2).
  repeat constructor.
Defined.

Lemma acknowledgement_resolves_its_echo_witness :
  ∃ p',
    apiOnMessage decodeResponse ack100 tracking3 = (Returned (), p') ∧
    effectsOf (apiOnMessage decodeResponse ack100) tracking3
    = [QueueLoad 100; MuLock; QueueDelete 100; MuUnlock] ∧
    tracked 100 p' = false ∧
    (∀ echo, echo ≠ 100 → tracked echo p' = tracked echo tracking3) ∧
    pluginEntries (Client p') = pluginEntries (Client tracking3).
Proof.
  apply (acknowledgement_resolves_its_echo decodeResponse ack100 {| RespEcho := 100 |}
           tracking3).
  - reflexivity.
  - reflexivity.
Defined.

Lemma acknowledgement_of_unknown_echo_witness :
  apiOnMessage decodeResponse [Byte.x32] tracking3
  = (Returned (), extend tracking3 [QueueLoad 50]).
Proof.
  apply (acknowledgement_of_unknown_echo decodeResponse [Byte.x32] {| RespEcho := 50 |}
           tracking3).
  - reflexivity.
  - reflexivity.
Defined.



Lemma sweep_keeps_echo_on_overflow_witness :
  tracked (- 2 ^ 63) (sweep keyOrder 0 ancient).2 = true.
Proof.
  apply (sweep_keeps_echo_on_overflow keyOrder (- 2 ^ 63) 0 earliest ancient).
  - reflexivity.
  - reflexivity.
  - lia.
  - lia.
  - lia.
Defined.

Lemma escapeHost_without_dot_witness :
  escapeHost "plugin loaded" = "plugin loaded".
Proof. apply (escapeHost_without_dot "plugin loaded"). reflexivity. Defined.

Lemma escapeHost_address_witness :
  escapeHost "ping 127.0.0.1 ok" = "ping " +:+ escapeHost "127.0.0.1 ok" ∧
  escapeHost "127.0.0.1 ok" = "127.*.*.1: ok".
Proof.
  split; first reflexivity.
  refine (escapeHost_address "127" "0" "0" "1" " ok" _ _ _ _ _ _ _ _ _ _);
    reflexivity || discriminate.
Defined.

Lemma escapeHost_address_with_port_witness :
  escapeHost "192.168.1.100:6700/ws" = "192.*.*.100:6700/ws".
Proof.
  refine (escapeHost_address_with_port "192" "168" "1" "100" "6700" "/ws"
            _ _ _ _ _ _ _ _ _ _ _);
    reflexivity || discriminate.
Defined.

Lemma Add_returns_and_makes_room_witness :
  (Add joinPath day1 refused running).1 = Done (queued refused) ∧
  inUse joinPath day1 (Service (Add joinPath day1 refused running).2) ∧
  hasRoom (Service (Add joinPath day1 refused running).2).
Proof.
  apply (Add_returns_and_makes_room joinPath day1 refused running).
  - repeat split.
  - exists []. split; [reflexivity|]. unfold maxQueueSize. simpl. lia.
Defined.

Lemma channel_holds_latest_logs_witness :
  logChan (Service (addAll joinPath day1 twelve running))
  = Some (lastN (maxQueueSize - 1) ([] ++ (queued <$> twelve))).
Proof.
  apply (channel_holds_latest_logs joinPath day1 twelve running []).
  - repeat split.
  - reflexivity.
  - unfold maxQueueSize. simpl. lia.
Defined.

Lemma counters_count_by_type_witness :
  SuccessCnt (Service (addAll joinPath day1 twelve running))
    = wrap64 (SuccessCnt (Service running) + countKind LogTypeSuccess twelve) ∧
  FailCnt (Service (addAll joinPath day1 twelve running))
    = wrap64 (FailCnt (Service running) + countKind LogTypeError twelve).
Proof.
  apply (counters_count_by_type joinPath day1 twelve running).
  - repeat split.
  - exists []. split; [reflexivity|]. unfold maxQueueSize. simpl. lia.
  - simpl. lia.
  - simpl. lia.
Defined.

Lemma Add_prints_console_and_file_witness :
  outputsOf (Add joinPath day1 refused) running =
    [Console "error" "dial 127.*.*.1:6700 refused";
     FileLine (Some "/srv/haruno/logs/2019-03-01-error.log") "error"
       "dial 127.*.*.1:6700 refused"].
Proof.
  apply (Add_prints_console_and_file joinPath day1 refused running).
  - repeat split.
  - exists []. split; [reflexivity|]. unfold maxQueueSize. simpl. lia.
Defined.

Lemma sLogFiles_new_day_witness :
  (sLogFiles joinPath day2 running).1 = Done () ∧
  outputsOf (sLogFiles joinPath day2) running =
    [OpenFile (LogFile joinPath day2 (Service running) "");
     CloseFile (LogFile joinPath day1 (Service running) "");
     OpenFile (LogFile joinPath day2 (Service running) "error");
     CloseFile (LogFile joinPath day1 (Service running) "error")] ∧
  inUse joinPath day2 (Service (sLogFiles joinPath day2 running).2) ∧
  logChan (Service (sLogFiles joinPath day2 running).2) = logChan (Service running) ∧
  SuccessCnt (Service (sLogFiles joinPath day2 running).2) = SuccessCnt (Service running) ∧
  FailCnt (Service (sLogFiles joinPath day2 running).2) = FailCnt (Service running) ∧
  conns (Service (sLogFiles joinPath day2 running).2) = conns (Service running).
Proof.
  apply (sLogFiles_new_day joinPath day1 day2 running).
  - repeat split.
  - vm_compute. discriminate.
  - intros path. split; reflexivity.
Defined.

Lemma Initialize_makes_ready_witness :
  (InitializeService joinPath day1 configured).1 = Done () ∧
  inUse joinPath day1 (Service (InitializeService joinPath day1 configured).2) ∧
  logChan (Service (InitializeService joinPath day1 configured).2) = Some [] ∧
  conns (Service (InitializeService joinPath day1 configured).2) = Some ∅ ∧
  SuccessCnt (Service (InitializeService joinPath day1 configured).2)
    = SuccessCnt (Service configured) ∧
  FailCnt (Service (InitializeService joinPath day1 configured).2)
    = FailCnt (Service configured) ∧
  (Mkdir (LogsPath joinPath day1 (Service configured))
     ∈ outputsOf (InitializeService joinPath day1) configured
   ↔ ∃ err, statError day1 (LogsPath joinPath day1 (Service configured)) = Some (err, true)).
Proof.
  apply (Initialize_makes_ready joinPath day1 configured).
  - discriminate.
  - vm_compute. discriminate.
  - intros path. split; reflexivity.
  - intros err _. reflexivity.
Defined.

Lemma Add_before_Initialize_witness :
  (ending (Add joinPath day1 refused startService).1 = Fatal 1 ∨
   ending (Add joinPath day1 refused startService).1
     = Panics nilDereference) ∧
  logChan (Service (Add joinPath day1 refused startService).2)
  = logChan (Service startService).
Proof.
  apply (Add_before_Initialize joinPath day1 refused startService).
  repeat split.
Defined.

(** ** The linked client at the sample instances *)

(** The handlers of the sample plugins are functions. *)
Ltac functions :=
  repeat (apply Forall_cons; split);
  lazymatch goal with
  | |- Linked.suppliesFunctions ?nil ?plug =>
      change (map_Forall (λ _ fn, nil fn = false) (Handlers plug));
      apply (bool_decide_unpack _); by vm_compute
  | |- _ => by constructor
  end.

(** The logger of the sample program is ready. *)
Ltac logger_ready :=
  split_and!; [by eexists..|]; exists []; split; [reflexivity|];
  unfold maxQueueSize; simpl; lia.

Lemma unfiltered_handlers_called_once_witness :
  ¬ claimed pluginB noFilterKey ∧
  ∃ s' t,
    Linked.client (Linked.registerAllPlugins keyOrder unnamed [pluginA; pluginB]) warm
    = (Done (), s') ∧
    Linked.eventOnMessage keyOrder decodeEvent joinPath unnamed obliging day1 7 joinMessage s'
    = (Done (), Linked.after s' t) ∧
    calledOnce pluginB "join" t.
Proof.
  assert (¬ claimed pluginB noFilterKey) as Hreserved.
  { intros [[f Hf] _]. vm_compute in Hf. discriminate. }
  split; first exact Hreserved.
  apply (unfiltered_handlers_called_once keyOrder decodeEvent joinPath unnamed obliging
           [pluginA; pluginB] pluginB day1 7 joinMessage "join" warm).
  - reflexivity.
  - repeat constructor.
  - functions.
  - intros t e _. reflexivity.
  - exists [pluginA], []. split; [reflexivity|apply not_elem_of_nil].
  - exact Hreserved.
  - reflexivity.
Defined.

Lemma filtered_handler_called_iff_witness :
  ∃ s' t,
    Linked.client (Linked.registerAllPlugins keyOrder unnamed [pluginA; pluginB]) warm
    = (Done (), s') ∧
    Linked.eventOnMessage keyOrder decodeEvent joinPath unnamed obliging day1 7 joinMessage s'
    = (Done (), Linked.after s' t) ∧
    filterCalls "A" "join" t = [("join", true)] ∧
    handlerCalls "A" "join" t = [("welcomeUser", "join")] ∧
    calledIff pluginA "join" isJoinEvent "welcomeUser" "join" t.
Proof.
  apply (filtered_handler_called_iff keyOrder decodeEvent joinPath unnamed obliging
           [pluginA; pluginB] pluginA "join" isJoinEvent "welcomeUser"
           day1 7 joinMessage "join" warm).
  - reflexivity.
  - repeat constructor.
  - functions.
  - intros t e _. reflexivity.
  - exists [], [pluginB]. split; [reflexivity|].
    intros Hin. vm_compute in Hin.
    apply elem_of_cons in Hin as [[=]|Hin]. by apply elem_of_nil in Hin.
  - reflexivity.
  - reflexivity.
  - discriminate.
  - reflexivity.
Defined.

Lemma plugin_without_handlers_is_silent_witness :
  ∃ s' t,
    Linked.client (Linked.registerAllPlugins keyOrder unnamed [pluginEmpty; pluginB]) warm
    = (Done (), s') ∧
    Linked.eventOnMessage keyOrder decodeEvent joinPath unnamed obliging day1 7 joinMessage s'
    = (Done (), Linked.after s' t) ∧
    effectsFor "E" t = [CallNoFilter "E" "join"].
Proof.
  apply (plugin_without_handlers_is_silent keyOrder decodeEvent joinPath unnamed obliging
           [pluginEmpty; pluginB] pluginEmpty day1 7 joinMessage "join" warm).
  - reflexivity.
  - repeat constructor.
  - functions.
  - intros t e _. reflexivity.
  - exists [], [pluginB]. split; [reflexivity|].
    intros Hin. vm_compute in Hin.
    apply elem_of_cons in Hin as [[=]|Hin]. by apply elem_of_nil in Hin.
  - reflexivity.
  - reflexivity.
Defined.

(** A [nil] handler stops the closure: the plugin [N] binds the key [a] to
    [nil] and the key [b] to [logEvent]; the closure calls through [nil]
    first and panics, so [logEvent], which has no filter, is not called. *)
Example nil_handler_stops_the_closure :
  let s := (Linked.client (Linked.registerAllPlugins keyOrder unnamed [pluginNil]) warm).2 in
  let run := Linked.eventOnMessage keyOrder decodeEvent joinPath unnamed obliging
               day1 7 joinMessage in
  (run s).1 = Panics nilDereference ∧
  Linked.made run s = [CallNoFilter "N" "join"] ∧
  handlerCalls "N" noFilterKey (Linked.made run s) = [].
Proof. by vm_compute. Qed.

(** A handler that panics stops the router: the plugins routed after it
    do not see the event. *)
Example panicking_handler_stops_the_router :
  let s := (Linked.client
              (Linked.registerAllPlugins keyOrder unnamed [pluginCrash; pluginLate]) warm).2 in
  let run := Linked.eventOnMessage keyOrder decodeEvent joinPath unnamed crashing
               day1 7 joinMessage in
  (run s).1 = Panics "boom" ∧
  Linked.made run s = [CallNoFilter "C" "join"; CallHandler "C" noFilterKey "crash" "join"] ∧
  filterCalls "Z" "join" (Linked.made run s) = [] ∧
  handlerCalls "Z" "join" (Linked.made run s) = [].
Proof. by vm_compute. Qed.

Lemma acknowledgement_callback_returns_witness :
  (Linked.apiOnMessage decodeResponse joinPath day1 7 [] warm).1 = Done () ∧
  addedLogs (Linked.made (Linked.apiOnMessage decodeResponse joinPath day1 7 []) warm)
  = [(logger.LogTypeError, "unexpected end of JSON input")] ∧
  sentFrames (Linked.made (Linked.apiOnMessage decodeResponse joinPath day1 7 []) warm)
  = [] ∧
  filter isPluginCall
    (Linked.made (Linked.apiOnMessage decodeResponse joinPath day1 7 []) warm) = [] ∧
  Linked.loggerReady (Linked.apiOnMessage decodeResponse joinPath day1 7 [] warm).2.
Proof.
  apply (acknowledgement_callback_returns decodeResponse joinPath day1 7 [] warm).
  - logger_ready.
  - intros path. split; reflexivity.
Defined.

(** With a logger that was not initialised the acknowledgement callback
    does not return on a frame that does not decode: [AddLog] panics. *)
Example undecodable_frame_without_logger :
  (Linked.apiOnMessage decodeResponse joinPath day1 7 [] cold).1 = Panics nilDereference.
Proof. by vm_compute. Qed.

Lemma sweep_removes_the_expired_witness :
  ∃ s',
    Linked.sweep keyOrder joinPath day1 131 warmTracking = (Done (), s') ∧
    echoqueue (Client (Proc s')) = Some (filter (λ es, expired 131 es = false) waiting) ∧
    addedLogs (Linked.made (Linked.sweep keyOrder joinPath day1 131) warmTracking)
    ≡ₚ (λ es, (logger.LogTypeError, timeoutText es.1))
         <$> map_to_list (filter (λ es, expired 131 es = true) waiting) ∧
    Linked.loggerReady s'.
Proof.
  apply (sweep_removes_the_expired keyOrder joinPath day1 131 waiting warmTracking).
  - reflexivity.
  - logger_ready.
  - intros path. split; reflexivity.
Defined.

(** With a logger that was not initialised the sweep does not remove an
    expired echo: [AddLog] panics before the deletion. *)
Example expired_echo_stays_without_logger :
  (Linked.sweep keyOrder joinPath day1 131 coldTracking).1 = Panics nilDereference ∧
  tracked 100 (Proc (Linked.sweep keyOrder joinPath day1 131 coldTracking).2) = true.
Proof. by vm_compute. Qed.

Lemma sweep_expires_after_30_seconds_witness :
  (tracked 100 (Proc (Linked.sweep keyOrder joinPath day1 131 warmTracking).2) = false
   ↔ 100 + timeForWait < 131) ∧
  (tracked 100 (Proc (Linked.sweep keyOrder joinPath day1 130 warmTracking).2) = false
   ↔ 100 + timeForWait < 130).
Proof.
  split.
  - apply (sweep_expires_after_30_seconds keyOrder joinPath day1 100 131 waiting
             warmTracking).
    + reflexivity.
    + reflexivity.
    + lia.
    + logger_ready.
    + intros path. split; reflexivity.
  - apply (sweep_expires_after_30_seconds keyOrder joinPath day1 100 130 waiting
             warmTracking).
    + reflexivity.
    + reflexivity.
    + lia.
    + logger_ready.
    + intros path. split; reflexivity.
Defined.

